(** * WhatsApp transcript converter: markup formatter, message assembler,
      user registry and search index

    A shallow embedding of [whatsapp/whatsapp.py] (and of [index_messages]
    of [matrix/matrix-convertor.py]).

    Conventions of the model.
    - A Python [str] is a [text], a list of characters.  A character is
      one of the code points 0 to 255 (Latin-1), held in an 8-bit [ascii];
      the classes [\d], [\w], [\W], the white space of [str.strip] and
      [str.lower] are those of Python's [str] on these code points.
    - The regular expressions of the source are values of [regex]; they are
      run by a backtracking matcher that tries alternatives from left to
      right, greedy repetitions longest first and lazy ones shortest first,
      as Python's [re] does.
    - Exceptions are the [Err] results of [result]. *)

From Stdlib Require Import Ascii String List Bool Arith Lia.
Import ListNotations.

Set Implicit Arguments.

Open Scope list_scope.

(* ------------------------------------------------------------------ *)
(** ** Text *)

Definition text := list ascii.

(** A string literal read as a [text]. *)
Definition T (s : string) : text := list_ascii_of_string s.

Definition text_eqb (a b : text) : bool :=
  if list_eq_dec ascii_dec a b then true else false.

Definition NL : ascii := "010"%char.

(** Character classes on the code points 0 to 255. *)
Definition is_digit (c : ascii) : bool :=
  let n := nat_of_ascii c in (48 <=? n) && (n <=? 57).

Definition is_alpha (c : ascii) : bool :=
  let n := nat_of_ascii c in
  ((65 <=? n) && (n <=? 90)) || ((97 <=? n) && (n <=? 122)).

(** The letters and numbers among the code points 128 to 255: the two
    ordinal indicators, the micro sign, the superscripts one to three, the
    three fractions, and the letters from 192 on but for the
    multiplication and division signs (215 and 247). *)
Definition is_latin1_alnum (c : ascii) : bool :=
  let n := nat_of_ascii c in
  (n =? 170) || (n =? 178) || (n =? 179) || (n =? 181) || (n =? 185) ||
  (n =? 186) || ((188 <=? n) && (n <=? 190)) ||
  ((192 <=? n) && negb (n =? 215) && negb (n =? 247)).

(** [\w]: what [str.isalnum] accepts, and the underscore. *)
Definition is_word (c : ascii) : bool :=
  is_alpha c || is_digit c || Ascii.eqb c "_"%char || is_latin1_alnum c.

(** [[0-9a-fA-F]] *)
Definition is_hex (c : ascii) : bool :=
  let n := nat_of_ascii c in
  is_digit c || ((65 <=? n) && (n <=? 70)) || ((97 <=? n) && (n <=? 102)).

(** White space as [str.strip()] and [str.isspace()] see it. *)
Definition is_space (c : ascii) : bool :=
  let n := nat_of_ascii c in
  ((9 <=? n) && (n <=? 13)) || ((28 <=? n) && (n <=? 32)) ||
  (n =? 133) || (n =? 160).

Fixpoint lstrip (s : text) : text :=
  match s with
  | c :: s' => if is_space c then lstrip s' else s
  | [] => []
  end.

Definition rstrip (s : text) : text := rev (lstrip (rev s)).

(** [s.strip()] *)
Definition strip (s : text) : text := rstrip (lstrip s).

(** [s.lower()] *)
Definition lower_char (c : ascii) : ascii :=
  let n := nat_of_ascii c in
  if ((65 <=? n) && (n <=? 90)) ||
     ((192 <=? n) && (n <=? 222) && negb (n =? 215))
  then ascii_of_nat (n + 32) else c.

Definition lower (s : text) : text := map lower_char s.

(** [s[-n:]] and [s[:-n]] for [n > 0]. *)
Definition last_n (n : nat) (s : text) : text := skipn (length s - n) s.
Definition drop_last_n (n : nat) (s : text) : text := firstn (length s - n) s.

(** [w] is a prefix of [s]: what is left of [s] after it. *)
Fixpoint strip_prefix (w s : text) : option text :=
  match w with
  | [] => Some s
  | c :: w' =>
      match s with
      | d :: s' => if Ascii.eqb c d then strip_prefix w' s' else None
      | [] => None
      end
  end.

(* ------------------------------------------------------------------ *)
(** ** Regular expressions *)

(** Sets of one character. *)
Inductive cset : Type :=
| CDot                       (* .   : any character but a newline, any
                                      character at all under DOTALL *)
| CDigit                     (* \d *)
| CNonWord                   (* \W *)
| CHex                       (* [0-9a-fA-F] *)
| CNot (c : ascii).          (* [^c] *)

Inductive regex : Type :=
| Eps
| Str (w : text)             (* literal characters *)
| One (c : cset)
| Seq (r1 r2 : regex)
| Alt (r1 r2 : regex)        (* r1|r2 *)
| Group (n : nat) (r : regex)  (* the n-th capturing group *)
| Star (greedy : bool) (c : cset)   (* c* and c*? *)
| WordB                      (* \b *)
| Bol                        (* ^ *)
| Eol                        (* $ *)
| Look (r : regex).          (* (?=r) *)

(** [c+] and [c+?] *)
Definition Plus (greedy : bool) (c : cset) : regex := Seq (One c) (Star greedy c).

(** A sequence of sub-expressions. *)
Fixpoint seqs (l : list regex) : regex :=
  match l with
  | [] => Eps
  | r :: l' => match l' with [] => r | _ => Seq r (seqs l') end
  end.

Definition cset_mem (dotall : bool) (c : cset) (a : ascii) : bool :=
  match c with
  | CDot => dotall || negb (Ascii.eqb a NL)
  | CDigit => is_digit a
  | CNonWord => negb (is_word a)
  | CHex => is_hex a
  | CNot x => negb (Ascii.eqb a x)
  end.

(** The state of a match attempt: the characters before the cursor (nearest
    first), the characters from the cursor on, and the groups captured. *)
Record mstate : Type := MState {
  before : text;
  rest : text;
  caps : list (nat * text)
}.

Definition advance (a : ascii) (rest' : text) (s : mstate) : mstate :=
  MState (a :: before s) rest' (caps s).

(** The characters between the cursor of [s] and the later cursor of [s1]. *)
Definition consumed (s s1 : mstate) : text :=
  firstn (length (rest s) - length (rest s1)) (rest s).

Definition set_cap (n : nat) (w : text) (s : mstate) : mstate :=
  MState (before s) (rest s) ((n, w) :: caps s).

Fixpoint get_cap (n : nat) (l : list (nat * text)) : option text :=
  match l with
  | [] => None
  | (k, w) :: l' => if Nat.eqb k n then Some w else get_cap n l'
  end.

Definition word_at (l : text) : bool :=
  match l with
  | a :: _ => is_word a
  | [] => false
  end.

(** [\b]: exactly one of the two neighbours of the cursor is a word
    character. *)
Definition at_boundary (s : mstate) : bool :=
  xorb (word_at (before s)) (word_at (rest s)).

(** [$]: the end of the text, or just before a newline that ends it. *)
Definition at_eol (s : mstate) : bool :=
  match rest s with
  | [] => true
  | [a] => Ascii.eqb a NL
  | _ => false
  end.

Definition at_bol (s : mstate) : bool :=
  match before s with
  | [] => true
  | _ => false
  end.

Section Matcher.

Variable dotall : bool.

(** Greedy repetition: take one more character if possible, and fall back
    to the continuation at the current cursor when the longer attempts
    fail. *)
Fixpoint star_greedy (c : cset) (bef rst : text) (cp : list (nat * text))
         (k : mstate -> option mstate) : option mstate :=
  match rst with
  | a :: rst' =>
      if cset_mem dotall c a then
        match star_greedy c (a :: bef) rst' cp k with
        | Some r => Some r
        | None => k (MState bef rst cp)
        end
      else k (MState bef rst cp)
  | [] => k (MState bef rst cp)
  end.

(** Lazy repetition: try the continuation first, take one more character
    only when it fails. *)
Fixpoint star_lazy (c : cset) (bef rst : text) (cp : list (nat * text))
         (k : mstate -> option mstate) : option mstate :=
  match k (MState bef rst cp) with
  | Some r => Some r
  | None =>
      match rst with
      | a :: rst' =>
          if cset_mem dotall c a then star_lazy c (a :: bef) rst' cp k
          else None
      | [] => None
      end
  end.

(** [run r s k]: match [r] at the cursor of [s], then continue with [k];
    the first success in priority order. *)
Fixpoint run (r : regex) (s : mstate) (k : mstate -> option mstate)
  : option mstate :=
  match r with
  | Eps => k s
  | Str w =>
      match strip_prefix w (rest s) with
      | Some rest' => k (MState (rev w ++ before s) rest' (caps s))
      | None => None
      end
  | One c =>
      match rest s with
      | a :: rest' =>
          if cset_mem dotall c a then k (advance a rest' s) else None
      | [] => None
      end
  | Seq r1 r2 => run r1 s (fun s1 => run r2 s1 k)
  | Alt r1 r2 =>
      match run r1 s k with
      | Some x => Some x
      | None => run r2 s k
      end
  | Group n r1 => run r1 s (fun s1 => k (set_cap n (consumed s s1) s1))
  | Star true c => star_greedy c (before s) (rest s) (caps s) k
  | Star false c => star_lazy c (before s) (rest s) (caps s) k
  | WordB => if at_boundary s then k s else None
  | Bol => if at_bol s then k s else None
  | Eol => if at_eol s then k s else None
  | Look r1 =>
      match run r1 s Some with
      | Some s1 => k (MState (before s) (rest s) (caps s1))
      | None => None
      end
  end.

End Matcher.

(** A match object: the text matched (group 0) and the groups. *)
Record rmatch : Type := RMatch {
  group0 : text;
  groups : list (nat * text)
}.

Definition group (m : rmatch) (n : nat) : option text :=
  match n with
  | 0 => Some (group0 m)
  | _ => get_cap n (groups m)
  end.

(** The match of [r] with its start at the cursor [(bef, rst)]. *)
Definition match_at (dotall : bool) (r : regex) (bef rst : text) : option rmatch :=
  let s := MState bef rst [] in
  match run dotall r s Some with
  | Some s1 => Some (RMatch (consumed s s1) (caps s1))
  | None => None
  end.

(** [re.match(r, s)] *)
Definition re_match (r : regex) (s : text) : option rmatch :=
  match_at false r [] s.

Definition matches (r : regex) (s : text) : bool :=
  match re_match r s with
  | Some _ => true
  | None => false
  end.

(** [re.search(r, s)]: the match at the leftmost position that has one. *)
Fixpoint search_from (dotall : bool) (r : regex) (bef rst : text) : option rmatch :=
  match match_at dotall r bef rst with
  | Some m => Some m
  | None =>
      match rst with
      | a :: rst' => search_from dotall r (a :: bef) rst'
      | [] => None
      end
  end.

Definition re_search (r : regex) (s : text) : option rmatch :=
  search_from false r [] s.

(** [re.sub(r, repl, s)]: the matches are looked for from left to right and
    do not overlap; [skip] counts the characters of the last match that are
    still to be passed over.  After an empty match one character is copied. *)
Fixpoint sub_loop (dotall : bool) (r : regex) (repl : rmatch -> text)
         (bef rst : text) (skip : nat) : text :=
  match skip with
  | S n =>
      match rst with
      | a :: rst' => sub_loop dotall r repl (a :: bef) rst' n
      | [] => []
      end
  | 0 =>
      match match_at dotall r bef rst with
      | Some m =>
          repl m ++
          match rst with
          | a :: rst' =>
              match length (group0 m) with
              | 0 => a :: sub_loop dotall r repl (a :: bef) rst' 0
              | S n => sub_loop dotall r repl (a :: bef) rst' n
              end
          | [] => []
          end
      | None =>
          match rst with
          | a :: rst' => a :: sub_loop dotall r repl (a :: bef) rst' 0
          | [] => []
          end
      end
  end.

Definition re_sub (dotall : bool) (r : regex) (repl : rmatch -> text) (s : text) : text :=
  sub_loop dotall r repl [] s 0.

(** The value of an optional group inside an f-string or a template. *)
Definition gtext (m : rmatch) (n : nat) : text :=
  match group m n with
  | Some w => w
  | None => T "None"
  end.

(** Truth value of [m.group(n)]: the group took part in the match and is
    not empty. *)
Definition gtruthy (m : rmatch) (n : nat) : bool :=
  match group m n with
  | Some (_ :: _) => true
  | _ => false
  end.

(* ------------------------------------------------------------------ *)
(** ** The markup formatter: [parse_markdown] *)

(** [html.escape(text, quote=False)] *)
Definition escape_char (c : ascii) : text :=
  if Ascii.eqb c "&"%char then T "&amp;"
  else if Ascii.eqb c "<"%char then T "&lt;"
  else if Ascii.eqb c ">"%char then T "&gt;"
  else [c].

Definition html_escape (s : text) : text := flat_map escape_char s.

(** [text.replace("\n", "<br>")] *)
Definition nl_char (c : ascii) : text :=
  if Ascii.eqb c NL then T "<br>" else [c].

Definition nl2br (s : text) : text := flat_map nl_char s.

Definition BT3 : text := T "```".

(** [r"```(.+?)```|\b_(.+?)_"] *)
Definition italic_re : regex :=
  Alt (seqs [Str BT3; Group 1 (Plus false CDot); Str BT3])
      (seqs [WordB; Str (T "_"); Group 2 (Plus false CDot); Str (T "_")]).

(** [r"(```(.+?)```|(\W|^)D([^D]+)D(?=\W|$))"] for the delimiter [D] *)
Definition boundary_re (d : ascii) : regex :=
  Group 1
    (Alt (seqs [Str BT3; Group 2 (Plus false CDot); Str BT3])
         (seqs [Group 3 (Alt (One CNonWord) Bol); Str [d];
                Group 4 (Plus true (CNot d)); Str [d];
                Look (Alt (One CNonWord) Eol)])).

Definition bold_re : regex := boundary_re "*"%char.
Definition strike_re : regex := boundary_re "~"%char.

(** [r"```(.+?)```"] *)
Definition mono_re : regex := seqs [Str BT3; Group 1 (Plus false CDot); Str BT3].

(** [lambda m: f"<em>{m.group(2)}</em>" if m.group(2) else m.group(0)] *)
Definition italic_repl (m : rmatch) : text :=
  if gtruthy m 2 then T "<em>" ++ gtext m 2 ++ T "</em>" else group0 m.

(** [lambda m: f"{m.group(3)}<TAG>{m.group(4)}</TAG>" if m.group(4) else m.group(0)] *)
Definition boundary_repl (tag : text) (m : rmatch) : text :=
  if gtruthy m 4
  then gtext m 3 ++ T "<" ++ tag ++ T ">" ++ gtext m 4 ++ T "</" ++ tag ++ T ">"
  else group0 m.

(** The template [r"<pre>\1</pre>"] *)
Definition mono_repl (m : rmatch) : text :=
  T "<pre>" ++ gtext m 1 ++ T "</pre>".

Definition italic_pass (s : text) : text := re_sub false italic_re italic_repl s.
Definition bold_pass (s : text) : text := re_sub false bold_re (boundary_repl (T "strong")) s.
Definition strike_pass (s : text) : text := re_sub false strike_re (boundary_repl (T "del")) s.
Definition mono_pass (s : text) : text := re_sub true mono_re mono_repl s.

Definition parse_markdown (s : text) (test : bool) : text :=
  let s := if test then s else html_escape s in
  let s := italic_pass s in
  let s := bold_pass s in
  let s := strike_pass s in
  let s := mono_pass s in
  if test then s else nl2br s.

(** Markup detection as the callers of [parse_markdown] do it:
    [content != parse_markdown(content, True)]. *)
Definition has_markup (s : text) : bool :=
  negb (text_eqb s (parse_markdown s true)).

Definition render_detect (s : text) : text := parse_markdown s true.
Definition render (s : text) : text := parse_markdown s false.

(* ------------------------------------------------------------------ *)
(** ** Exceptions *)

Inductive error : Type :=
| FileNotFoundError (path : text)   (* raised by [shutil.copyfile] *)
| KeyError (key : text)             (* a dictionary has no such key *)
| ValueError                        (* [datetime] refuses the date *)
| EOFError.                         (* [input()] has nothing to read *)

Inductive result (A : Type) : Type :=
| Ok (a : A)
| Err (e : error).

Arguments Ok {A} a.
Arguments Err {A} e.

(** The value returned, or [d] when an exception was raised. *)
Definition value_or {A : Type} (d : A) (r : result A) : A :=
  match r with
  | Ok a => a
  | Err _ => d
  end.

Definition bind {A B : Type} (x : result A) (f : A -> result B) : result B :=
  match x with
  | Ok a => f a
  | Err e => Err e
  end.

Notation "'do' x <- e1 ; e2" := (bind e1 (fun x => e2))
  (at level 10, x name, e1 at level 100, e2 at level 200).

(* ------------------------------------------------------------------ *)
(** ** Transcript lines *)

Definition d2 : regex := Seq (One CDigit) (One CDigit).

(** [r"(\d\d)/(\d\d)/(\d\d), (\d\d):(\d\d) - ([^:]+): (.+)"] *)
Definition pattern : regex :=
  seqs [Group 1 d2; Str (T "/"); Group 2 d2; Str (T "/"); Group 3 d2;
        Str (T ", "); Group 4 d2; Str (T ":"); Group 5 d2; Str (T " - ");
        Group 6 (Plus true (CNot ":"%char)); Str (T ": ");
        Group 7 (Plus true CDot)].

(** [r"(\d\d)/(\d\d)/(\d\d), (\d\d):(\d\d) - .+"] *)
Definition skip_pattern : regex :=
  seqs [Group 1 d2; Str (T "/"); Group 2 d2; Str (T "/"); Group 3 d2;
        Str (T ", "); Group 4 d2; Str (T ":"); Group 5 d2; Str (T " - ");
        Plus true CDot].

(** The pattern [(.{0,})(IMG-.+.jpg) \(file attached\)], whose first group
    is written with a dot and a star in the source. *)
Definition img_re : regex :=
  seqs [Group 1 (Star true CDot);
        Group 2 (seqs [Str (T "IMG-"); Plus true CDot; One CDot; Str (T "jpg")]);
        Str (T " (file attached)")].

(** The three kinds of line of the transcript grammar, as the assembler
    tells them apart: [pattern] first, then [skip_pattern]. *)
Inductive line_class : Type := MessageHeader | SystemNotice | Continuation.

Definition classify (line : text) : line_class :=
  if matches pattern line then MessageHeader
  else if matches skip_pattern line then SystemNotice
  else Continuation.

(** What a file opened in text mode hands over: a carriage return, alone
    or followed by a newline, is read as a newline. *)
Definition CR : ascii := "013"%char.

Fixpoint universal_newlines (s : text) : text :=
  match s with
  | [] => []
  | c :: s' =>
      if Ascii.eqb c CR then
        match s' with
        | d :: s'' =>
            if Ascii.eqb d NL then NL :: universal_newlines s''
            else NL :: universal_newlines s'
        | [] => [NL]
        end
      else c :: universal_newlines s'
  end.

(** The lines of a text, each with the newline that ends it. *)
Fixpoint readlines_from (cur s : text) : list text :=
  match s with
  | [] => match cur with [] => [] | _ => [rev cur] end
  | c :: s' =>
      if Ascii.eqb c NL then rev (c :: cur) :: readlines_from [] s'
      else readlines_from (c :: cur) s'
  end.

(** [f.readlines()] on the characters of the file. *)
Definition readlines (s : text) : list text :=
  readlines_from [] (universal_newlines s).

(** [int(s)] on a run of decimal digits. *)
Definition digit_val (c : ascii) : nat := nat_of_ascii c - 48.

Definition int_of (s : text) : nat :=
  fold_left (fun acc c => 10 * acc + digit_val c) s 0.

(** ** Dates: what [datetime(year, month, day, hour, minute)] accepts *)

Record timestamp : Type := Timestamp {
  year : nat; month : nat; day : nat; hour : nat; minute : nat
}.

Definition is_leap (y : nat) : bool :=
  ((y mod 4 =? 0) && negb (y mod 100 =? 0)) || (y mod 400 =? 0).

Definition days_in_month (y m : nat) : nat :=
  match m with
  | 2 => if is_leap y then 29 else 28
  | 4 | 6 | 9 | 11 => 30
  | _ => 31
  end.

Definition datetime (y mo d h mi : nat) : result timestamp :=
  if (1 <=? y) && (y <=? 9999) && (1 <=? mo) && (mo <=? 12) &&
     (1 <=? d) && (d <=? days_in_month y mo) && (h <=? 23) && (mi <=? 59)
  then Ok (Timestamp y mo d h mi)
  else Err ValueError.

(** ** Paths *)

Definition is_slash (c : ascii) : bool := Ascii.eqb c "/"%char.
Definition is_sep (c : ascii) : bool :=
  Ascii.eqb c "/"%char || Ascii.eqb c "\"%char.

(** What follows the last character satisfying [sep], and what precedes
    that part. *)
Fixpoint after_last (sep : ascii -> bool) (s : text) : text :=
  match s with
  | [] => []
  | c :: s' => if existsb sep s' then after_last sep s'
               else if sep c then s' else s
  end.

Fixpoint rstrip_slash_rev (r : text) : text :=
  match r with
  | c :: r' => if is_slash c then rstrip_slash_rev r' else r
  | [] => []
  end.

(** [os.path.dirname(p)] *)
Definition dirname (p : text) : text :=
  let head := firstn (length p - length (after_last is_slash p)) p in
  if forallb is_slash head then head else rev (rstrip_slash_rev (rev head)).

(** [ntpath.splitdrive(p)[1]]: a colon in second place ends a drive, which
    is left out.  The drive of a path that starts with two separators (a UNC
    prefix) is not modelled. *)
Definition drop_drive (p : text) : text :=
  match p with
  | _ :: b :: p' => if Ascii.eqb b ":"%char then p' else p
  | _ => p
  end.

(** [ntpath.basename(p)] *)
Definition basename (p : text) : text := after_last is_sep (drop_drive p).

(** [s.split("/")] *)
Fixpoint split_slash (cur s : text) : list text :=
  match s with
  | [] => [rev cur]
  | c :: s' => if is_slash c then rev cur :: split_slash [] s'
               else split_slash (c :: cur) s'
  end.

(** ["/".join(parts)] *)
Fixpoint join_slash (parts : list text) : text :=
  match parts with
  | [] => []
  | [p] => p
  | p :: parts' => p ++ "/"%char :: join_slash parts'
  end.

(** The root of a POSIX path: two leading slashes are kept, one or three
    and more are a single slash. *)
Definition path_root (s : text) : text :=
  match s with
  | a :: b :: c :: _ =>
      if is_slash a then
        if is_slash b then if is_slash c then T "/" else T "//"
        else T "/"
      else []
  | [a; b] => if is_slash a then if is_slash b then T "//" else T "/" else []
  | [a] => if is_slash a then T "/" else []
  | [] => []
  end.

Definition is_dot_segment (p : text) : bool :=
  match p with
  | [] => true
  | [c] => Ascii.eqb c "."%char
  | _ => false
  end.

(** [str(PurePosixPath(s))]: empty segments and single dots are dropped;
    the empty path is written as a dot. *)
Definition pure_path (s : text) : text :=
  let parts := filter (fun p => negb (is_dot_segment p)) (split_slash [] s) in
  match path_root s, parts with
  | [], [] => T "."
  | root, _ => root ++ join_slash parts
  end.

(** [posixpath.join(d, n)] *)
Definition posix_join (d n : text) : text :=
  match n with
  | c :: _ =>
      if is_slash c then n
      else match rev d with
           | [] => n
           | e :: _ => if is_slash e then d ++ n else d ++ "/"%char :: n
           end
  | [] => match rev d with
          | [] => []
          | e :: _ => if is_slash e then d else d ++ T "/"
          end
  end.

(** [str(Path(d) / n)] *)
Definition path_join (d n : text) : text := pure_path (posix_join d n).

(* ------------------------------------------------------------------ *)
(** ** The message assembler: [backup_messages] *)

(** An entry of [group_users]. *)
Record member : Type := Member {
  user_id : text;
  avatar : text;
  color : option text
}.

(** A Python dictionary with text keys, in insertion order. *)
Definition dict (V : Type) : Type := list (text * V).

Fixpoint dict_get {V : Type} (d : dict V) (k : text) : option V :=
  match d with
  | [] => None
  | (k', v) :: d' => if text_eqb k' k then Some v else dict_get d' k
  end.

(** [d[k] = v]: an existing key keeps its place. *)
Fixpoint dict_set {V : Type} (d : dict V) (k : text) (v : V) : dict V :=
  match d with
  | [] => [(k, v)]
  | (k', v') :: d' =>
      if text_eqb k' k then (k', v) :: d' else (k', v') :: dict_set d' k v
  end.

Definition dict_mem {V : Type} (d : dict V) (k : text) : bool :=
  match dict_get d k with
  | Some _ => true
  | None => false
  end.

Inductive message_type : Type := Default | Redacted.

Record message : Type := Message {
  m_id : nat;                        (* the rank of the [shortuuid.uuid()] drawn *)
  m_user_id : text;
  m_name : text;
  m_avatar : text;
  m_color : option text;
  m_created_timestamp : timestamp;
  m_message_type : message_type;
  m_content : option text;
  m_format : option text;
  m_formatted_content : option text;
  m_attachments : option (list text)  (* the list that [json.dumps] writes *)
}.

Definition WHATSAPP_MARKDOWN : text := T "whatsapp_markdown".
Definition FILE_ATTACHED : text := T " (file attached)".

Definition is_deleted (body : text) : bool :=
  text_eqb body (T "This message was deleted") ||
  text_eqb body (T "You deleted this message").

(** Truth value of an optional string: neither [None] nor empty. *)
Definition truthy (c : option text) : bool :=
  match c with
  | Some (_ :: _) => true
  | _ => false
  end.

(** Lines 206-211: the type and the content of a message, from the body
    that the header pattern has captured. *)
Definition body_of (m : rmatch) : message_type * text :=
  if is_deleted (gtext m 7) then (Redacted, []) else (Default, gtext m 7).

(** Lines 213-227: the attachment named by the body, the content left, and
    whether the next line is used up.  [next] is [lines[i + 1]] when there
    is one. *)
Definition attachment_marker (dir content : text) (next : option text)
  : option text * text * bool :=
  match re_match img_re content with
  | Some m =>
      let attachment := path_join dir (gtext m 2) in
      let content := gtext m 1 in
      match next with
      | Some n =>
          if negb (matches pattern n) && negb (matches skip_pattern n)
          then (Some attachment, content ++ n, true)
          else (Some attachment, content, false)
      | None => (Some attachment, content, false)
      end
  | None =>
      if text_eqb (last_n 16 content) FILE_ATTACHED then
        let attachment := path_join dir (drop_last_n 16 content) in
        let skip :=
          match next with
          | Some n => text_eqb (strip n) (strip (drop_last_n 16 content))
          | None => false
          end in
        (Some attachment, [], skip)
      else (None, content, false)
  end.

(** Lines 235-240: the format and the formatted content of a stripped
    content. *)
Definition formatting (stripped : text) : option text * option text :=
  match stripped with
  | [] => (None, None)
  | _ =>
      if negb (text_eqb stripped (parse_markdown stripped true))
      then (Some WHATSAPP_MARKDOWN, Some (parse_markdown stripped false))
      else (None, None)
  end.

Section Assembler.

(** The files that exist and can be copied. *)
Variable exists_file : text -> bool.

Variable filepath : text.
Variable chat_id : text.
Variable group_users : dict member.

(** Lines 228-233.  A missing source makes [shutil.copyfile] raise. *)
Definition copy_attachment (attachment : option text) : result (option text) :=
  match attachment with
  | Some a =>
      if exists_file a then Ok (Some (chat_id ++ T "/" ++ basename a))
      else Err (FileNotFoundError a)
  | None => Ok None
  end.

(** Lines 199-254: the message of a header line matched as [m], and the
    value of [skip] after it. *)
Definition header_message (m : rmatch) (next : option text) (id : nat)
  : result (message * bool) :=
  let y := int_of (T "20" ++ gtext m 3) in
  let mo := int_of (gtext m 2) in
  let d := int_of (gtext m 1) in
  let h := int_of (gtext m 4) in
  let mi := int_of (gtext m 5) in
  let name := gtext m 6 in
  let '(attachment, content, skip) :=
    attachment_marker (dirname filepath) (snd (body_of m)) next in
  let mtype := fst (body_of m) in
  do attachment <- copy_attachment attachment;
  let '(fmt, formatted) := formatting (strip content) in
  match dict_get group_users name with
  | None => Err (KeyError name)
  | Some u =>
      do ts <- datetime y mo d h mi;
      Ok (Message id (user_id u) name (avatar u) (color u) ts mtype
            (match strip content with [] => None | c => Some c end)
            fmt formatted
            (match attachment with Some a => Some [a] | None => None end),
          skip)
  end.

(** Lines 258-263 and 265-269: the last message with [new_content]. *)
Definition with_content (new_content : text) (msg : message) : message :=
  let marked := negb (text_eqb new_content (parse_markdown new_content true)) in
  Message (m_id msg) (m_user_id msg) (m_name msg) (m_avatar msg) (m_color msg)
    (m_created_timestamp msg) (m_message_type msg)
    (Some new_content)
    (if marked then Some WHATSAPP_MARKDOWN else m_format msg)
    (if marked then Some (parse_markdown new_content false)
     else m_formatted_content msg)
    (m_attachments msg).

(** Lines 255-269: a line that is no header, after the message [msg]. *)
Definition continue_message (line : text) (msg : message) : message :=
  if truthy (m_content msg) && negb (matches skip_pattern line) then
    match m_content msg with
    | Some c => with_content (c ++ [NL] ++ strip line) msg
    | None => msg
    end
  else if negb (matches skip_pattern line) then with_content (strip line) msg
  else msg.

(** [messages[-1] = f(messages[-1])] *)
Definition update_last (f : message -> message) (msgs : list message)
  : list message :=
  match rev msgs with
  | [] => []
  | x :: r => rev r ++ [f x]
  end.

(** The loop of lines 191-269 on the lines left, with the current value
    of [skip] and the messages assembled so far. *)
Fixpoint assemble (lines : list text) (skip : bool) (msgs : list message)
  : result (list message) :=
  match lines with
  | [] => Ok msgs
  | line :: lines' =>
      if skip then assemble lines' false msgs
      else
        match re_match pattern line with
        | Some m =>
            do r <- header_message m (hd_error lines') (length msgs);
            assemble lines' (snd r) (msgs ++ [fst r])
        | None =>
            match msgs with
            | [] => assemble lines' false msgs
            | _ => assemble lines' false (update_last (continue_message line) msgs)
            end
        end
  end.

Definition backup_messages_lines (lines : list text) : result (list message) :=
  assemble lines false [].

(** [backup_messages(filepath, chat_id, group_users)] on a file with the
    given content. *)
Definition backup_messages (file : text) : result (list message) :=
  backup_messages_lines (readlines file).

(** What becomes of each line in the loop: a header line that yields a
    message, a line used up as the caption of an image, a line used up as
    the repeated name of an attached file, or any other line. *)
Inductive fate : Type := Emitted | Caption | Filename | Other.

Definition is_img (content : text) : bool :=
  match re_match img_re content with
  | Some _ => true
  | None => false
  end.

(** The fates of the lines left; [used] is the fate of the first of them
    when the line before has set [skip]. *)
Fixpoint fates (lines : list text) (used : option fate) : list fate :=
  match lines with
  | [] => []
  | line :: lines' =>
      match used with
      | Some f => f :: fates lines' None
      | None =>
          match re_match pattern line with
          | Some m =>
              let content := snd (body_of m) in
              let skip :=
                snd (attachment_marker (dirname filepath) content
                       (hd_error lines')) in
              Emitted ::
              fates lines'
                (if skip then Some (if is_img content then Caption else Filename)
                 else None)
          | None => Other :: fates lines' None
          end
      end
  end.

Definition is_emitted (f : fate) : bool :=
  match f with Emitted => true | _ => false end.

Definition is_caption (f : fate) : bool :=
  match f with Caption => true | _ => false end.

Definition is_used (f : fate) : bool :=
  match f with Caption | Filename => true | _ => false end.

(** The number of lines classified as [MessageHeader]. *)
Definition header_count (lines : list text) : nat :=
  length (filter (matches pattern) lines).

(** The number of lines merged into the preceding message as the caption
    of its image. *)
Definition caption_count (lines : list text) : nat :=
  length (filter is_caption (fates lines None)).

(** The number of header lines that the line before them has used up. *)
Definition used_header_count (lines : list text) : nat :=
  length (filter (fun lf => matches pattern (fst lf) && is_used (snd lf))
            (combine lines (fates lines None))).

End Assembler.

(* ------------------------------------------------------------------ *)
(** ** The user registry: [backup_users] *)

(** The pattern of [validate_color]: a sharp sign and three or six
    hexadecimal digits, between [^] and [$]. *)
Definition hex3 : regex := seqs [One CHex; One CHex; One CHex].

Definition color_re : regex :=
  seqs [Bol; Str (T "#"); hex3; Alt hex3 Eps; Eol].

Definition validate_color (c : text) : bool :=
  match re_search color_re c with
  | Some _ => true
  | None => false
  end.

(** [r"^\d\d/\d\d/\d\d, \d\d:\d\d - ([^:]+): .+"] *)
Definition user_regex : regex :=
  seqs [Bol; d2; Str (T "/"); d2; Str (T "/"); d2; Str (T ", "); d2;
        Str (T ":"); d2; Str (T " - "); Group 1 (Plus true (CNot ":"%char));
        Str (T ": "); Plus true CDot].

(** The names of the senders of a transcript, each once. *)
Fixpoint collect_names (lines : list text) (names : list text) : list text :=
  match lines with
  | [] => names
  | line :: lines' =>
      match re_match user_regex line with
      | Some m =>
          let n := gtext m 1 in
          collect_names lines'
            (if existsb (text_eqb n) names then names else names ++ [n])
      | None => collect_names lines' names
      end
  end.

(** [os.path.splitext(p)[1]]: the extension of the last component, dots at
    its start apart. *)
Fixpoint lstrip_dots (s : text) : text :=
  match s with
  | c :: s' => if Ascii.eqb c "."%char then lstrip_dots s' else s
  | [] => []
  end.

Definition is_dot (c : ascii) : bool := Ascii.eqb c "."%char.

Definition splitext_ext (p : text) : text :=
  let comp := lstrip_dots (after_last is_slash p) in
  if existsb is_dot comp then "."%char :: after_last is_dot comp else [].

(** An entry of [info["users"]] in [info.json]. *)
Record user_info : Type := UserInfo {
  i_user_id : text;
  i_avatar : option text;
  i_color : option text
}.

(** An entry of [new_users], filed under the user's id. *)
Record new_user : Type := NewUser {
  n_name : text;
  n_avatar : text;
  n_color : option text
}.

(** What a run of [backup_users] reads, changes and prints. *)
Record ustate : Type := UState {
  inputs : list text;          (* the lines [input()] has yet to return *)
  printed : list text;         (* the lines given to [print], latest first *)
  uuids : nat;                 (* how many identifiers have been drawn *)
  existing_ids : list text;    (* the set shared with the caller *)
  copied : list (text * text);  (* files copied: source and target *)
  new_users : dict new_user;
  group_users_of : dict member
}.

Definition INPUT_PATH : text := T "whatsapp_exports".
Definition OUTPUT_PATH : text := T "wa_backup".

Definition set_add (x : text) (s : list text) : list text :=
  if existsb (text_eqb x) s then s else s ++ [x].

Section Users.

Variable exists_file : text -> bool.
(** The identifiers that [shortuuid.uuid()] yields, in turn. *)
Variable uuid : nat -> text.
(** The order in which a set of names is iterated. *)
Variable set_order : list text -> list text.

Variable info_users : option (dict user_info).
Variable existing_users : dict member.

Definition say (line : text) (st : ustate) : ustate :=
  UState (inputs st) (line :: printed st) (uuids st) (existing_ids st)
    (copied st) (new_users st) (group_users_of st).

(** [input(prompt).strip()] *)
Definition read (st : ustate) : result (text * ustate) :=
  match inputs st with
  | [] => Err EOFError
  | l :: ls =>
      Ok (strip l, UState ls (printed st) (uuids st) (existing_ids st)
                     (copied st) (new_users st) (group_users_of st))
  end.

(** [shutil.copyfile(src, OUTPUT_PATH / "avatars" / target)] *)
Definition copy_avatar (src target : text) (st : ustate) : result ustate :=
  if exists_file src then
    Ok (UState (inputs st) (printed st) (uuids st) (existing_ids st)
          ((src, path_join (path_join OUTPUT_PATH (T "avatars")) target) :: copied st)
          (new_users st) (group_users_of st))
  else Err (FileNotFoundError src).

(** [shortuuid.uuid() + os.path.splitext(p)[1]] *)
Definition fresh_target (p : text) (st : ustate) : text * ustate :=
  (uuid (uuids st) ++ splitext_ext p,
   UState (inputs st) (printed st) (S (uuids st)) (existing_ids st)
     (copied st) (new_users st) (group_users_of st)).

Definition add_id (id : text) (st : ustate) : ustate :=
  UState (inputs st) (printed st) (uuids st) (set_add id (existing_ids st))
    (copied st) (new_users st) (group_users_of st).

Definition set_new_user (id : text) (u : new_user) (st : ustate) : ustate :=
  UState (inputs st) (printed st) (uuids st) (existing_ids st)
    (copied st) (dict_set (new_users st) id u) (group_users_of st).

Definition set_group_user (name : text) (u : member) (st : ustate) : ustate :=
  UState (inputs st) (printed st) (uuids st) (existing_ids st)
    (copied st) (new_users st) (dict_set (group_users_of st) name u).

(** Lines 95-114: a name that [info.json] describes. *)
Definition from_info (name : text) (i : user_info) (st : ustate) : result ustate :=
  let st := say (T "Found " ++ name ++ T " in info.json") st in
  do r <-
    match dict_get existing_users name with
    | None =>
        do r <-
          match i_avatar i with
          | None =>
              do st <- copy_avatar (T "default.svg") (T "default.svg") st;
              Ok (T "default.svg", st)
          | Some a =>
              let '(target, st) := fresh_target a st in
              do st <- copy_avatar (path_join INPUT_PATH a) target st;
              Ok (target, st)
          end;
        Ok (fst r,
            set_new_user (i_user_id i) (NewUser name (fst r) (i_color i)) (snd r))
    | Some u => Ok (avatar u, st)
    end;
  Ok (add_id (i_user_id i)
        (set_group_user name (Member (i_user_id i) (fst r) (i_color i)) (snd r))).

(** Lines 117-126: ask until the answer is y or n; [true] for y. *)
Fixpoint ask_skip (ins : list text) : result (bool * list text) :=
  match ins with
  | [] => Err EOFError
  | l :: ls =>
      let response := lower (strip l) ++ T " " in
      if text_eqb response (T "y ") then Ok (true, ls)
      else if text_eqb response (T "n ") then Ok (false, ls)
      else ask_skip ls
  end.

Definition with_inputs (ins : list text) (st : ustate) : ustate :=
  UState ins (printed st) (uuids st) (existing_ids st)
    (copied st) (new_users st) (group_users_of st).

(** Lines 93-135 for a name that [info.json] does not describe: [None]
    when the user is skipped, the id entered otherwise.  Every turn of
    the loop reads a line, so [fuel] turns suffice when [fuel] exceeds
    the number of lines left. *)
Fixpoint ask_id (fuel : nat) (name : text) (st : ustate)
  : result (option text * ustate) :=
  match fuel with
  | 0 => Err EOFError
  | S fuel' =>
      do r <-
        match dict_get existing_users name with
        | Some u =>
            do a <- ask_skip (inputs st);
            if fst a
            then Ok (true, say [] (set_group_user name u (with_inputs (snd a) st)))
            else Ok (false, with_inputs (snd a) st)
        | None => Ok (false, st)
        end;
      if fst r then Ok (None, snd r)
      else
        do i <- read (snd r);
        let '(id, st) := i in
        if existsb (text_eqb id) (existing_ids st)
        then ask_id fuel' name (say (T "Error: Already exists") st)
        else match id with
             | [] => ask_id fuel' name st
             | _ => Ok (Some id, st)
             end
  end.

(** Lines 143-146: ask for the avatar until the file exists. *)
Fixpoint ask_avatar (ins : list text) (avatar : text) (out : list text)
  : result (text * list text * list text) :=
  match avatar, exists_file avatar with
  | _ :: _, true => Ok (avatar, ins, out)
  | _, _ =>
      let out := match avatar with
                 | [] => out
                 | _ => (T "Error: file `" ++ avatar ++ T "` not found") :: out
                 end in
      match ins with
      | [] => Err EOFError
      | l :: ls => ask_avatar ls (strip l) out
      end
  end.

(** Lines 154-161: ask for the colour until it is valid or empty. *)
Fixpoint ask_color (ins : list text) (color : text) (out : list text)
  : result (option text * list text * list text) :=
  if validate_color color then Ok (Some color, ins, out)
  else
    let out := match color with
               | [] => out
               | _ => T "The color must be a valid hex code (Eg: #48FF63)" :: out
               end in
    match ins with
    | [] => Err EOFError
    | l :: ls =>
        match lower (strip l) with
        | [] => Ok (None, ls, out)
        | c => ask_color ls c out
        end
    end.

Definition with_io (ins out : list text) (st : ustate) : ustate :=
  UState ins out (uuids st) (existing_ids st)
    (copied st) (new_users st) (group_users_of st).

(** One turn of the loop over the names, lines 86-175. *)
Definition backup_user (name : text) (st : ustate) : result ustate :=
  match match info_users with
        | Some us => dict_get us name
        | None => None
        end with
  | Some i => from_info name i st
  | None =>
      do r <- ask_id (S (length (inputs st))) name st;
      match fst r with
      | None => Ok (snd r)
      | Some id =>
          let st := add_id id (snd r) in
          do a <- ask_avatar (inputs st) [] (printed st);
          let '(avatar, ins, out) := a in
          let st := with_io ins out st in
          let '(target, st) := fresh_target avatar st in
          do st <- copy_avatar avatar target st;
          do c <- ask_color (inputs st) [] (printed st);
          let '(color, ins, out) := c in
          let st := say [] (with_io ins out st) in
          Ok (set_group_user name (Member id target color)
                (set_new_user id (NewUser name target color) st))
      end
  end.

Fixpoint backup_names (names : list text) (st : ustate) : result ustate :=
  match names with
  | [] => Ok st
  | name :: names' =>
      do st <- backup_user name st;
      backup_names names' st
  end.

(** [backup_users(filepath, existing_users, existing_ids)] on the lines
    of the file, with the answers typed in and the set [existing_ids].
    The result holds [new_users], [group_users] and the set as the call
    leaves it. *)
Definition backup_users (lines : list text) (ins : list text) (ids : list text)
  : result ustate :=
  backup_names (set_order (collect_names lines []))
    (UState ins [] 0 ids [] [] []).

End Users.

(* ------------------------------------------------------------------ *)
(** ** The search index: [index_messages] *)

(** A row of a table: its cells by column name; [None] is NULL. *)
Definition row : Type := dict (option text).

Record search_table : Type := SearchTable {
  columns : list text;
  rows : list (list (option text))
}.

Record database : Type := Database {
  messages_table : list row;
  message_search : option search_table
}.

Definition cell (r : row) (col : text) : option text :=
  match dict_get r col with
  | Some v => v
  | None => None
  end.

(** [DROP TABLE IF EXISTS message_search],
    [CREATE VIRTUAL TABLE message_search USING FTS5(cols)] and
    [INSERT INTO message_search SELECT cols FROM messages]. *)
Definition rebuild_index (cols : list text) (db : database) : database :=
  let dropped := Database (messages_table db) None in
  let created := Database (messages_table dropped) (Some (SearchTable cols [])) in
  Database (messages_table created)
    (Some (SearchTable cols
             (map (fun r => map (cell r) cols) (messages_table created)))).

(** [index_messages] of [whatsapp.py] *)
Definition index_messages : database -> database :=
  rebuild_index [T "id"; T "content"].

(** [index_messages] of [matrix-convertor.py] *)
Definition matrix_index_messages : database -> database :=
  rebuild_index [T "id"; T "content"; T "edits"].

(** A text is indexed when it is a cell of the search table. *)
Definition indexed (db : database) (w : text) : bool :=
  match message_search db with
  | Some t => existsb (existsb (fun c => match c with
                                        | Some v => text_eqb v w
                                        | None => false
                                        end)) (rows t)
  | None => false
  end.

(* ------------------------------------------------------------------ *)
(** ** Notions used in the statements *)

(** The words an expression can consume, whatever surrounds them: the
    assertions [\b], [^], [$] and [(?=...)] consume nothing. *)
Fixpoint lang (dotall : bool) (r : regex) (w : text) : Prop :=
  match r with
  | Eps => w = []
  | Str u => w = u
  | One c => exists a, w = [a] /\ cset_mem dotall c a = true
  | Seq r1 r2 => exists w1 w2, w = w1 ++ w2 /\ lang dotall r1 w1 /\ lang dotall r2 w2
  | Alt r1 r2 => lang dotall r1 w \/ lang dotall r2 w
  | Group _ r1 => lang dotall r1 w
  | Star _ c => Forall (fun a => cset_mem dotall c a = true) w
  | WordB | Bol | Eol | Look _ => w = []
  end.

(** [s1] is [s] with the cursor moved over [w]. *)
Definition moved (s : mstate) (w : text) (s1 : mstate) : Prop :=
  rest s = w ++ rest s1 /\ before s1 = rev w ++ before s.

(** How many times a character occurs in a text. *)
Fixpoint occ (c : ascii) (s : text) : nat :=
  match s with
  | [] => 0
  | a :: s' => (if Ascii.eqb a c then 1 else 0) + occ c s'
  end.

(** Texts in which no delimiter can be paired: each of [_], [*] and [~]
    occurs at most once and there are fewer than six backticks. *)
Definition sparse (s : text) : Prop :=
  occ "_"%char s <= 1 /\ occ "*"%char s <= 1 /\ occ "~"%char s <= 1 /\
  occ "`"%char s <= 5.

(** The interior of a span: no backtick, and only characters that the dot
    matches. *)
Definition interior (dotall : bool) (x : text) : Prop :=
  x <> [] /\ Forall (fun a => a <> "`"%char /\ cset_mem dotall CDot a = true) x.

(** Texts without any delimiter character. *)
Definition plain (p : text) : Prop :=
  Forall (fun a => a <> "_"%char /\ a <> "*"%char /\ a <> "~"%char /\
                   a <> "`"%char) p.

(** A non-empty run of characters that are neither delimiters nor
    newlines. *)
Definition inline (x : text) : Prop :=
  x <> [] /\
  Forall (fun a => a <> "_"%char /\ a <> "*"%char /\ a <> "~"%char /\
                   a <> "`"%char /\ a <> NL) x.

(** A message with no attachment list or with a list of one reference. *)
Definition at_most_one_attachment (m : message) : Prop :=
  m_attachments m = None \/ exists a, m_attachments m = Some [a].

Definition is_some {A : Type} (o : option A) : bool :=
  match o with Some _ => true | None => false end.

(** The words an expression can consume between the characters [bef]
    before the cursor (nearest first) and the characters [aft] after the
    word, the assertions being checked against what surrounds them. *)
Fixpoint lang_in (dotall : bool) (r : regex) (bef w aft : text) : Prop :=
  match r with
  | Eps => w = []
  | Str u => w = u
  | One c => exists a, w = [a] /\ cset_mem dotall c a = true
  | Seq r1 r2 =>
      exists w1 w2, w = w1 ++ w2 /\
        lang_in dotall r1 bef w1 (w2 ++ aft) /\
        lang_in dotall r2 (rev w1 ++ bef) w2 aft
  | Alt r1 r2 => lang_in dotall r1 bef w aft \/ lang_in dotall r2 bef w aft
  | Group _ r1 => lang_in dotall r1 bef w aft
  | Star _ c => Forall (fun a => cset_mem dotall c a = true) w
  | WordB => w = [] /\ at_boundary (MState bef aft []) = true
  | Bol => w = [] /\ bef = []
  | Eol => w = [] /\ at_eol (MState bef aft []) = true
  | Look r1 =>
      w = [] /\ exists w1 aft1, aft = w1 ++ aft1 /\ lang_in dotall r1 bef w1 aft1
  end.

(** What may follow the closing delimiter of a span: nothing, or a
    character that is not a word character. *)
Definition breaks (rest : text) : Prop :=
  match rest with
  | [] => True
  | b :: _ => is_word b = false
  end.

(** The tag of the delimiter [d]: [strong] for the star, [del] for the
    tilde. *)
Definition tag_of (d : ascii) : text :=
  if Ascii.eqb d "*"%char then T "strong" else T "del".

(** Every underscore of the text comes after a word character;
    [prev_word] tells whether a word character precedes the text. *)
Fixpoint guarded (prev_word : bool) (q : text) : Prop :=
  match q with
  | [] => True
  | a :: q' => (a = "_"%char -> prev_word = true) /\ guarded (is_word a) q'
  end.

(** An attachment reference of the chat [chat_id]: the chat, a slash and a
    file name without any separator. *)
Definition chat_reference (chat_id a : text) : Prop :=
  exists b, a = chat_id ++ T "/" ++ b /\ existsb is_sep b = false.

(** A sharp sign followed by three or six hexadecimal digits. *)
Definition hex_color (c : text) : bool :=
  match c with
  | a :: h =>
      Ascii.eqb a "#"%char &&
      ((length h =? 3) || (length h =? 6)) && forallb is_hex h
  | [] => false
  end.

(** Two match states at the same cursor, the group [i] of the first
    holding what the group [j] of the second holds. *)
Definition same_cursor (i j : nat) (s s' : mstate) : Prop :=
  before s = before s' /\ rest s = rest s' /\
  get_cap i (caps s) = get_cap j (caps s').

Definition same_outcome (i j : nat) (o o' : option mstate) : Prop :=
  match o, o' with
  | None, None => True
  | Some s, Some s' => same_cursor i j s s'
  | _, _ => False
  end.

(** [regroup i j r r']: [r'] is [r] with the group [i] renumbered [j] and
    all other groups dissolved. *)
Inductive regroup (i j : nat) : regex -> regex -> Prop :=
| rg_eps : regroup i j Eps Eps
| rg_str w : regroup i j (Str w) (Str w)
| rg_one c : regroup i j (One c) (One c)
| rg_seq r1 r2 r1' r2' :
    regroup i j r1 r1' -> regroup i j r2 r2' ->
    regroup i j (Seq r1 r2) (Seq r1' r2')
| rg_alt r1 r2 r1' r2' :
    regroup i j r1 r1' -> regroup i j r2 r2' ->
    regroup i j (Alt r1 r2) (Alt r1' r2')
| rg_star g c : regroup i j (Star g c) (Star g c)
| rg_wordb : regroup i j WordB WordB
| rg_bol : regroup i j Bol Bol
| rg_eol : regroup i j Eol Eol
| rg_look r r' : regroup i j r r' -> regroup i j (Look r) (Look r')
| rg_keep r r' : regroup i j r r' -> regroup i j (Group i r) (Group j r')
| rg_drop n r r' : n <> i -> regroup i j r r' -> regroup i j (Group n r) r'.

(** The format and the formatted content of a message are set together,
    the formatted content being the rendering of a text with markup. *)
Definition format_consistent (msg : message) : Prop :=
  (m_format msg = None /\ m_formatted_content msg = None) \/
  (m_format msg = Some WHATSAPP_MARKDOWN /\
   exists c, has_markup c = true /\ m_formatted_content msg = Some (render c)).

(** Every entry of [new_users] describes the user that [group_users] holds
    under the entry's name. *)
Definition coherent (st : ustate) : Prop :=
  forall id u, dict_get (new_users st) id = Some u ->
    dict_get (group_users_of st) (n_name u)
    = Some (Member id (n_avatar u) (n_color u)).

(** The words an expression can consume together with the groups it
    records: [caps_lang dotall r w cp cp'] when a run over the word [w]
    turns the list of groups [cp] into [cp']. *)
Fixpoint caps_lang (dotall : bool) (r : regex) (w : text)
         (cp cp' : list (nat * text)) : Prop :=
  match r with
  | Eps | WordB | Bol | Eol => w = [] /\ cp' = cp
  | Str u => w = u /\ cp' = cp
  | One c => (exists a, w = [a] /\ cset_mem dotall c a = true) /\ cp' = cp
  | Seq r1 r2 =>
      exists w1 w2 cpm, w = w1 ++ w2 /\
        caps_lang dotall r1 w1 cp cpm /\ caps_lang dotall r2 w2 cpm cp'
  | Alt r1 r2 => caps_lang dotall r1 w cp cp' \/ caps_lang dotall r2 w cp cp'
  | Group n r1 => exists cpm, caps_lang dotall r1 w cp cpm /\ cp' = (n, w) :: cpm
  | Star _ c => Forall (fun a => cset_mem dotall c a = true) w /\ cp' = cp
  | Look r1 => w = [] /\ exists w1, caps_lang dotall r1 w1 cp cp'
  end.

(** One of the three delimiters that are a single character. *)
Definition is_delimiter (d : ascii) : Prop :=
  d = "_"%char \/ d = "*"%char \/ d = "~"%char.

(** Whether an underscore follows on the same line. *)
Fixpoint closes_line (q : text) : bool :=
  match q with
  | [] => false
  | b :: q' =>
      if Ascii.eqb b "_"%char then true
      else if Ascii.eqb b NL then false else closes_line q'
  end.

(** What must follow the opening underscore of an italic span: a character
    other than a newline and, further on the same line, an underscore. *)
Definition italic_follows (v : text) : bool :=
  match v with
  | c :: q => negb (Ascii.eqb c NL) && closes_line q
  | [] => false
  end.

(** Whether the italic expression has a place to match in [v]: an
    underscore that no word character precedes ([prev_word] tells whether
    one precedes [v]) and that [italic_follows] holds after. *)
Fixpoint has_italic_site (prev_word : bool) (v : text) : bool :=
  match v with
  | [] => false
  | a :: v' =>
      (Ascii.eqb a "_"%char && negb prev_word && italic_follows v')
      || has_italic_site (is_word a) v'
  end.

(** What must follow the opening delimiter [d] of a bold or strikethrough
    span: characters other than [d], at least one ([first] is set while
    none was seen), then [d], and then the end of the text or a character
    that is not a word character. *)
Fixpoint closes_span (d : ascii) (first : bool) (q : text) : bool :=
  match q with
  | [] => false
  | b :: q' =>
      if Ascii.eqb b d then negb first && negb (word_at q')
      else closes_span d false q'
  end.

(** Whether the expression of the delimiter [d] has a place to match in
    [v]: a [d] at the start of the text or after a character that is not a
    word character ([prev_ok] tells whether [v] starts so) and that
    [closes_span] holds after. *)
Fixpoint has_span_site (d : ascii) (prev_ok : bool) (v : text) : bool :=
  match v with
  | [] => false
  | a :: v' =>
      (Ascii.eqb a d && prev_ok && closes_span d true v')
      || has_span_site d (negb (is_word a)) v'
  end.

(** The tags that the bold and strikethrough passes write. *)
Definition is_tag (w : text) : Prop :=
  w = T "<strong>" \/ w = T "</strong>" \/ w = T "<del>" \/ w = T "</del>".

(** [tagged d u v]: [v] is [u] with some of its characters [d] turned into
    tags. *)
Inductive tagged (d : ascii) : text -> text -> Prop :=
| tagged_nil : tagged d [] []
| tagged_keep a u v : tagged d u v -> tagged d (a :: u) (a :: v)
| tagged_tag w u v : is_tag w -> tagged d u v -> tagged d (d :: u) (w ++ v).

(* ================================================================== *)
(** * Properties *)

Unset Implicit Arguments.

(** ** Text equality *)

Lemma text_eqb_eq (a b : text) : text_eqb a b = true <-> a = b.
Proof.
  unfold text_eqb. destruct (list_eq_dec ascii_dec a b); split; congruence.
Qed.

Lemma text_eqb_neq (a b : text) : text_eqb a b = false <-> a <> b.
Proof.
  unfold text_eqb. destruct (list_eq_dec ascii_dec a b); split; congruence.
Qed.

Lemma text_eqb_refl (a : text) : text_eqb a a = true.
Proof. apply text_eqb_eq; reflexivity. Qed.

(** ** What a match consumes *)

Lemma strip_prefix_some (w s t : text) :
  strip_prefix w s = Some t -> s = w ++ t.
Proof.
  revert s; induction w as [|c w IH]; intros s H; simpl in H.
  - inversion H; reflexivity.
  - destruct s as [|d s]; [discriminate|].
    destruct (Ascii.eqb c d) eqn:E; [|discriminate].
    apply Ascii.eqb_eq in E; subst d. simpl. f_equal. auto.
Qed.

Lemma strip_prefix_app (w t : text) : strip_prefix w (w ++ t) = Some t.
Proof.
  induction w as [|c w IH]; simpl; [reflexivity|].
  rewrite Ascii.eqb_refl. exact IH.
Qed.

Lemma star_greedy_sound dotall c rst : forall bef cp k res,
  star_greedy dotall c bef rst cp k = Some res ->
  exists w rst', Forall (fun a => cset_mem dotall c a = true) w /\
    rst = w ++ rst' /\ k (MState (rev w ++ bef) rst' cp) = Some res.
Proof.
  induction rst as [|a rst IH]; intros bef cp k res H; simpl in H.
  - exists [], []. auto.
  - destruct (cset_mem dotall c a) eqn:E.
    + destruct (star_greedy dotall c (a :: bef) rst cp k) eqn:G.
      * inversion H; subst. apply IH in G.
        destruct G as (w & rst' & Hw & Hr & Hk).
        exists (a :: w), rst'. split; [constructor; auto|].
        split; [simpl; congruence|].
        simpl. rewrite <- app_assoc. exact Hk.
      * exists [], (a :: rst). auto.
    + exists [], (a :: rst). auto.
Qed.

Lemma star_lazy_sound dotall c rst : forall bef cp k res,
  star_lazy dotall c bef rst cp k = Some res ->
  exists w rst', Forall (fun a => cset_mem dotall c a = true) w /\
    rst = w ++ rst' /\ k (MState (rev w ++ bef) rst' cp) = Some res.
Proof.
  induction rst as [|a rst IH]; intros bef cp k res H; simpl in H.
  - destruct (k (MState bef [] cp)) eqn:K; [|discriminate].
    exists [], []. inversion H; subst. auto.
  - destruct (k (MState bef (a :: rst) cp)) eqn:K.
    + inversion H; subst. exists [], (a :: rst). auto.
    + destruct (cset_mem dotall c a) eqn:E; [|discriminate].
      apply IH in H. destruct H as (w & rst' & Hw & Hr & Hk).
      exists (a :: w), rst'. split; [constructor; auto|].
      split; [simpl; congruence|].
      simpl. rewrite <- app_assoc. exact Hk.
Qed.

(** Soundness of the matcher: a successful run has consumed a word of the
    expression and handed the state after it to its continuation. *)
Lemma run_sound dotall r : forall s k res,
  run dotall r s k = Some res ->
  exists w s1, lang dotall r w /\ moved s w s1 /\ k s1 = Some res.
Proof.
  unfold moved.
  induction r as [|u|c|r1 IH1 r2 IH2|r1 IH1 r2 IH2|n r1 IH1|g c| | | |r1 IH1];
    intros s k res H; simpl in H.
  - exists [], s. simpl. auto.
  - destruct (strip_prefix u (rest s)) eqn:E; [|discriminate].
    apply strip_prefix_some in E.
    eexists u, _. simpl. split; [reflexivity|]. split; [|exact H]. simpl. auto.
  - destruct (rest s) as [|a rst] eqn:E; [discriminate|].
    destruct (cset_mem dotall c a) eqn:M; [|discriminate].
    exists [a], (advance a rst s). simpl. split; [eauto|]. auto.
  - apply IH1 in H. destruct H as (w1 & s1 & L1 & (R1 & B1) & H).
    apply IH2 in H. destruct H as (w2 & s2 & L2 & (R2 & B2) & H).
    exists (w1 ++ w2), s2. simpl. split; [eauto|]. split; [|exact H].
    split.
    + rewrite R1, R2. apply app_assoc.
    + rewrite B2, B1, rev_app_distr. apply app_assoc.
  - destruct (run dotall r1 s k) eqn:E.
    + inversion H; subst. apply IH1 in E.
      destruct E as (w & s1 & L & M & K). exists w, s1. simpl. auto.
    + apply IH2 in H.
      destruct H as (w & s1 & L & M & K). exists w, s1. simpl. auto.
  - apply IH1 in H. destruct H as (w & s1 & L & (R & B) & K).
    exists w, (set_cap n (consumed s s1) s1). simpl. auto.
  - destruct g.
    + apply star_greedy_sound in H. destruct H as (w & rst' & Hw & Hr & Hk).
      eexists w, _. simpl. split; [exact Hw|]. split; [|exact Hk]. simpl. auto.
    + apply star_lazy_sound in H. destruct H as (w & rst' & Hw & Hr & Hk).
      eexists w, _. simpl. split; [exact Hw|]. split; [|exact Hk]. simpl. auto.
  - destruct (at_boundary s); [|discriminate]. exists [], s. simpl; auto.
  - destruct (at_bol s); [|discriminate]. exists [], s. simpl; auto.
  - destruct (at_eol s); [|discriminate]. exists [], s. simpl; auto.
  - destruct (run dotall r1 s Some) eqn:E; [|discriminate].
    eexists [], _. simpl. split; [reflexivity|]. split; [|exact H]. simpl; auto.
Qed.

Lemma consumed_moved (s s1 : mstate) (w : text) :
  moved s w s1 -> consumed s s1 = w.
Proof.
  intros [R _]. unfold consumed. rewrite R, length_app.
  replace (length w + length (rest s1) - length (rest s1)) with (length w) by lia.
  rewrite firstn_app, firstn_all, Nat.sub_diag. simpl. apply app_nil_r.
Qed.

(** A match at a cursor consumes a word of the expression that starts the
    text after the cursor. *)
Lemma match_at_sound dotall r bef rst m :
  match_at dotall r bef rst = Some m ->
  exists rst', rst = group0 m ++ rst' /\ lang dotall r (group0 m).
Proof.
  unfold match_at. intros H.
  destruct (run dotall r (MState bef rst []) Some) as [s1|] eqn:E; [|discriminate].
  inversion H; subst; clear H. simpl.
  apply run_sound in E. destruct E as (w & s2 & L & M & K).
  inversion K; subst s2.
  rewrite (consumed_moved _ _ _ M). destruct M as [R _]. simpl in R.
  exists (rest s1). auto.
Qed.

(** ** Substitution where nothing matches *)

Lemma occ_app (c : ascii) (s t : text) : occ c (s ++ t) = occ c s + occ c t.
Proof. induction s as [|a s IH]; simpl; [reflexivity|]. rewrite IH; lia. Qed.

Lemma occ_rev (c : ascii) (s : text) : occ c (rev s) = occ c s.
Proof.
  induction s as [|a s IH]; simpl; [reflexivity|].
  rewrite occ_app, IH. simpl. lia.
Qed.

Lemma occ_zero_forall (c : ascii) (s : text) :
  occ c s = 0 <-> Forall (fun a => a <> c) s.
Proof.
  induction s as [|a s IH]; simpl.
  - split; auto.
  - destruct (Ascii.eqb a c) eqn:E.
    + split; [discriminate|]. intros F. inversion F; subst.
      apply Ascii.eqb_eq in E. contradiction.
    + apply Ascii.eqb_neq in E. simpl. rewrite IH.
      split; [intros; constructor; auto|]. intros F; inversion F; auto.
Qed.

Lemma sub_loop_id dotall r repl (P : text -> Prop) :
  (forall a q, P (a :: q) -> P q) ->
  (forall bef q, P q -> match_at dotall r bef q = None) ->
  forall rst bef, P rst -> sub_loop dotall r repl bef rst 0 = rst.
Proof.
  intros Htl Hno. induction rst as [|a rst IH]; intros bef HP; simpl.
  - rewrite Hno by exact HP. reflexivity.
  - rewrite Hno by exact HP. f_equal. apply IH. eapply Htl; eauto.
Qed.

Lemma sparse_tail (a : ascii) (q : text) : sparse (a :: q) -> sparse q.
Proof. unfold sparse; simpl. intros (H1 & H2 & H3 & H4). repeat split; lia. Qed.

Ltac lang_inv :=
  repeat match goal with
         | H : exists _, _ |- _ => destruct H
         | H : _ /\ _ |- _ => destruct H
         | H : _ \/ _ |- _ => destruct H
         end; subst.

Lemma italic_needs w :
  lang false italic_re w -> 2 <= occ "_"%char w \/ 6 <= occ "`"%char w.
Proof.
  unfold italic_re, Plus, BT3. simpl. intros H. lang_inv.
  - right. repeat rewrite occ_app. simpl. lia.
  - left. repeat rewrite occ_app. simpl. lia.
Qed.

Lemma boundary_needs d w :
  lang false (boundary_re d) w -> 2 <= occ d w \/ 6 <= occ "`"%char w.
Proof.
  unfold boundary_re, Plus, BT3. simpl. intros H. lang_inv.
  - right. repeat rewrite occ_app. simpl. lia.
  - left. repeat rewrite occ_app. simpl. rewrite Ascii.eqb_refl. lia.
  - left. repeat rewrite occ_app. simpl. rewrite Ascii.eqb_refl. lia.
Qed.

Lemma mono_needs dotall w :
  lang dotall mono_re w -> 6 <= occ "`"%char w.
Proof.
  unfold mono_re, Plus, BT3. simpl. intros H. lang_inv.
  repeat rewrite occ_app. simpl. lia.
Qed.

Lemma italic_no_match bef q : sparse q -> match_at false italic_re bef q = None.
Proof.
  intros (H1 & _ & _ & H4).
  destruct (match_at false italic_re bef q) as [m|] eqn:E; [|reflexivity].
  apply match_at_sound in E. destruct E as (q' & -> & L).
  apply italic_needs in L. rewrite occ_app in H1, H4. lia.
Qed.

Lemma bold_no_match bef q : sparse q -> match_at false bold_re bef q = None.
Proof.
  intros (_ & H2 & _ & H4).
  destruct (match_at false bold_re bef q) as [m|] eqn:E; [|reflexivity].
  apply match_at_sound in E. destruct E as (q' & -> & L).
  apply boundary_needs in L. rewrite occ_app in H2, H4. lia.
Qed.

Lemma strike_no_match bef q : sparse q -> match_at false strike_re bef q = None.
Proof.
  intros (_ & _ & H3 & H4).
  destruct (match_at false strike_re bef q) as [m|] eqn:E; [|reflexivity].
  apply match_at_sound in E. destruct E as (q' & -> & L).
  apply boundary_needs in L. rewrite occ_app in H3, H4. lia.
Qed.

Lemma mono_no_match bef q : occ "`"%char q <= 5 -> match_at true mono_re bef q = None.
Proof.
  intros H4.
  destruct (match_at true mono_re bef q) as [m|] eqn:E; [|reflexivity].
  apply match_at_sound in E. destruct E as (q' & -> & L).
  apply mono_needs in L. rewrite occ_app in H4. lia.
Qed.

Lemma italic_pass_sparse s : sparse s -> italic_pass s = s.
Proof.
  intros H. unfold italic_pass, re_sub.
  apply sub_loop_id with (P := sparse);
    [exact sparse_tail | intros; apply italic_no_match; assumption | exact H].
Qed.

Lemma bold_pass_sparse s : sparse s -> bold_pass s = s.
Proof.
  intros H. unfold bold_pass, re_sub.
  apply sub_loop_id with (P := sparse);
    [exact sparse_tail | intros; apply bold_no_match; assumption | exact H].
Qed.

Lemma strike_pass_sparse s : sparse s -> strike_pass s = s.
Proof.
  intros H. unfold strike_pass, re_sub.
  apply sub_loop_id with (P := sparse);
    [exact sparse_tail | intros; apply strike_no_match; assumption | exact H].
Qed.

Lemma mono_pass_few s : occ "`"%char s <= 5 -> mono_pass s = s.
Proof.
  intros H. unfold mono_pass, re_sub.
  apply sub_loop_id with (P := fun q => occ "`"%char q <= 5); auto.
  - intros a q. simpl. lia.
  - intros bef q. apply mono_no_match.
Qed.

(** Detection leaves a sparse text as it is. *)
Lemma detect_sparse s : sparse s -> parse_markdown s true = s.
Proof.
  intros H. unfold parse_markdown.
  rewrite (italic_pass_sparse _ H), (bold_pass_sparse _ H), (strike_pass_sparse _ H).
  apply mono_pass_few. apply H.
Qed.

Lemma occ_flat_map (c : ascii) (f : ascii -> text) (s : text) :
  (forall a, occ c (f a) = occ c [a]) -> occ c (flat_map f s) = occ c s.
Proof.
  intros Hf. induction s as [|a s IH]; simpl; [reflexivity|].
  rewrite occ_app, IH, Hf. simpl. lia.
Qed.

Ltac escape_cases a :=
  let E1 := fresh "E" in
  let E2 := fresh "E" in
  let E3 := fresh "E" in
  unfold escape_char;
  destruct (Ascii.eqb a "&") eqn:E1;
    [apply Ascii.eqb_eq in E1; subst a; reflexivity|];
  destruct (Ascii.eqb a "<") eqn:E2;
    [apply Ascii.eqb_eq in E2; subst a; reflexivity|];
  destruct (Ascii.eqb a ">") eqn:E3;
    [apply Ascii.eqb_eq in E3; subst a; reflexivity|];
  reflexivity.

Lemma sparse_html_escape s : sparse s -> sparse (html_escape s).
Proof.
  unfold sparse, html_escape. intros H.
  rewrite !occ_flat_map; [exact H | | | |]; intros a; escape_cases a.
Qed.

(** Rendering a sparse text only escapes it and marks its line breaks. *)
Lemma render_sparse s : sparse s -> parse_markdown s false = nl2br (html_escape s).
Proof.
  intros H. apply sparse_html_escape in H. unfold parse_markdown.
  rewrite (italic_pass_sparse _ H), (bold_pass_sparse _ H), (strike_pass_sparse _ H).
  rewrite mono_pass_few by apply H. reflexivity.
Qed.

(** ** Running the matcher over a delimited span *)

Lemma consumed_prefix b w r c b' c' :
  consumed (MState b (w ++ r) c) (MState b' r c') = w.
Proof.
  unfold consumed; simpl. rewrite length_app.
  replace (length w + length r - length r) with (length w) by lia.
  rewrite firstn_app, firstn_all, Nat.sub_diag. simpl. apply app_nil_r.
Qed.

(** A lazy repetition walks over [w] when its continuation fails at every
    cursor inside [w] and succeeds after it. *)
Lemma star_lazy_run dotall c w : forall bef rst cp k res,
  Forall (fun a => cset_mem dotall c a = true) w ->
  (forall p a q, w = p ++ a :: q ->
     k (MState (rev p ++ bef) (a :: q ++ rst) cp) = None) ->
  k (MState (rev w ++ bef) rst cp) = Some res ->
  star_lazy dotall c bef (w ++ rst) cp k = Some res.
Proof.
  induction w as [|a w IH]; intros bef rst cp k res Hall Hfail Hend.
  - simpl in *. destruct rst; simpl; rewrite Hend; reflexivity.
  - pose proof (Hfail [] a w eq_refl) as H0. simpl in H0.
    simpl. rewrite H0.
    inversion Hall as [|? ? Ha Hall']; subst. rewrite Ha.
    apply IH; auto.
    + intros p b q E. specialize (Hfail (a :: p) b q). simpl in Hfail.
      rewrite <- app_assoc in Hfail. apply Hfail. rewrite E; reflexivity.
    + simpl in Hend. rewrite <- app_assoc in Hend. exact Hend.
Qed.

(** The group [(.+?)] followed by a closing delimiter whose first character
    does not occur in [x]. *)
Lemma lazy_group_run dotall n x d close bef rst cp k res :
  x <> [] ->
  Forall (fun a => a <> d /\ cset_mem dotall CDot a = true) x ->
  k (MState (rev (d :: close) ++ rev x ++ bef) rst ((n, x) :: cp)) = Some res ->
  run dotall (Seq (Group n (Plus false CDot)) (Str (d :: close)))
      (MState bef (x ++ (d :: close) ++ rst) cp) k = Some res.
Proof.
  intros Hne Hall Hk. destruct x as [|c x]; [congruence|].
  inversion Hall as [|? ? [Hc Hm] Hall']; subst.
  cbn [run Plus rest before caps app]. rewrite Hm.
  cbn [advance rest before caps].
  apply star_lazy_run.
  - eapply Forall_impl; [|exact Hall']. intros a [_ H]; exact H.
  - intros p a q E. cbn [rest before caps set_cap run strip_prefix].
    assert (Ha : a <> d).
    { rewrite E in Hall'. apply Forall_app in Hall'. destruct Hall' as [_ F].
      inversion F as [|? ? [H _] _]; exact H. }
    apply Ascii.eqb_neq in Ha. rewrite Ascii.eqb_sym, Ha. reflexivity.
  - cbn [rest before caps set_cap run].
    change (d :: close ++ rst) with ((d :: close) ++ rst).
    rewrite strip_prefix_app.
    rewrite (consumed_prefix bef (c :: x) ((d :: close) ++ rst) cp).
    cbn [rest before caps].
    replace (rev x ++ c :: bef) with (rev (c :: x) ++ bef)
      by (simpl; rewrite <- app_assoc; reflexivity).
    exact Hk.
Qed.

Lemma sub_loop_zero dotall r repl bef rst :
  sub_loop dotall r repl bef rst 0 =
  match match_at dotall r bef rst with
  | Some m =>
      repl m ++
      match rst with
      | a :: rst' =>
          match length (group0 m) with
          | 0 => a :: sub_loop dotall r repl (a :: bef) rst' 0
          | S n => sub_loop dotall r repl (a :: bef) rst' n
          end
      | [] => []
      end
  | None =>
      match rst with
      | a :: rst' => a :: sub_loop dotall r repl (a :: bef) rst' 0
      | [] => []
      end
  end.
Proof. destruct rst; reflexivity. Qed.

Lemma sub_loop_skip dotall r repl w : forall bef rst,
  sub_loop dotall r repl bef (w ++ rst) (length w) =
  sub_loop dotall r repl (rev w ++ bef) rst 0.
Proof.
  induction w as [|a w IH]; intros bef rst.
  - reflexivity.
  - simpl. rewrite IH, <- app_assoc. reflexivity.
Qed.

(** A match over the non-empty word [w] is replaced, and the search goes on
    after it. *)
Lemma sub_loop_match dotall r repl bef w rst m :
  match_at dotall r bef (w ++ rst) = Some m -> group0 m = w -> w <> [] ->
  sub_loop dotall r repl bef (w ++ rst) 0 =
  repl m ++ sub_loop dotall r repl (rev w ++ bef) rst 0.
Proof.
  intros Hm Hg Hne. rewrite sub_loop_zero, Hm, Hg.
  destruct w as [|a w]; [congruence|]. simpl. f_equal.
  rewrite sub_loop_skip, <- app_assoc. reflexivity.
Qed.

Lemma sub_loop_pass dotall r repl bef a rst :
  match_at dotall r bef (a :: rst) = None ->
  sub_loop dotall r repl bef (a :: rst) 0 =
  a :: sub_loop dotall r repl (a :: bef) rst 0.
Proof. intros H. rewrite sub_loop_zero, H. reflexivity. Qed.

Lemma sub_loop_end dotall r repl bef :
  match_at dotall r bef [] = None -> sub_loop dotall r repl bef [] 0 = [].
Proof. intros H. rewrite sub_loop_zero, H. reflexivity. Qed.

Lemma mono_span_run dotall n x bef rst cp k res :
  interior dotall x ->
  k (MState (rev (BT3 ++ x ++ BT3) ++ bef) rst ((n, x) :: cp)) = Some res ->
  run dotall (seqs [Str BT3; Group n (Plus false CDot); Str BT3])
      (MState bef (BT3 ++ x ++ BT3 ++ rst) cp) k = Some res.
Proof.
  intros [Hne Hall] Hk. cbn [seqs run rest before caps].
  rewrite strip_prefix_app.
  change BT3 with ("`"%char :: T "``") at 2 3.
  apply lazy_group_run; auto.
  rewrite !rev_app_distr in Hk. rewrite <- !app_assoc in Hk. exact Hk.
Qed.

Lemma italic_match_span x bef rst :
  interior false x ->
  match_at false italic_re bef (BT3 ++ x ++ BT3 ++ rst) =
  Some (RMatch (BT3 ++ x ++ BT3) [(1, x)]).
Proof.
  intros Hx. unfold match_at, italic_re. cbn [run].
  erewrite mono_span_run; [|exact Hx|reflexivity].
  replace (BT3 ++ x ++ BT3 ++ rst) with ((BT3 ++ x ++ BT3) ++ rst)
    by (rewrite <- !app_assoc; reflexivity).
  rewrite consumed_prefix. reflexivity.
Qed.

Lemma boundary_match_span d x bef rst :
  interior false x ->
  match_at false (boundary_re d) bef (BT3 ++ x ++ BT3 ++ rst) =
  Some (RMatch (BT3 ++ x ++ BT3) [(1, BT3 ++ x ++ BT3); (2, x)]).
Proof.
  intros Hx. unfold match_at, boundary_re. cbn [run].
  erewrite mono_span_run; [|exact Hx|reflexivity].
  replace (BT3 ++ x ++ BT3 ++ rst) with ((BT3 ++ x ++ BT3) ++ rst)
    by (rewrite <- !app_assoc; reflexivity).
  unfold set_cap. cbn [rest before caps].
  rewrite !consumed_prefix. reflexivity.
Qed.

Lemma mono_match_span x bef rst :
  interior true x ->
  match_at true mono_re bef (BT3 ++ x ++ BT3 ++ rst) =
  Some (RMatch (BT3 ++ x ++ BT3) [(1, x)]).
Proof.
  intros Hx. unfold match_at, mono_re.
  erewrite mono_span_run; [|exact Hx|reflexivity].
  replace (BT3 ++ x ++ BT3 ++ rst) with ((BT3 ++ x ++ BT3) ++ rst)
    by (rewrite <- !app_assoc; reflexivity).
  rewrite consumed_prefix. reflexivity.
Qed.

Lemma sub_whole dotall r repl w m :
  match_at dotall r [] w = Some m -> group0 m = w -> w <> [] ->
  (forall bef, match_at dotall r bef [] = None) ->
  re_sub dotall r repl w = repl m.
Proof.
  intros Hm Hg Hne Hend. unfold re_sub.
  rewrite <- (app_nil_r w) at 1.
  rewrite (sub_loop_match dotall r repl [] w [] m); auto.
  - rewrite sub_loop_end by apply Hend. apply app_nil_r.
  - rewrite app_nil_r. exact Hm.
Qed.

Lemma sparse_nil : sparse [].
Proof. unfold sparse; simpl; lia. Qed.

Lemma span_not_nil x : BT3 ++ x ++ BT3 <> [].
Proof. discriminate. Qed.

Lemma interior_dotall x : interior false x -> interior true x.
Proof.
  intros [Hne Hall]. split; [exact Hne|].
  eapply Forall_impl; [|exact Hall]. intros a [H _]. split; [exact H|reflexivity].
Qed.

Lemma italic_pass_span x :
  interior false x -> italic_pass (BT3 ++ x ++ BT3) = BT3 ++ x ++ BT3.
Proof.
  intros Hx. unfold italic_pass.
  pose proof (italic_match_span x [] [] Hx) as Hm. rewrite app_nil_r in Hm.
  rewrite (sub_whole _ _ italic_repl _ _ Hm); auto using span_not_nil.
  intros bef. apply italic_no_match, sparse_nil.
Qed.

Lemma boundary_pass_span d tag x :
  (forall bef, match_at false (boundary_re d) bef [] = None) ->
  interior false x ->
  re_sub false (boundary_re d) (boundary_repl tag) (BT3 ++ x ++ BT3) =
  BT3 ++ x ++ BT3.
Proof.
  intros Hend Hx.
  pose proof (boundary_match_span d x [] [] Hx) as Hm. rewrite app_nil_r in Hm.
  rewrite (sub_whole _ _ (boundary_repl tag) _ _ Hm); auto using span_not_nil.
Qed.

Lemma mono_pass_span x :
  interior true x -> mono_pass (BT3 ++ x ++ BT3) = T "<pre>" ++ x ++ T "</pre>".
Proof.
  intros Hx. unfold mono_pass.
  pose proof (mono_match_span x [] [] Hx) as Hm. rewrite app_nil_r in Hm.
  rewrite (sub_whole _ _ mono_repl _ _ Hm); auto using span_not_nil.
Qed.

(** A text that is one monospace span on one line goes through the italic,
    bold and strikethrough passes unchanged. *)
Lemma detect_span x :
  interior false x ->
  parse_markdown (BT3 ++ x ++ BT3) true = T "<pre>" ++ x ++ T "</pre>".
Proof.
  intros Hx. unfold parse_markdown.
  rewrite (italic_pass_span _ Hx).
  unfold bold_pass, bold_re. rewrite boundary_pass_span; auto.
  - unfold strike_pass, strike_re. rewrite boundary_pass_span; auto.
    + apply mono_pass_span, interior_dotall, Hx.
    + intros bef. apply strike_no_match, sparse_nil.
  - intros bef. apply bold_no_match, sparse_nil.
Qed.

(** ** A span after plain text *)

Lemma sub_loop_prefix dotall r repl p : forall bef rst,
  (forall p1 a p2, p = p1 ++ a :: p2 ->
     match_at dotall r (rev p1 ++ bef) (a :: p2 ++ rst) = None) ->
  sub_loop dotall r repl bef (p ++ rst) 0 =
  p ++ sub_loop dotall r repl (rev p ++ bef) rst 0.
Proof.
  induction p as [|a p IH]; intros bef rst H.
  - reflexivity.
  - simpl app. rewrite sub_loop_pass by apply (H [] a p eq_refl).
    f_equal. rewrite IH.
    + simpl. rewrite <- app_assoc. reflexivity.
    + intros p1 b p2 E. specialize (H (a :: p1) b p2). simpl in H.
      rewrite <- app_assoc in H. apply H. rewrite E. reflexivity.
Qed.

Lemma italic_starts w :
  lang false italic_re w ->
  exists w', w = "`"%char :: w' \/ w = "_"%char :: w'.
Proof.
  unfold italic_re, Plus, BT3. simpl. intros H. lang_inv; simpl; eauto.
Qed.

Lemma boundary_starts d w :
  lang false (boundary_re d) w ->
  exists w', w = "`"%char :: w' \/ w = d :: w' \/ exists c, w = c :: d :: w'.
Proof.
  unfold boundary_re, Plus, BT3. simpl. intros H. lang_inv; simpl; eauto.
Qed.

Lemma mono_starts dotall w :
  lang dotall mono_re w -> exists w', w = "`"%char :: w'.
Proof.
  unfold mono_re, Plus, BT3. simpl. intros H. lang_inv; simpl; eauto.
Qed.

Lemma italic_no_match_plain bef a q :
  a <> "_"%char -> a <> "`"%char -> match_at false italic_re bef (a :: q) = None.
Proof.
  intros H1 H2.
  destruct (match_at false italic_re bef (a :: q)) as [m|] eqn:E; [|reflexivity].
  apply match_at_sound in E. destruct E as (q' & E & L).
  apply italic_starts in L. destruct L as (w' & [L|L]); rewrite L in E;
    inversion E; congruence.
Qed.

Lemma boundary_no_match_plain d bef a b q :
  a <> d -> a <> "`"%char -> b <> d ->
  match_at false (boundary_re d) bef (a :: b :: q) = None.
Proof.
  intros H1 H2 H3.
  destruct (match_at false (boundary_re d) bef (a :: b :: q)) as [m|] eqn:E;
    [|reflexivity].
  apply match_at_sound in E. destruct E as (q' & E & L).
  apply boundary_starts in L. destruct L as (w' & [L|[L|[c L]]]); rewrite L in E;
    inversion E; congruence.
Qed.

Lemma mono_no_match_plain bef a q :
  a <> "`"%char -> match_at true mono_re bef (a :: q) = None.
Proof.
  intros H.
  destruct (match_at true mono_re bef (a :: q)) as [m|] eqn:E; [|reflexivity].
  apply match_at_sound in E. destruct E as (q' & E & L).
  apply mono_starts in L. destruct L as (w' & L); rewrite L in E;
    inversion E; congruence.
Qed.

Lemma plain_split p p1 a p2 :
  plain p -> p = p1 ++ a :: p2 ->
  (a <> "_"%char /\ a <> "*"%char /\ a <> "~"%char /\ a <> "`"%char) /\ plain p2.
Proof.
  unfold plain. intros H E. rewrite E in H. apply Forall_app in H.
  destruct H as [_ H]. inversion H; auto.
Qed.

(** The italic pass on plain text followed by a span: text and span are
    kept, whatever follows. *)
Lemma italic_pass_context p x q :
  plain p -> interior false x ->
  exists q', italic_pass (p ++ BT3 ++ x ++ BT3 ++ q) = p ++ BT3 ++ x ++ BT3 ++ q'.
Proof.
  intros Hp Hx. unfold italic_pass, re_sub.
  rewrite sub_loop_prefix.
  - replace (BT3 ++ x ++ BT3 ++ q) with ((BT3 ++ x ++ BT3) ++ q)
      by (rewrite <- !app_assoc; reflexivity).
    erewrite sub_loop_match;
      [ | rewrite <- !app_assoc; apply italic_match_span; exact Hx
        | reflexivity | apply span_not_nil ].
    eexists.
    change (italic_repl (RMatch (BT3 ++ x ++ BT3) [(1, x)])) with (BT3 ++ x ++ BT3).
    rewrite <- !app_assoc. reflexivity.
  - intros p1 a p2 E. destruct (plain_split _ _ _ _ Hp E) as [(H1 & _ & _ & H4) _].
    apply italic_no_match_plain; assumption.
Qed.

Lemma boundary_pass_context d tag p x q :
  d <> "`"%char -> Forall (fun a => a <> d /\ a <> "`"%char) p ->
  interior false x ->
  exists q',
    re_sub false (boundary_re d) (boundary_repl tag) (p ++ BT3 ++ x ++ BT3 ++ q) =
    p ++ BT3 ++ x ++ BT3 ++ q'.
Proof.
  intros Hd Hp Hx. unfold re_sub.
  rewrite sub_loop_prefix.
  - replace (BT3 ++ x ++ BT3 ++ q) with ((BT3 ++ x ++ BT3) ++ q)
      by (rewrite <- !app_assoc; reflexivity).
    erewrite sub_loop_match;
      [ | rewrite <- !app_assoc; apply boundary_match_span; exact Hx
        | reflexivity | apply span_not_nil ].
    eexists.
    change (boundary_repl tag
              (RMatch (BT3 ++ x ++ BT3) [(1, BT3 ++ x ++ BT3); (2, x)]))
      with (BT3 ++ x ++ BT3).
    rewrite <- !app_assoc. reflexivity.
  - intros p1 a p2 E. rewrite E in Hp. apply Forall_app in Hp.
    destruct Hp as [_ Hp]. inversion Hp as [|? ? [Ha1 Ha2] Hp2]; subst.
    destruct p2 as [|b p2].
    + simpl. apply boundary_no_match_plain; auto.
    + inversion Hp2 as [|? ? [Hb _] _]; subst.
      simpl. apply boundary_no_match_plain; auto.
Qed.

Lemma mono_pass_context p x q :
  Forall (fun a => a <> "`"%char) p -> interior true x ->
  exists q',
    mono_pass (p ++ BT3 ++ x ++ BT3 ++ q) = p ++ T "<pre>" ++ x ++ T "</pre>" ++ q'.
Proof.
  intros Hp Hx. unfold mono_pass, re_sub.
  rewrite sub_loop_prefix.
  - replace (BT3 ++ x ++ BT3 ++ q) with ((BT3 ++ x ++ BT3) ++ q)
      by (rewrite <- !app_assoc; reflexivity).
    erewrite sub_loop_match;
      [ | rewrite <- !app_assoc; apply mono_match_span; exact Hx
        | reflexivity | apply span_not_nil ].
    eexists.
    change (mono_repl (RMatch (BT3 ++ x ++ BT3) [(1, x)]))
      with (T "<pre>" ++ x ++ T "</pre>").
    rewrite <- !app_assoc. reflexivity.
  - intros p1 a p2 E. rewrite E in Hp. apply Forall_app in Hp.
    destruct Hp as [_ Hp]. inversion Hp; subst.
    apply mono_no_match_plain; auto.
Qed.

(** Detection on plain text followed by a one-line span: the interior of
    the span comes out between the [pre] tags as it was, whatever follows. *)
Lemma detect_context p x q :
  plain p -> interior false x ->
  exists q',
    parse_markdown (p ++ BT3 ++ x ++ BT3 ++ q) true =
    p ++ T "<pre>" ++ x ++ T "</pre>" ++ q'.
Proof.
  intros Hp Hx. unfold parse_markdown.
  destruct (italic_pass_context p x q Hp Hx) as [q1 ->].
  assert (Hb : forall d, d = "*"%char \/ d = "~"%char ->
                         Forall (fun a => a <> d /\ a <> "`"%char) p).
  { intros d Hd. eapply Forall_impl; [|exact Hp].
    intros a (H1 & H2 & H3 & H4). destruct Hd; subst; auto. }
  unfold bold_pass, bold_re.
  destruct (boundary_pass_context "*" (T "strong") p x q1) as [q2 ->];
    [discriminate | auto | exact Hx |].
  unfold strike_pass, strike_re.
  destruct (boundary_pass_context "~" (T "del") p x q2) as [q3 ->];
    [discriminate | auto | exact Hx |].
  apply mono_pass_context.
  - eapply Forall_impl; [|exact Hp]. intros a (_ & _ & _ & H); exact H.
  - apply interior_dotall, Hx.
Qed.

(** ** An italic span after a backslash *)

Lemma inline_occ x (c : ascii) :
  inline x ->
  c = "_"%char \/ c = "*"%char \/ c = "~"%char \/ c = "`"%char \/ c = NL ->
  occ c x = 0.
Proof.
  intros [_ H] Hc. apply occ_zero_forall.
  eapply Forall_impl; [|exact H].
  intros a (H1 & H2 & H3 & H4 & H5).
  destruct Hc as [->|[->|[->|[->| ->]]]]; assumption.
Qed.

Lemma run_Seq dotall r1 r2 s k :
  run dotall (Seq r1 r2) s k = run dotall r1 s (fun s1 => run dotall r2 s1 k).
Proof. reflexivity. Qed.

Lemma run_Alt_right dotall r1 r2 s k :
  run dotall r1 s k = None -> run dotall (Alt r1 r2) s k = run dotall r2 s k.
Proof. intros H. simpl. rewrite H. reflexivity. Qed.

Lemma run_WordB dotall s k :
  at_boundary s = true -> run dotall WordB s k = k s.
Proof. intros H. simpl. rewrite H. reflexivity. Qed.

Lemma run_Str dotall w s k r' :
  strip_prefix w (rest s) = Some r' ->
  run dotall (Str w) s k = k (MState (rev w ++ before s) r' (caps s)).
Proof. intros H. simpl. rewrite H. reflexivity. Qed.

(** The second alternative of the italic pattern on [_x_]. *)
Lemma italic_alt_run x bef rst cp k res :
  inline x -> word_at bef = false ->
  k (MState ("_"%char :: rev x ++ "_"%char :: bef) rst ((2, x) :: cp)) = Some res ->
  run false (seqs [WordB; Str (T "_"); Group 2 (Plus false CDot); Str (T "_")])
      (MState bef ("_"%char :: x ++ "_"%char :: rst) cp) k = Some res.
Proof.
  intros [Hne Hall] Hb Hk.
  change (seqs [WordB; Str (T "_"); Group 2 (Plus false CDot); Str (T "_")])
    with (Seq WordB (Seq (Str ["_"%char])
                         (Seq (Group 2 (Plus false CDot)) (Str ["_"%char])))).
  rewrite run_Seq, run_WordB
    by (unfold at_boundary; simpl; rewrite Hb; reflexivity).
  rewrite run_Seq.
  rewrite (run_Str false ["_"%char] _ _ (x ++ "_"%char :: rst)) by reflexivity.
  cbn [rev app before caps].
  change ("_"%char :: rst) with (["_"%char] ++ rst).
  apply lazy_group_run.
  - exact Hne.
  - eapply Forall_impl; [|exact Hall].
    intros a (H1 & _ & _ & _ & H5). split; [exact H1|].
    simpl. apply Ascii.eqb_neq in H5. rewrite H5. reflexivity.
  - simpl. exact Hk.
Qed.

Lemma italic_match_em x bef rst :
  inline x -> word_at bef = false ->
  match_at false italic_re bef ("_"%char :: x ++ "_"%char :: rst) =
  Some (RMatch ("_"%char :: x ++ ["_"%char]) [(2, x)]).
Proof.
  intros Hx Hb. unfold match_at, italic_re.
  rewrite run_Alt_right by reflexivity.
  erewrite italic_alt_run; [ | exact Hx | exact Hb | reflexivity].
  replace ("_"%char :: x ++ "_"%char :: rst)
    with (("_"%char :: x ++ ["_"%char]) ++ rst)
    by (simpl; rewrite <- app_assoc; reflexivity).
  rewrite consumed_prefix. reflexivity.
Qed.

Lemma italic_pass_escaped x :
  inline x ->
  italic_pass ("\"%char :: "_"%char :: x ++ ["_"%char]) =
  "\"%char :: T "<em>" ++ x ++ T "</em>".
Proof.
  intros Hx. unfold italic_pass, re_sub.
  rewrite sub_loop_pass by (apply italic_no_match_plain; discriminate).
  f_equal.
  rewrite <- (app_nil_r ("_"%char :: x ++ ["_"%char])).
  erewrite sub_loop_match;
    [ | rewrite app_nil_r; apply (italic_match_em x ["\"%char] [] Hx); reflexivity
      | reflexivity | discriminate ].
  rewrite sub_loop_end by (apply italic_no_match, sparse_nil).
  rewrite app_nil_r. destruct Hx as [Hne _].
  destruct x as [|c x]; [congruence|]. reflexivity.
Qed.

Lemma sparse_em x : inline x -> sparse ("\"%char :: T "<em>" ++ x ++ T "</em>").
Proof.
  intros Hx. unfold sparse. simpl. rewrite !occ_app.
  rewrite !(inline_occ x) by auto 6. simpl. lia.
Qed.

(** A backslash before the opening underscore does not keep the italic pass
    from taking the span. *)
Lemma detect_escaped x :
  inline x ->
  parse_markdown ("\"%char :: "_"%char :: x ++ ["_"%char]) true =
  "\"%char :: T "<em>" ++ x ++ T "</em>".
Proof.
  intros Hx. unfold parse_markdown. rewrite (italic_pass_escaped x Hx).
  pose proof (sparse_em x Hx) as Hs.
  rewrite (bold_pass_sparse _ Hs), (strike_pass_sparse _ Hs).
  apply mono_pass_few. apply Hs.
Qed.

(* ------------------------------------------------------------------ *)
(** ** The markup formatter: detection is not idempotent *)

(** Claim C2, as stated, fails: detection finds markup again in the
    detection-mode rendering of [_a__b_], which is [<em>a</em>_b_]; so it
    does with four stars, and with a monospace span that has an italic span
    inside. *)
Lemma C2_render_detect_not_fixed :
  render_detect (T "_a__b_") = T "<em>a</em>_b_" /\
  render_detect (render_detect (T "_a__b_")) = T "<em>a</em><em>b</em>" /\
  has_markup (render_detect (T "_a__b_")) = true /\
  render_detect (T "*a**b*") = T "<strong>a</strong>*b*" /\
  has_markup (render_detect (T "*a**b*")) = true /\
  render_detect (T "``` _a_ ```") = T "<pre> _a_ </pre>" /\
  has_markup (render_detect (T "``` _a_ ```")) = true.
Proof. vm_compute. repeat split; reflexivity. Qed.

(* ------------------------------------------------------------------ *)
(** ** The markup formatter: monospace spans *)

(** Claim C3 does not hold of the code: an italic span that opens before a
    monospace span closes inside it, on one line; and inside a monospace
    span of two lines the italic pass substitutes, the alternative that is
    to protect the span being run without the flag that lets the dot match
    a newline. *)
Lemma C3_italic_enters_span :
  italic_pass (T "_a ```b_ c```") = T "<em>a ```b</em> c```" /\
  render_detect (T "_a ```b_ c```") = T "<em>a <pre>b</em> c</pre>" /\
  italic_pass (T "```a" ++ NL :: T "_b_```")
  = T "```a" ++ NL :: T "<em>b</em>```" /\
  render_detect (T "```a" ++ NL :: T "_b_```")
  = T "<pre>a" ++ NL :: T "<em>b</em></pre>".
Proof. vm_compute. repeat split; reflexivity. Qed.

(** Where the protection works: when a monospace span with a non-empty
    interior, on one line and without backticks, comes after text without
    delimiter characters, the italic, bold and strikethrough passes leave
    its interior as it is, whatever follows the span: the interior comes out
    unchanged between the [pre] tags.  When the span is the whole text, the
    result is exactly the interior between the tags. *)
Theorem span_after_plain_text_is_kept (p x q : text)
  (Hp : plain p) (Hne : x <> [])
  (Hx : Forall (fun a => a <> "`"%char /\ a <> NL) x) :
  (exists q', render_detect (p ++ BT3 ++ x ++ BT3 ++ q)
              = p ++ T "<pre>" ++ x ++ T "</pre>" ++ q') /\
  render_detect (BT3 ++ x ++ BT3) = T "<pre>" ++ x ++ T "</pre>".
Proof.
  assert (Hi : interior false x).
  { split; [exact Hne|]. eapply Forall_impl; [|exact Hx].
    intros a [H1 H2]. split; [exact H1|]. simpl.
    apply Ascii.eqb_neq in H2. rewrite H2. reflexivity. }
  split.
  - apply detect_context; assumption.
  - apply detect_span, Hi.
Qed.

Lemma span_after_plain_text_is_kept_witness :
  (exists q', render_detect (T "see " ++ BT3 ++ T "_a_ *b* ~c~" ++ BT3 ++ T " and _d_")
              = T "see " ++ T "<pre>" ++ T "_a_ *b* ~c~" ++ T "</pre>" ++ q') /\
  render_detect (BT3 ++ T "_a_ *b* ~c~" ++ BT3)
  = T "<pre>" ++ T "_a_ *b* ~c~" ++ T "</pre>".
Proof.
  apply (span_after_plain_text_is_kept (T "see ") (T "_a_ *b* ~c~") (T " and _d_")).
  - unfold plain. repeat constructor; discriminate.
  - discriminate.
  - repeat constructor; discriminate.
Defined.

(* ------------------------------------------------------------------ *)
(** ** The markup formatter: backslashes and lone delimiters *)

(** Claim C7, as stated, fails: a delimiter after a backslash opens a span,
    and one closes a span, in both modes. *)
Lemma C7_backslash_does_not_escape :
  parse_markdown (T "\_a_") true = T "\<em>a</em>" /\
  parse_markdown (T "\_a_") false = T "\<em>a</em>" /\
  parse_markdown (T "_a\_") true = T "<em>a\</em>" /\
  parse_markdown (T "x \*b\* y") false = T "x \<strong>b\</strong> y".
Proof. vm_compute. repeat split; reflexivity. Qed.

(* ------------------------------------------------------------------ *)
(** ** The message assembler: invariants of the loop *)

Section AssemblerFacts.

Variable exists_file : text -> bool.
Variable filepath : text.
Variable chat_id : text.
Variable group_users : dict member.

(** What [header_message] returns when it returns: the attachment has
    been copied, the sender is known and the date exists. *)
Lemma header_message_ok m next id msg sk :
  header_message exists_file filepath chat_id group_users m next id = Ok (msg, sk) ->
  exists att content att' u ts,
    attachment_marker (dirname filepath) (snd (body_of m)) next = (att, content, sk) /\
    copy_attachment exists_file chat_id att = Ok att' /\
    dict_get group_users (gtext m 6) = Some u /\
    msg = Message id (user_id u) (gtext m 6) (avatar u) (color u) ts
            (fst (body_of m))
            (match strip content with [] => None | c => Some c end)
            (fst (formatting (strip content))) (snd (formatting (strip content)))
            (match att' with Some a => Some [a] | None => None end).
Proof.
  unfold header_message.
  destruct (attachment_marker (dirname filepath) (snd (body_of m)) next)
    as [[att content] sk'] eqn:EA.
  destruct (copy_attachment exists_file chat_id att) as [att'|e] eqn:EC;
    [|discriminate].
  simpl bind.
  destruct (formatting (strip content)) as [fmt formatted] eqn:EF.
  destruct (dict_get group_users (gtext m 6)) as [u|] eqn:EU; [|discriminate].
  destruct (datetime _ _ _ _ _) as [ts|e] eqn:ED; [|discriminate].
  simpl bind. intros H. inversion H; subst.
  exists att, content, att', u, ts. rewrite EF. auto.
Qed.

Lemma header_message_attachment m next id msg sk :
  header_message exists_file filepath chat_id group_users m next id = Ok (msg, sk) ->
  at_most_one_attachment msg.
Proof.
  intros H. apply header_message_ok in H.
  destruct H as (att & content & att' & u & ts & _ & _ & _ & ->).
  unfold at_most_one_attachment. simpl. destruct att'; eauto.
Qed.

Lemma with_content_attachments c msg :
  m_attachments (with_content c msg) = m_attachments msg.
Proof. reflexivity. Qed.

Lemma continue_message_attachments line msg :
  m_attachments (continue_message line msg) = m_attachments msg.
Proof.
  unfold continue_message.
  destruct (truthy (m_content msg) && negb (matches skip_pattern line)).
  - destruct (m_content msg); reflexivity.
  - destruct (negb (matches skip_pattern line)); reflexivity.
Qed.

Lemma update_last_snoc f msgs x :
  update_last f (msgs ++ [x]) = msgs ++ [f x].
Proof.
  unfold update_last. rewrite rev_app_distr. simpl. rewrite rev_involutive.
  reflexivity.
Qed.

Lemma update_last_cases f msgs :
  (msgs = [] /\ update_last f msgs = []) \/
  exists l x, msgs = l ++ [x] /\ update_last f msgs = l ++ [f x].
Proof.
  destruct msgs as [|y l _] using rev_ind.
  - left. auto.
  - right. exists l, y. split; [reflexivity|]. apply update_last_snoc.
Qed.

Lemma update_last_length f msgs : length (update_last f msgs) = length msgs.
Proof.
  destruct (update_last_cases f msgs) as [[-> ->]|(l & x & -> & ->)];
    [reflexivity|]. rewrite !length_app. reflexivity.
Qed.

Lemma update_last_Forall (P : message -> Prop) f msgs :
  (forall m, P m -> P (f m)) -> Forall P msgs -> Forall P (update_last f msgs).
Proof.
  intros Hf H.
  destruct (update_last_cases f msgs) as [[-> ->]|(l & x & -> & ->)]; [exact H|].
  apply Forall_app in H. destruct H as [Hl Hx]. apply Forall_app. split; [exact Hl|].
  inversion Hx; subst. constructor; auto.
Qed.

(** A property of messages that holds for the message of every header line
    and that continuation lines preserve holds for all messages returned. *)
Lemma assemble_Forall (P : message -> Prop) :
  (forall m next id msg sk,
     header_message exists_file filepath chat_id group_users m next id = Ok (msg, sk) ->
     P msg) ->
  (forall line msg, P msg -> P (continue_message line msg)) ->
  forall lines skip msgs res,
    Forall P msgs ->
    assemble exists_file filepath chat_id group_users lines skip msgs = Ok res ->
    Forall P res.
Proof.
  intros Hh Hc. induction lines as [|line lines IH]; intros skip msgs res HP H.
  - simpl in H. inversion H; subst. exact HP.
  - simpl in H. destruct skip.
    + eapply IH; eauto.
    + destruct (re_match pattern line) as [m|] eqn:EM.
      * destruct (header_message exists_file filepath chat_id group_users m
                    (hd_error lines) (length msgs)) as [[msg sk]|e] eqn:EH;
          [|discriminate].
        simpl in H. eapply IH; [|exact H].
        apply Forall_app. split; [exact HP|]. constructor; [|constructor].
        eapply Hh; eauto.
      * destruct msgs as [|m0 msgs'].
        -- eapply IH; eauto.
        -- eapply IH; [|exact H]. apply update_last_Forall; auto.
Qed.

End AssemblerFacts.

(** Claim C10: every message that the assembler returns has no attachment
    list or a list of exactly one attachment reference. *)
Theorem C10_at_most_one_attachment_per_message
  (exists_file : text -> bool) (filepath chat_id : text)
  (group_users : dict member) (lines : list text) (msgs : list message)
  (H : backup_messages_lines exists_file filepath chat_id group_users lines = Ok msgs) :
  Forall at_most_one_attachment msgs.
Proof.
  unfold backup_messages_lines in H.
  eapply assemble_Forall; [ | | | exact H].
  - intros m next id msg sk. apply header_message_attachment.
  - intros line msg HP. unfold at_most_one_attachment.
    rewrite continue_message_attachments. exact HP.
  - constructor.
Qed.

(** ** The message assembler: counting messages *)

Section CountingFacts.

Variable exists_file : text -> bool.
Variable filepath : text.
Variable chat_id : text.
Variable group_users : dict member.

(** The messages returned are those assembled before and one for each
    line whose fate is [Emitted]. *)
Lemma assemble_length lines : forall skip used msgs res,
  skip = is_some used ->
  (forall f, used = Some f -> is_emitted f = false) ->
  assemble exists_file filepath chat_id group_users lines skip msgs = Ok res ->
  length res = length msgs + length (filter is_emitted (fates filepath lines used)).
Proof.
  induction lines as [|line lines IH]; intros skip used msgs res Hs Hu H.
  - simpl in *. inversion H; subst. lia.
  - simpl in H. destruct used as [f|]; simpl in Hs; subst skip.
    + apply (IH false None) in H; [|reflexivity|discriminate]. simpl.
      rewrite (Hu f eq_refl). exact H.
    + simpl. destruct (re_match pattern line) as [m|] eqn:EM.
      * destruct (header_message exists_file filepath chat_id group_users m
                    (hd_error lines) (length msgs)) as [[msg sk]|e] eqn:EH;
          [|discriminate].
        simpl in H. pose proof EH as EH'. apply header_message_ok in EH'.
        destruct EH' as (att & content & att' & u & ts & EA & _).
        rewrite EA. simpl snd.
        apply (IH sk (if sk then Some (if is_img (snd (body_of m)) then Caption
                                       else Filename) else None)) in H.
        -- rewrite H, length_app. simpl. lia.
        -- destruct sk; reflexivity.
        -- intros f Hf. destruct sk; [|discriminate].
           inversion Hf. destruct (is_img (snd (body_of m))); reflexivity.
      * destruct msgs as [|m0 msgs'].
        -- apply (IH false None) in H; [|reflexivity|discriminate]. simpl. exact H.
        -- apply (IH false None) in H; [|reflexivity|discriminate].
           rewrite update_last_length in H. simpl. exact H.
Qed.

End CountingFacts.

(** Every header line either yields a message or is used up by the line
    before it. *)
Lemma fates_count filepath lines : forall used,
  (forall f, used = Some f -> is_emitted f = false /\ is_used f = true) ->
  length (filter is_emitted (fates filepath lines used)) +
  length (filter (fun lf => matches pattern (fst lf) && is_used (snd lf))
            (combine lines (fates filepath lines used)))
  = length (filter (matches pattern) lines).
Proof.
  induction lines as [|line lines IH]; intros used Hu; [reflexivity|].
  simpl. destruct used as [f|].
  - destruct (Hu f eq_refl) as [He Hd]. simpl. rewrite He, Hd, andb_true_r.
    assert (IH0 := IH None ltac:(discriminate)).
    destruct (matches pattern line); simpl; lia.
  - destruct (re_match pattern line) as [m|] eqn:EM.
    + assert (Hm : matches pattern line = true)
        by (unfold matches; rewrite EM; reflexivity).
      simpl. rewrite Hm. simpl.
      assert (IH0 := IH (if snd (attachment_marker (dirname filepath)
                                   (snd (body_of m)) (hd_error lines))
                         then Some (if is_img (snd (body_of m)) then Caption
                                    else Filename)
                         else None)).
      rewrite <- IH0; [lia|].
      intros f Hf. destruct (snd (attachment_marker _ _ _)); [|discriminate].
      inversion Hf. destruct (is_img (snd (body_of m))); auto.
    + assert (Hm : matches pattern line = false)
        by (unfold matches; rewrite EM; reflexivity).
      simpl. rewrite Hm. simpl. apply IH. discriminate.
Qed.

(** The next line is used up as a caption only when it is neither a header
    nor a system notice. *)
Lemma attachment_marker_img_skip dir content next :
  is_img content = true ->
  snd (attachment_marker dir content next) = true ->
  exists n, next = Some n /\ matches pattern n = false /\
            matches skip_pattern n = false.
Proof.
  unfold is_img, attachment_marker.
  destruct (re_match img_re content) as [m|]; [|discriminate].
  intros _. destruct next as [n|]; simpl; [|discriminate].
  destruct (matches pattern n) eqn:Ep; simpl; [discriminate|].
  destruct (matches skip_pattern n) eqn:Es; simpl; [discriminate|].
  intros _. exists n. split; [reflexivity|]. split; assumption.
Qed.

(** A line merged as a caption is never a header line. *)
Lemma captions_not_headers filepath lines : forall used,
  (used = Some Caption ->
   match lines with
   | l :: _ => matches pattern l = false
   | [] => True
   end) ->
  Forall (fun lf => snd lf = Caption -> matches pattern (fst lf) = false)
    (combine lines (fates filepath lines used)).
Proof.
  induction lines as [|line lines IH]; intros used Hu; [constructor|].
  simpl. destruct used as [f|].
  - constructor.
    + simpl. intros ->. apply Hu. reflexivity.
    + apply IH. discriminate.
  - destruct (re_match pattern line) as [m|] eqn:EM.
    + constructor; [simpl; discriminate|].
      apply IH. intros Hc.
      destruct (snd (attachment_marker (dirname filepath) (snd (body_of m))
                       (hd_error lines))) eqn:ES; [|discriminate].
      destruct (is_img (snd (body_of m))) eqn:EI; [|discriminate].
      destruct (attachment_marker_img_skip _ _ _ EI ES) as (n & Hn & Hp & _).
      destruct lines as [|l lines']; [exact I|].
      simpl in Hn. inversion Hn; subst. exact Hp.
    + constructor; [simpl; discriminate|]. apply IH. discriminate.
Qed.

(** Claim C9, as stated, fails on the transcript of a header with an image
    marker followed by its caption: one header line, one merged caption
    line, and one message, not none. *)
Lemma C9_caption_is_not_subtracted :
  let lines := [T "01/01/23, 09:00 - Bob: IMG-001.jpg (file attached)"; T "nice photo"] in
  let fp := T "exports/chat/WhatsApp Chat with Bob.txt" in
  let res := backup_messages_lines (fun _ => true) fp (T "c1")
               [(T "Bob", Member (T "911") (T "bob.png") None)] lines in
  length (value_or [] res) = 1 /\
  header_count lines = 1 /\
  caption_count fp lines = 1 /\
  length (value_or [] res) <> header_count lines - caption_count fp lines.
Proof. vm_compute. repeat split; try reflexivity. discriminate. Qed.

(** Claim C9, amended: when the assembler returns, the number of messages
    is the number of header lines less the number of header lines that the
    line before them has used up (as the repeated name of its attached
    file); a line merged as the caption of an image is never a header line,
    so that merging it takes nothing from the count. *)
Theorem C9_message_count
  (exists_file : text -> bool) (filepath chat_id : text)
  (group_users : dict member) (lines : list text) (msgs : list message)
  (H : backup_messages_lines exists_file filepath chat_id group_users lines = Ok msgs) :
  length msgs = header_count lines - used_header_count filepath lines /\
  length msgs + used_header_count filepath lines = header_count lines /\
  Forall (fun lf => snd lf = Caption -> classify (fst lf) <> MessageHeader)
    (combine lines (fates filepath lines None)).
Proof.
  unfold backup_messages_lines in H.
  apply (assemble_length exists_file filepath chat_id group_users lines
           false None) in H; [|reflexivity|discriminate].
  simpl in H.
  pose proof (fates_count filepath lines None) as C.
  unfold header_count, used_header_count.
  rewrite <- C by discriminate. rewrite H.
  split; [lia|]. split; [lia|].
  eapply Forall_impl; [|apply (captions_not_headers filepath lines None); discriminate].
  intros [l f] Hlf Hc. simpl in *. unfold classify. rewrite (Hlf Hc).
  destruct (matches skip_pattern l); discriminate.
Qed.

Lemma C9_message_count_witness :
  let lines := [T "01/01/23, 09:00 - Ann: 01/01/23, 09:01 - Bob: hi (file attached)";
                T "01/01/23, 09:01 - Bob: hi";
                T "01/01/23, 09:02 - Bob: IMG-001.jpg (file attached)";
                T "nice photo";
                T "01/01/23, 09:03 - Ann: thanks"] in
  let fp := T "exports/chat/WhatsApp Chat with Bob.txt" in
  let gu := [(T "Bob", Member (T "911") (T "bob.png") None);
             (T "Ann", Member (T "912") (T "ann.png") None)] in
  let msgs := value_or [] (backup_messages_lines (fun _ => true) fp (T "c1") gu lines) in
  length msgs = header_count lines - used_header_count fp lines /\
  length msgs + used_header_count fp lines = header_count lines /\
  Forall (fun lf => snd lf = Caption -> classify (fst lf) <> MessageHeader)
    (combine lines (fates fp lines None)).
Proof.
  intros lines fp gu msgs.
  apply (C9_message_count (fun _ => true) fp (T "c1") gu lines msgs).
  vm_compute. reflexivity.
Defined.

Lemma C10_at_most_one_attachment_per_message_witness :
  let lines := [T "01/01/23, 09:00 - Ann: report.pdf (file attached)";
                T "report.pdf";
                T "01/01/23, 09:01 - Bob: IMG-001.jpg (file attached)";
                T "nice photo";
                T "01/01/23, 09:02 - Ann: thanks"] in
  let fp := T "exports/chat/WhatsApp Chat with Bob.txt" in
  let gu := [(T "Bob", Member (T "911") (T "bob.png") None);
             (T "Ann", Member (T "912") (T "ann.png") None)] in
  Forall at_most_one_attachment
    (value_or [] (backup_messages_lines (fun _ => true) fp (T "c1") gu lines)).
Proof.
  intros lines fp gu.
  apply (C10_at_most_one_attachment_per_message (fun _ => true) fp (T "c1") gu lines).
  vm_compute. reflexivity.
Defined.

(* ------------------------------------------------------------------ *)
(** ** The message assembler: captions of attachments *)

Lemma classify_continuation n :
  classify n = Continuation <->
  matches pattern n = false /\ matches skip_pattern n = false.
Proof.
  unfold classify.
  destruct (matches pattern n); [split; [discriminate|intros [? _]; discriminate]|].
  destruct (matches skip_pattern n); [split; [discriminate|intros [_ ?]; discriminate]|].
  split; auto.
Qed.

(** Claim C1, as stated, fails: the next line is taken as caption although
    the body is not empty once the marker is stripped; it is appended to
    what is left of the body. *)
Lemma C1_caption_taken_after_nonempty_body :
  let lines := [T "01/01/23, 09:00 - Bob: look IMG-001.jpg (file attached)";
                T "nice photo"] in
  let fp := T "exports/chat/WhatsApp Chat with Bob.txt" in
  let gu := [(T "Bob", Member (T "911") (T "bob.png") None)] in
  attachment_marker (dirname fp) (T "look IMG-001.jpg (file attached)")
    (Some (T "nice photo"))
  = (Some (T "exports/chat/IMG-001.jpg"), T "look nice photo", true) /\
  backup_messages_lines (fun _ => true) fp (T "c1") gu lines
  = Ok [Message 0 (T "911") (T "Bob") (T "bob.png") None
          (Timestamp 2023 1 1 9 0) Default (Some (T "look nice photo")) None None
          (Some [T "c1/IMG-001.jpg"])].
Proof. vm_compute. split; reflexivity. Qed.

(** Claim C1, amended: when the body carries an image marker, the next line
    is used up as caption exactly when it is neither a header nor a system
    notice, whatever is left of the body once the marker is stripped, and
    the caption is appended to what is left.  In the other form of the
    marker a line that is used up is dropped, never taken as content.  The
    header [01/01/23, 09:00 - Bob: IMG-001.jpg (file attached)] followed by
    [nice photo] yields one message with one attachment reference and the
    content [nice photo]. *)
Theorem C1_caption_of_image (dir content n : text) (m : rmatch)
  (H : re_match img_re content = Some m) :
  attachment_marker dir content (Some n)
  = match classify n with
    | Continuation => (Some (path_join dir (gtext m 2)), gtext m 1 ++ n, true)
    | _ => (Some (path_join dir (gtext m 2)), gtext m 1, false)
    end /\
  (forall content' next,
     re_match img_re content' = None ->
     snd (attachment_marker dir content' next) = true ->
     snd (fst (attachment_marker dir content' next)) = []) /\
  backup_messages_lines (fun _ => true)
    (T "exports/chat/WhatsApp Chat with Bob.txt") (T "c1")
    [(T "Bob", Member (T "911") (T "bob.png") None)]
    [T "01/01/23, 09:00 - Bob: IMG-001.jpg (file attached)"; T "nice photo"]
  = Ok [Message 0 (T "911") (T "Bob") (T "bob.png") None
          (Timestamp 2023 1 1 9 0) Default (Some (T "nice photo")) None None
          (Some [T "c1/IMG-001.jpg"])].
Proof.
  split; [|split].
  - unfold attachment_marker, classify. rewrite H.
    destruct (matches pattern n); [reflexivity|].
    destruct (matches skip_pattern n); reflexivity.
  - intros content' next E. unfold attachment_marker. rewrite E.
    destruct (text_eqb (last_n 16 content') FILE_ATTACHED); [reflexivity|].
    simpl. discriminate.
  - vm_compute. reflexivity.
Qed.

Lemma C1_caption_of_image_witness :
  let m := RMatch (T "look IMG-001.jpg (file attached)")
             [(2, T "IMG-001.jpg"); (1, T "look ")] in
  attachment_marker (T "exports/chat") (T "look IMG-001.jpg (file attached)")
    (Some (T "nice photo"))
  = match classify (T "nice photo") with
    | Continuation =>
        (Some (path_join (T "exports/chat") (gtext m 2)),
         gtext m 1 ++ T "nice photo", true)
    | _ => (Some (path_join (T "exports/chat") (gtext m 2)), gtext m 1, false)
    end.
Proof.
  intros m.
  apply (C1_caption_of_image (T "exports/chat")
           (T "look IMG-001.jpg (file attached)") (T "nice photo") m).
  vm_compute. reflexivity.
Defined.

(* ------------------------------------------------------------------ *)
(** ** The message assembler: a missing attachment *)

(** Claim C4, as stated, fails: when the file of an attachment is missing the
    assembler returns no message at all, neither the message with the
    marker nor those before and after it. *)
Lemma C4_missing_attachment_loses_transcript :
  backup_messages_lines (fun _ => false)
    (T "exports/chat/WhatsApp Chat with Bob.txt") (T "c1")
    [(T "Bob", Member (T "911") (T "bob.png") None);
     (T "Ann", Member (T "912") (T "ann.png") None)]
    [T "01/01/23, 09:00 - Ann: hello";
     T "01/01/23, 09:01 - Bob: IMG-001.jpg (file attached)";
     T "01/01/23, 09:02 - Ann: thanks"]
  = Err (FileNotFoundError (T "exports/chat/IMG-001.jpg")).
Proof. vm_compute. reflexivity. Qed.

(** Claim C4, amended: when the file named by the attachment marker of a
    header line does not exist, copying it raises [FileNotFoundError] and
    nothing catches it: the assembler ends with that exception when its
    loop comes to the line, whatever messages it has assembled so far and
    whatever lines follow, and returns no message. *)
Theorem C4_missing_attachment_aborts
  (exists_file : text -> bool) (filepath chat_id : text)
  (group_users : dict member) (line : text) (rest : list text)
  (msgs : list message) (m : rmatch) (a c : text) (sk : bool)
  (Hm : re_match pattern line = Some m)
  (Ha : attachment_marker (dirname filepath) (snd (body_of m)) (hd_error rest)
        = (Some a, c, sk))
  (He : exists_file a = false) :
  assemble exists_file filepath chat_id group_users (line :: rest) false msgs
  = Err (FileNotFoundError a).
Proof.
  simpl. rewrite Hm. unfold header_message. rewrite Ha.
  unfold copy_attachment. rewrite He. reflexivity.
Qed.

Lemma C4_missing_attachment_aborts_witness :
  assemble (fun _ => false) (T "exports/chat/WhatsApp Chat with Bob.txt") (T "c1")
    [(T "Bob", Member (T "911") (T "bob.png") None)]
    [T "01/01/23, 09:01 - Bob: IMG-001.jpg (file attached)";
     T "01/01/23, 09:02 - Bob: thanks"]
    false []
  = Err (FileNotFoundError (T "exports/chat/IMG-001.jpg")).
Proof.
  apply (C4_missing_attachment_aborts (fun _ => false)
           (T "exports/chat/WhatsApp Chat with Bob.txt") (T "c1")
           [(T "Bob", Member (T "911") (T "bob.png") None)]
           (T "01/01/23, 09:01 - Bob: IMG-001.jpg (file attached)")
           [T "01/01/23, 09:02 - Bob: thanks"] []
           (RMatch (T "01/01/23, 09:01 - Bob: IMG-001.jpg (file attached)")
              [(7, T "IMG-001.jpg (file attached)"); (6, T "Bob"); (5, T "01");
               (4, T "09"); (3, T "23"); (2, T "01"); (1, T "01")])
           (T "exports/chat/IMG-001.jpg") [] false);
    vm_compute; reflexivity.
Defined.

(* ------------------------------------------------------------------ *)
(** ** The message assembler: continuation lines *)

(** Claim C8, as stated, fails: the line is stripped before it is appended,
    and it is not preceded by a newline when the pending message has no
    content (here a deleted message, which so gets a content). *)
Lemma C8_continuation_is_stripped :
  let fp := T "exports/chat/WhatsApp Chat with Bob.txt" in
  let gu := [(T "Alice", Member (T "912") (T "alice.png") None)] in
  backup_messages_lines (fun _ => true) fp (T "c1") gu
    [T "01/01/23, 09:00 - Alice: Hello"; T "    world"]
  = Ok [Message 0 (T "912") (T "Alice") (T "alice.png") None
          (Timestamp 2023 1 1 9 0) Default
          (Some (T "Hello" ++ [NL] ++ T "world")) None None None] /\
  backup_messages_lines (fun _ => true) fp (T "c1") gu
    [T "01/01/23, 09:00 - Alice: This message was deleted"; T "world"]
  = Ok [Message 0 (T "912") (T "Alice") (T "alice.png") None
          (Timestamp 2023 1 1 9 0) Redacted (Some (T "world")) None None None].
Proof. vm_compute. split; reflexivity. Qed.

(** Claim C8, amended: when a continuation line follows a pending message,
    the content of the message becomes its content, a newline and the line
    stripped of the white space around it, or the stripped line alone when
    the message has no content; detection is run again on the whole new
    content and, when it finds markup, the format and the formatted content
    are set from the whole new content.  The header
    [01/01/23, 09:00 - Alice: Hello] followed by [world] gives one message
    with content [Hello], a newline, [world]. *)
Theorem C8_continuation_appended
  (exists_file : text -> bool) (filepath chat_id : text)
  (group_users : dict member) (line : text) (rest : list text)
  (msgs : list message) (msg : message)
  (Hc : classify line = Continuation) :
  let new_content :=
    match m_content msg with
    | Some (a :: c) => (a :: c) ++ [NL] ++ strip line
    | _ => strip line
    end in
  let msg' := continue_message line msg in
  assemble exists_file filepath chat_id group_users (line :: rest) false (msgs ++ [msg])
  = assemble exists_file filepath chat_id group_users rest false (msgs ++ [msg']) /\
  m_content msg' = Some new_content /\
  (if has_markup new_content
   then m_format msg' = Some WHATSAPP_MARKDOWN /\
        m_formatted_content msg' = Some (render new_content)
   else m_format msg' = m_format msg /\
        m_formatted_content msg' = m_formatted_content msg) /\
  backup_messages_lines (fun _ => true)
    (T "exports/chat/WhatsApp Chat with Bob.txt") (T "c1")
    [(T "Alice", Member (T "912") (T "alice.png") None)]
    [T "01/01/23, 09:00 - Alice: Hello"; T "world"]
  = Ok [Message 0 (T "912") (T "Alice") (T "alice.png") None
          (Timestamp 2023 1 1 9 0) Default
          (Some (T "Hello" ++ [NL] ++ T "world")) None None None].
Proof.
  intros new_content msg'.
  apply classify_continuation in Hc. destruct Hc as [Hp Hs].
  assert (Hm : re_match pattern line = None).
  { unfold matches in Hp. destruct (re_match pattern line); [discriminate|reflexivity]. }
  assert (E : msg' = with_content new_content msg).
  { unfold msg', continue_message, new_content. rewrite Hs. simpl.
    destruct (m_content msg) as [[|a c]|]; reflexivity. }
  split; [|split; [|split]].
  - simpl. rewrite Hm.
    destruct (msgs ++ [msg]) eqn:En; [destruct msgs; discriminate|].
    rewrite <- En, update_last_snoc. reflexivity.
  - rewrite E. reflexivity.
  - rewrite E. unfold with_content, has_markup, render.
    cbn [m_format m_formatted_content].
    destruct (negb (text_eqb new_content (parse_markdown new_content true)));
      split; reflexivity.
  - vm_compute. reflexivity.
Qed.

Lemma C8_continuation_appended_witness :
  let msg := Message 0 (T "912") (T "Alice") (T "alice.png") None
               (Timestamp 2023 1 1 9 0) Default (Some (T "Hello")) None None None in
  let line := T "  *world*" in
  let new_content :=
    match m_content msg with
    | Some (a :: c) => (a :: c) ++ [NL] ++ strip line
    | _ => strip line
    end in
  let msg' := continue_message line msg in
  assemble (fun _ => true) (T "f.txt") (T "c1") [] (line :: []) false ([] ++ [msg])
  = assemble (fun _ => true) (T "f.txt") (T "c1") [] [] false ([] ++ [msg']) /\
  m_content msg' = Some new_content /\
  (if has_markup new_content
   then m_format msg' = Some WHATSAPP_MARKDOWN /\
        m_formatted_content msg' = Some (render new_content)
   else m_format msg' = m_format msg /\
        m_formatted_content msg' = m_formatted_content msg) /\
  backup_messages_lines (fun _ => true)
    (T "exports/chat/WhatsApp Chat with Bob.txt") (T "c1")
    [(T "Alice", Member (T "912") (T "alice.png") None)]
    [T "01/01/23, 09:00 - Alice: Hello"; T "world"]
  = Ok [Message 0 (T "912") (T "Alice") (T "alice.png") None
          (Timestamp 2023 1 1 9 0) Default
          (Some (T "Hello" ++ [NL] ++ T "world")) None None None].
Proof.
  intros msg line.
  assert (Hc : classify line = Continuation) by (vm_compute; reflexivity).
  exact (C8_continuation_appended (fun _ => true) (T "f.txt") (T "c1") []
           line [] [] msg Hc).
Defined.

(* ------------------------------------------------------------------ *)
(** ** The user registry: an identifier that is already taken *)

Section UsersFacts.

Variable exists_file : text -> bool.
Variable uuid : nat -> text.
Variable existing_users : dict member.

(** The path that asks for the phone number never accepts a number that is
    already in [existing_ids]. *)
Lemma ask_id_rejects_taken fuel : forall name st id st',
  ask_id existing_users fuel name st = Ok (Some id, st') ->
  existsb (text_eqb id) (existing_ids st) = false /\
  existing_ids st' = existing_ids st.
Proof.
  induction fuel as [|fuel IH]; intros name st id st' H; [discriminate|].
  simpl in H.
  destruct (dict_get existing_users name) as [u|].
  - destruct (ask_skip (inputs st)) as [[b ins]|e]; [|discriminate].
    simpl in H. destruct b; simpl in H; [discriminate|].
    unfold read in H. simpl in H. destruct ins as [|l ls]; [discriminate|].
    simpl in H.
    destruct (existsb (text_eqb (strip l)) (existing_ids st)) eqn:E.
    + apply IH in H. simpl in H. exact H.
    + destruct (strip l) eqn:El.
      * apply IH in H. simpl in H. exact H.
      * inversion H; subst. simpl. auto.
  - simpl in H. unfold read in H. destruct (inputs st) as [|l ls]; [discriminate|].
    simpl in H.
    destruct (existsb (text_eqb (strip l)) (existing_ids st)) eqn:E.
    + apply IH in H. simpl in H. exact H.
    + destruct (strip l) eqn:El.
      * apply IH in H. simpl in H. exact H.
      * inversion H; subst. simpl. auto.
Qed.

End UsersFacts.

(** Claim C5 against the code: a name that [info.json] describes is
    registered under its identifier although the identifier is already
    that of another user, and nothing is reported; within one chat the
    entry of the earlier user is overwritten.  The path that asks for the
    phone number rejects the same identifier. *)
Theorem C5_info_path_accepts_taken_id :
  let all := fun _ : text => true in
  let uuid := fun _ : nat => T "u" in
  let order := fun l : list text => l in
  let alice := Member (T "911") (T "alice.png") None in
  (* Bob comes from info.json with the identifier of Alice, a user of an
     earlier chat *)
  (exists st,
     backup_users all uuid order
       (Some [(T "Bob", UserInfo (T "911") None None)])
       [(T "Alice", alice)]
       [T "01/01/23, 09:00 - Bob: hi"] [] [T "911"] = Ok st /\
     new_users st = [(T "911", NewUser (T "Bob") (T "default.svg") None)] /\
     printed st = [T "Found Bob in info.json"]) /\
  (* Ann and Bob of one chat share an identifier in info.json *)
  (exists st,
     backup_users all uuid order
       (Some [(T "Ann", UserInfo (T "911") None None);
              (T "Bob", UserInfo (T "911") None None)])
       []
       [T "01/01/23, 09:00 - Ann: hi"; T "01/01/23, 09:01 - Bob: hi"] [] [] = Ok st /\
     new_users st = [(T "911", NewUser (T "Bob") (T "default.svg") None)]) /\
  (* the same identifier typed at the prompt is refused *)
  (exists st,
     backup_users all uuid order None [(T "Alice", alice)]
       [T "01/01/23, 09:00 - Bob: hi"]
       [T "911"; T "912"; T "bob.png"; T ""] [T "911"] = Ok st /\
     new_users st = [(T "912", NewUser (T "Bob") (T "u.png") None)] /\
     In (T "Error: Already exists") (printed st)).
Proof.
  intros all uuid order alice. repeat split.
  - eexists. split; [vm_compute; reflexivity|]. split; reflexivity.
  - eexists. split; [vm_compute; reflexivity|]. reflexivity.
  - eexists. split; [vm_compute; reflexivity|]. split; [reflexivity|].
    simpl. auto.
Qed.

(* ------------------------------------------------------------------ *)
(** ** The search index *)

(** Claim C6, as stated, fails: the index has the columns [id] and
    [content] (and [edits] in the Matrix converter); the formatted content
    of a message is not in it. *)
Lemma C6_formatted_content_not_indexed :
  let db := Database
              [[(T "id", Some (T "m1")); (T "content", Some (T "_hi_"));
                (T "format", Some WHATSAPP_MARKDOWN);
                (T "formatted_content", Some (T "<em>hi</em>"))]]
              None in
  option_map columns (message_search (index_messages db))
  = Some [T "id"; T "content"] /\
  indexed (index_messages db) (T "_hi_") = true /\
  indexed (index_messages db) (T "<em>hi</em>") = false /\
  indexed (matrix_index_messages db) (T "<em>hi</em>") = false.
Proof. vm_compute. repeat split; reflexivity. Qed.

Lemma indexed_cell cols db r c col :
  In r (messages_table db) -> In col cols -> cell r col = Some c ->
  indexed (rebuild_index cols db) c = true.
Proof.
  intros Hr Hc Hv. unfold indexed, rebuild_index. simpl.
  apply existsb_exists. exists (map (cell r) cols). split.
  - apply in_map_iff. exists r. auto.
  - apply existsb_exists. exists (Some c). split.
    + apply in_map_iff. exists col. auto.
    + apply text_eqb_refl.
Qed.

(** Claim C6, amended: the search index is rebuilt from scratch from the
    message table, whatever index there was before, over the columns [id]
    and [content] (and [edits] in the Matrix converter), one row for each
    message, so that the content of every message is in the index; the
    formatted content is not a column of the index. *)
Theorem C6_index_rebuilt_over_id_and_content (db : database) :
  message_search (index_messages db)
  = Some (SearchTable [T "id"; T "content"]
            (map (fun r => [cell r (T "id"); cell r (T "content")])
               (messages_table db))) /\
  message_search (matrix_index_messages db)
  = Some (SearchTable [T "id"; T "content"; T "edits"]
            (map (fun r => [cell r (T "id"); cell r (T "content"); cell r (T "edits")])
               (messages_table db))) /\
  messages_table (index_messages db) = messages_table db /\
  index_messages db = index_messages (Database (messages_table db) None) /\
  (forall r c, In r (messages_table db) -> cell r (T "content") = Some c ->
               indexed (index_messages db) c = true).
Proof.
  repeat split.
  intros r c Hr Hc. unfold index_messages.
  apply (indexed_cell _ db r c (T "content")); simpl; auto.
Qed.

(* ================================================================== *)
(** * Further properties of the code *)

(** ** Matches and their surroundings *)

(** Soundness of the matcher with the assertions: a successful run has
    consumed a word that the expression allows at that place. *)
Lemma run_sound_in dotall r : forall s k res,
  run dotall r s k = Some res ->
  exists w s1, lang_in dotall r (before s) w (rest s1) /\ moved s w s1 /\
               k s1 = Some res.
Proof.
  unfold moved.
  induction r as [|u|c|r1 IH1 r2 IH2|r1 IH1 r2 IH2|n r1 IH1|g c| | | |r1 IH1];
    intros s k res H; simpl in H.
  - exists [], s. simpl. auto.
  - destruct (strip_prefix u (rest s)) eqn:E; [|discriminate].
    apply strip_prefix_some in E.
    eexists u, _. simpl. split; [reflexivity|]. split; [|exact H]. simpl. auto.
  - destruct (rest s) as [|a rst] eqn:E; [discriminate|].
    destruct (cset_mem dotall c a) eqn:M; [|discriminate].
    exists [a], (advance a rst s). simpl. split; [eauto|]. auto.
  - apply IH1 in H. destruct H as (w1 & s1 & L1 & (R1 & B1) & H).
    apply IH2 in H. destruct H as (w2 & s2 & L2 & (R2 & B2) & H).
    exists (w1 ++ w2), s2. simpl. split.
    + exists w1, w2. split; [reflexivity|]. rewrite <- R2, <- B1. auto.
    + split; [|exact H]. split.
      * rewrite R1, R2. apply app_assoc.
      * rewrite B2, B1, rev_app_distr. apply app_assoc.
  - destruct (run dotall r1 s k) eqn:E.
    + inversion H; subst. apply IH1 in E.
      destruct E as (w & s1 & L & M & K). exists w, s1. simpl. auto.
    + apply IH2 in H.
      destruct H as (w & s1 & L & M & K). exists w, s1. simpl. auto.
  - apply IH1 in H. destruct H as (w & s1 & L & (R & B) & K).
    exists w, (set_cap n (consumed s s1) s1). simpl. auto.
  - destruct g.
    + apply star_greedy_sound in H. destruct H as (w & rst' & Hw & Hr & Hk).
      eexists w, _. simpl. split; [exact Hw|]. split; [|exact Hk]. simpl. auto.
    + apply star_lazy_sound in H. destruct H as (w & rst' & Hw & Hr & Hk).
      eexists w, _. simpl. split; [exact Hw|]. split; [|exact Hk]. simpl. auto.
  - destruct (at_boundary s) eqn:E; [|discriminate]. exists [], s. simpl.
    destruct s; auto.
  - destruct (at_bol s) eqn:E; [|discriminate]. exists [], s. simpl.
    split; [|auto]. split; [reflexivity|].
    unfold at_bol in E. destruct (before s); [reflexivity|discriminate].
  - destruct (at_eol s) eqn:E; [|discriminate]. exists [], s. simpl.
    destruct s; auto.
  - destruct (run dotall r1 s Some) as [s1|] eqn:E; [|discriminate].
    apply IH1 in E. destruct E as (w1 & s2 & L & (R & B) & K).
    inversion K; subst s2.
    eexists [], _. simpl. split; [|split; [|exact H]]; simpl; eauto.
Qed.

Lemma match_at_sound_in dotall r bef rst m :
  match_at dotall r bef rst = Some m ->
  exists rst', rst = group0 m ++ rst' /\ lang_in dotall r bef (group0 m) rst'.
Proof.
  unfold match_at. intros H.
  destruct (run dotall r (MState bef rst []) Some) as [s1|] eqn:E; [|discriminate].
  inversion H; subst; clear H. simpl.
  apply run_sound_in in E. destruct E as (w & s2 & L & M & K).
  inversion K; subst s2.
  rewrite (consumed_moved _ _ _ M). destruct M as [R _]. simpl in *.
  exists (rest s1). auto.
Qed.

(** ** The boundary rule of bold and strikethrough *)

Lemma split_at_first (d : ascii) x : forall g r1 r2,
  Forall (fun a => a <> d) x -> Forall (fun a => a <> d) g ->
  x ++ d :: r1 = g ++ d :: r2 -> x = g /\ r1 = r2.
Proof.
  induction x as [|a x IH]; intros g r1 r2 Hx Hg E.
  - destruct g as [|b g]; simpl in E.
    + inversion E; auto.
    + inversion E; subst. inversion Hg; congruence.
  - destruct g as [|b g]; simpl in E.
    + inversion E; subst. inversion Hx; congruence.
    + inversion E; subst. inversion Hx; inversion Hg; subst.
      destruct (IH g r1 r2) as [-> ->]; auto.
Qed.

Lemma inline_not (d : ascii) x :
  d = "*"%char \/ d = "~"%char -> inline x -> Forall (fun a => a <> d) x.
Proof.
  intros Hd [_ H]. eapply Forall_impl; [|exact H].
  intros a (_ & H2 & H3 & _). destruct Hd; subst; assumption.
Qed.

(** No bold (or strikethrough) span starts at a delimiter whose closing
    delimiter is followed by a word character. *)
Lemma boundary_no_match_before_word d x c rest bef :
  d = "*"%char \/ d = "~"%char -> inline x -> is_word c = true ->
  match_at false (boundary_re d) bef (d :: x ++ d :: c :: rest) = None.
Proof.
  intros Hd Hx Hc.
  destruct (match_at false (boundary_re d) bef (d :: x ++ d :: c :: rest))
    as [m|] eqn:E; [|reflexivity].
  exfalso. apply match_at_sound_in in E. destruct E as (rst' & E & L).
  pose proof (inline_not d x Hd Hx) as Hxd.
  destruct Hx as [Hne Hx]. destruct x as [|x0 x]; [congruence|].
  assert (Hx0 : x0 <> d) by (inversion Hxd; assumption).
  revert E L. generalize (group0 m). intros w E L.
  unfold boundary_re, Plus, BT3 in L. simpl in L.
  destruct L as [L|L].
  - (* the monospace alternative starts with a backtick *)
    destruct L as (w1 & w2 & -> & -> & _). simpl in E. inversion E.
    destruct Hd; subst; discriminate.
  - destruct L as (w1 & w2 & -> & L1 & w3 & w4 & -> & -> & L4).
    destruct L4 as (g4 & w5 & -> & Lg & w6 & w7 & -> & -> & -> & Look).
    destruct Lg as (g1 & g2 & -> & (a1 & -> & Ha1) & Hg2).
    destruct L1 as [(a & -> & Ha)|[-> _]].
    + simpl in E. inversion E; subst. congruence.
    + simpl in E. inversion E as [[E1 E2]]. subst a1.
      assert (Hg : Forall (fun b => b <> d) g2).
      { eapply Forall_impl; [|exact Hg2]. simpl. intros b Hb ->.
        rewrite Ascii.eqb_refl in Hb. discriminate. }
      rewrite <- app_assoc in E2. simpl in E2.
      apply split_at_first in E2; [|inversion Hxd; assumption|exact Hg].
      destruct E2 as [_ <-].
      destruct Look as (wl & aft1 & Ea & [(b & -> & Hb)|[-> Heol]]).
      * simpl in Ea. inversion Ea; subst. simpl in Hb. rewrite Hc in Hb.
        discriminate.
      * simpl in Ea. subst aft1. unfold at_eol in Heol. simpl in Heol.
        destruct rest; [|discriminate].
        apply Ascii.eqb_eq in Heol. subst c. discriminate.
Qed.

Lemma plain_occ p (c : ascii) :
  plain p ->
  c = "_"%char \/ c = "*"%char \/ c = "~"%char \/ c = "`"%char ->
  occ c p = 0.
Proof.
  intros H Hc. apply occ_zero_forall.
  eapply Forall_impl; [|exact H].
  intros a (H1 & H2 & H3 & H4).
  destruct Hc as [->|[->|[->| ->]]]; assumption.
Qed.

Lemma italic_pass_few s :
  occ "_"%char s <= 1 -> occ "`"%char s <= 5 -> italic_pass s = s.
Proof.
  intros H1 H4. unfold italic_pass, re_sub.
  apply sub_loop_id with (P := fun q => occ "_"%char q <= 1 /\ occ "`"%char q <= 5);
    [ | | auto].
  - intros a q. simpl. lia.
  - intros bef q [Hq1 Hq4].
    destruct (match_at false italic_re bef q) as [m|] eqn:E; [|reflexivity].
    apply match_at_sound in E. destruct E as (q' & -> & L).
    apply italic_needs in L. rewrite occ_app in Hq1, Hq4. lia.
Qed.

Lemma boundary_pass_few d tag s :
  occ d s <= 1 -> occ "`"%char s <= 5 ->
  re_sub false (boundary_re d) (boundary_repl tag) s = s.
Proof.
  intros H1 H4. unfold re_sub.
  apply sub_loop_id with (P := fun q => occ d q <= 1 /\ occ "`"%char q <= 5);
    [ | | auto].
  - intros a q. simpl. lia.
  - intros bef q [Hq1 Hq4].
    destruct (match_at false (boundary_re d) bef q) as [m|] eqn:E; [|reflexivity].
    apply match_at_sound in E. destruct E as (q' & -> & L).
    apply boundary_needs in L. rewrite occ_app in Hq1, Hq4. lia.
Qed.

Lemma word_not_delimiter c (d : ascii) :
  is_word c = true -> d = "*"%char \/ d = "~"%char \/ d = "`"%char -> c <> d.
Proof.
  intros Hc Hd ->. destruct Hd as [->|[->| ->]]; discriminate.
Qed.

Lemma occ_one_not (c d : ascii) : c <> d -> occ d [c] = 0.
Proof.
  intros H. simpl. apply Ascii.eqb_neq in H. rewrite H. reflexivity.
Qed.

(** The pass of the delimiter [d] leaves [d x d c ...] alone when [c] is a
    word character. *)
Lemma boundary_pass_before_word d tag x c rest :
  d = "*"%char \/ d = "~"%char -> inline x -> is_word c = true -> plain rest ->
  re_sub false (boundary_re d) (boundary_repl tag) (d :: x ++ d :: c :: rest)
  = d :: x ++ d :: c :: rest.
Proof.
  intros Hd Hx Hc Hr. unfold re_sub.
  assert (Hdd : d = "_"%char \/ d = "*"%char \/ d = "~"%char \/ d = "`"%char)
    by (destruct Hd; auto).
  assert (Hdn : d = "_"%char \/ d = "*"%char \/ d = "~"%char \/ d = "`"%char
                \/ d = NL) by (destruct Hd; auto).
  assert (Hcd : c <> d) by (apply word_not_delimiter; [exact Hc|destruct Hd; auto]).
  assert (Hcb : c <> "`"%char) by (apply word_not_delimiter; auto).
  apply sub_loop_id
    with (P := fun q => q = d :: x ++ d :: c :: rest \/
                        (occ d q <= 1 /\ occ "`"%char q <= 5)).
  - intros a q [E|[H1 H4]].
    + right. inversion E; subst.
      rewrite !occ_app. change (d :: c :: rest) with ([d] ++ [c] ++ rest).
      rewrite !occ_app, (inline_occ x d Hx Hdn), (inline_occ x "`"%char Hx),
        (plain_occ rest d Hr Hdd), (plain_occ rest "`"%char Hr),
        (occ_one_not c d Hcd), (occ_one_not c "`"%char Hcb) by auto 6.
      simpl. rewrite Ascii.eqb_refl.
      destruct (Ascii.eqb d "`"); lia.
    + right. simpl in H1, H4. lia.
  - intros bef q [->|[H1 H4]].
    + apply boundary_no_match_before_word; assumption.
    + destruct (match_at false (boundary_re d) bef q) as [m|] eqn:E; [|reflexivity].
      apply match_at_sound in E. destruct E as (q' & -> & L).
      apply boundary_needs in L. rewrite occ_app in H1, H4. lia.
  - left. reflexivity.
Qed.

Lemma occ_delimited (e d : ascii) x c rest :
  inline x -> plain rest ->
  e = "_"%char \/ e = "*"%char \/ e = "~"%char \/ e = "`"%char ->
  occ e (d :: x ++ d :: c :: rest) = occ e [d] + occ e [d] + occ e [c].
Proof.
  intros Hx Hr He.
  change (d :: x ++ d :: c :: rest) with ([d] ++ x ++ [d] ++ [c] ++ rest).
  rewrite !occ_app, (inline_occ x e Hx), (plain_occ rest e Hr He).
  - lia.
  - destruct He as [->|[->|[->| ->]]]; auto 6.
Qed.

(** The boundary rule, closing side: a span of [*] or [~] whose closing
    delimiter is followed by a word character is not formatted; detection
    finds no markup in the text. *)
Theorem delimiter_before_word_is_literal (d : ascii) (x : text) (c : ascii)
  (rest : text)
  (Hd : d = "*"%char \/ d = "~"%char) (Hx : inline x)
  (Hc : is_word c = true) (Hr : plain rest) :
  parse_markdown (d :: x ++ d :: c :: rest) true = d :: x ++ d :: c :: rest /\
  has_markup (d :: x ++ d :: c :: rest) = false.
Proof.
  assert (E : parse_markdown (d :: x ++ d :: c :: rest) true
              = d :: x ++ d :: c :: rest).
  { unfold parse_markdown.
    assert (Hb : occ "`"%char (d :: x ++ d :: c :: rest) <= 5).
    { rewrite occ_delimited by auto.
      rewrite (occ_one_not c "`"%char) by (apply word_not_delimiter; auto).
      destruct Hd; subst; simpl; lia. }
    rewrite italic_pass_few; [ | | exact Hb].
    - destruct Hd as [-> | ->].
      + unfold bold_pass, bold_re.
        rewrite boundary_pass_before_word by auto.
        unfold strike_pass, strike_re. rewrite boundary_pass_few; [ | | exact Hb].
        * apply mono_pass_few, Hb.
        * rewrite occ_delimited by auto.
          rewrite (occ_one_not c "~"%char) by (apply word_not_delimiter; auto).
          simpl; lia.
      + unfold bold_pass, bold_re. rewrite boundary_pass_few; [ | | exact Hb].
        * unfold strike_pass, strike_re.
          rewrite boundary_pass_before_word by auto.
          apply mono_pass_few, Hb.
        * rewrite occ_delimited by auto.
          rewrite (occ_one_not c "*"%char) by (apply word_not_delimiter; auto).
          simpl; lia.
    - rewrite occ_delimited by auto.
      destruct Hd; subst; simpl; destruct (Ascii.eqb c "_"); lia. }
  split; [exact E|].
  unfold has_markup. rewrite E, text_eqb_refl. reflexivity.
Qed.

Lemma delimiter_before_word_is_literal_witness :
  parse_markdown ("*"%char :: T "hi" ++ "*"%char :: "t"%char :: T "here") true
  = "*"%char :: T "hi" ++ "*"%char :: "t"%char :: T "here" /\
  has_markup ("*"%char :: T "hi" ++ "*"%char :: "t"%char :: T "here") = false.
Proof.
  apply (delimiter_before_word_is_literal "*" (T "hi") "t" (T "here")).
  - left; reflexivity.
  - split; [discriminate|]. repeat constructor; discriminate.
  - reflexivity.
  - unfold plain. repeat constructor; discriminate.
Defined.

(** ** Spans of bold and strikethrough *)

(** A greedy repetition walks over [w] when the character after [w] is not
    in the set and the continuation succeeds there. *)
Lemma star_greedy_run dotall c w : forall bef rst cp k res,
  Forall (fun a => cset_mem dotall c a = true) w ->
  match rst with
  | [] => True
  | b :: _ => cset_mem dotall c b = false
  end ->
  k (MState (rev w ++ bef) rst cp) = Some res ->
  star_greedy dotall c bef (w ++ rst) cp k = Some res.
Proof.
  induction w as [|a w IH]; intros bef rst cp k res Hall Hrst Hk.
  - simpl in *. destruct rst as [|b rst]; simpl; [exact Hk|].
    rewrite Hrst. exact Hk.
  - inversion Hall as [|? ? Ha Hall']; subst. simpl. rewrite Ha.
    rewrite (IH (a :: bef) rst cp k res); auto.
    simpl in Hk. rewrite <- app_assoc in Hk. exact Hk.
Qed.

Lemma greedy_group_run dotall n c x rst bef cp k res :
  x <> [] ->
  Forall (fun a => cset_mem dotall c a = true) x ->
  match rst with
  | [] => True
  | b :: _ => cset_mem dotall c b = false
  end ->
  k (MState (rev x ++ bef) rst ((n, x) :: cp)) = Some res ->
  run dotall (Group n (Plus true c)) (MState bef (x ++ rst) cp) k = Some res.
Proof.
  intros Hne Hall Hrst Hk. destruct x as [|a x]; [congruence|].
  inversion Hall as [|? ? Ha Hall']; subst.
  cbn [run Plus rest before caps app]. rewrite Ha.
  cbn [advance rest before caps].
  apply star_greedy_run; auto.
  cbn [set_cap rest before caps].
  rewrite (consumed_prefix bef (a :: x) rst cp).
  replace (rev x ++ a :: bef) with (rev (a :: x) ++ bef)
    by (simpl; rewrite <- app_assoc; reflexivity).
  exact Hk.
Qed.

Lemma delimiter_nonword (d : ascii) :
  d = "*"%char \/ d = "~"%char -> is_word d = false.
Proof. intros [-> | ->]; reflexivity. Qed.

(** The pattern from the opening delimiter on. *)
Lemma boundary_tail_run d x tl bef cp k res :
  d = "*"%char \/ d = "~"%char -> inline x -> breaks tl ->
  k (MState (d :: rev x ++ d :: bef) tl ((4, x) :: cp)) = Some res ->
  run false
      (Seq (Str [d]) (Seq (Group 4 (Plus true (CNot d)))
                          (Seq (Str [d]) (Look (Alt (One CNonWord) Eol)))))
      (MState bef (d :: x ++ d :: tl) cp) k = Some res.
Proof.
  intros Hd Hx Hb Hk.
  pose proof (inline_not d x Hd Hx) as Hxd. destruct Hx as [Hne _].
  rewrite run_Seq.
  rewrite (run_Str false [d] _ _ (x ++ d :: tl))
    by (simpl; rewrite Ascii.eqb_refl; reflexivity).
  cbn [rev app before caps]. rewrite run_Seq.
  apply greedy_group_run.
  - exact Hne.
  - eapply Forall_impl; [|exact Hxd]. intros a Ha. simpl.
    apply Ascii.eqb_neq in Ha. rewrite Ha. reflexivity.
  - simpl. rewrite Ascii.eqb_refl. reflexivity.
  - rewrite run_Seq.
    rewrite (run_Str false [d] _ _ tl)
      by (simpl; rewrite Ascii.eqb_refl; reflexivity).
    cbn [rev app before caps run rest].
    destruct tl as [|b r].
    + simpl. exact Hk.
    + simpl in Hb. simpl. rewrite Hb. simpl. exact Hk.
Qed.

Lemma run_Group dotall n r s k :
  run dotall (Group n r) s k
  = run dotall r s (fun s1 => k (set_cap n (consumed s s1) s1)).
Proof. reflexivity. Qed.

Lemma run_Alt_left dotall r1 r2 s k res :
  run dotall r1 s k = Some res -> run dotall (Alt r1 r2) s k = Some res.
Proof. intros H. simpl. rewrite H. reflexivity. Qed.

Lemma run_One dotall c a bef rst cp k :
  cset_mem dotall c a = true ->
  run dotall (One c) (MState bef (a :: rst) cp) k = k (MState (a :: bef) rst cp).
Proof. intros H. simpl. rewrite H. reflexivity. Qed.

Lemma run_Bol dotall rst cp k :
  run dotall Bol (MState [] rst cp) k = k (MState [] rst cp).
Proof. reflexivity. Qed.

Lemma consumed_none bef rst cp cp' : consumed (MState bef rst cp) (MState bef rst cp') = [].
Proof. unfold consumed. simpl. rewrite Nat.sub_diag. reflexivity. Qed.

Lemma mono_alt_fails dotall n a rst bef cp k :
  a <> "`"%char ->
  run dotall (seqs [Str BT3; Group n (Plus false CDot); Str BT3])
      (MState bef (a :: rst) cp) k = None.
Proof.
  intros H. cbn [seqs]. rewrite run_Seq. cbn [run rest].
  unfold BT3. cbn [T list_ascii_of_string strip_prefix].
  apply not_eq_sym in H. apply Ascii.eqb_neq in H. rewrite H. reflexivity.
Qed.

(** The match of a span at the start of the text. *)
Lemma boundary_match_at_start d x tl :
  d = "*"%char \/ d = "~"%char -> inline x -> breaks tl ->
  match_at false (boundary_re d) [] (d :: x ++ d :: tl)
  = Some (RMatch (d :: x ++ [d]) [(1, d :: x ++ [d]); (4, x); (3, [])]).
Proof.
  intros Hd Hx Hb. unfold match_at, boundary_re.
  rewrite run_Group.
  rewrite run_Alt_right
    by (apply mono_alt_fails; destruct Hd; subst; discriminate).
  cbn [seqs]. rewrite run_Seq, run_Group.
  rewrite run_Alt_right.
  - rewrite run_Bol. rewrite consumed_none. cbv beta.
    change (set_cap 3 [] (MState [] (d :: x ++ d :: tl) []))
      with (MState [] (d :: x ++ d :: tl) [(3, [])]).
    erewrite boundary_tail_run; [ | exact Hd | exact Hx | exact Hb | reflexivity].
    cbn [rest before caps].
    replace (d :: x ++ d :: tl) with ((d :: x ++ [d]) ++ tl)
      by (simpl; rewrite <- app_assoc; reflexivity).
    rewrite !consumed_prefix. unfold set_cap. cbn [rest before caps].
    rewrite !consumed_prefix. reflexivity.
  - rewrite run_One by (simpl; rewrite (delimiter_nonword d Hd); reflexivity).
    destruct Hx as [Hne Hx]. destruct x as [|x0 x]; [congruence|].
    rewrite run_Seq. cbn [set_cap rest before caps run app strip_prefix].
    assert (H0 : x0 <> d).
    { inversion Hx as [|? ? (_ & H2 & H3 & _) _]; subst.
      destruct Hd; subst; assumption. }
    apply not_eq_sym in H0. apply Ascii.eqb_neq in H0. rewrite H0. reflexivity.
Qed.

(** The match of a span after a character that is not a word character. *)
Lemma boundary_match_after d s x tl bef :
  d = "*"%char \/ d = "~"%char -> is_word s = false -> s <> "`"%char ->
  inline x -> breaks tl ->
  match_at false (boundary_re d) bef (s :: d :: x ++ d :: tl)
  = Some (RMatch (s :: d :: x ++ [d]) [(1, s :: d :: x ++ [d]); (4, x); (3, [s])]).
Proof.
  intros Hd Hs Hs' Hx Hb. unfold match_at, boundary_re.
  rewrite run_Group.
  rewrite run_Alt_right by (apply mono_alt_fails; exact Hs').
  cbn [seqs]. rewrite run_Seq, run_Group.
  erewrite run_Alt_left; cycle 1.
  { rewrite run_One by (simpl; rewrite Hs; reflexivity).
    replace (consumed (MState bef (s :: d :: x ++ d :: tl) [])
               (MState (s :: bef) (d :: x ++ d :: tl) []))
      with [s]
      by (symmetry; apply (consumed_prefix bef [s] (d :: x ++ d :: tl) [])).
    change (set_cap 3 [s] (MState (s :: bef) (d :: x ++ d :: tl) []))
      with (MState (s :: bef) (d :: x ++ d :: tl) [(3, [s])]).
    erewrite boundary_tail_run; [ | exact Hd | exact Hx | exact Hb | reflexivity].
    reflexivity. }
  cbn [rest before caps].
  replace (s :: d :: x ++ d :: tl) with ((s :: d :: x ++ [d]) ++ tl)
    by (simpl; rewrite <- app_assoc; reflexivity).
  rewrite !consumed_prefix. unfold set_cap. cbn [rest before caps].
  rewrite !consumed_prefix. reflexivity.
Qed.

Lemma sub_loop_few d tag tl bef :
  occ d tl <= 1 -> occ "`"%char tl <= 5 ->
  sub_loop false (boundary_re d) (boundary_repl tag) bef tl 0 = tl.
Proof.
  intros H1 H4.
  apply sub_loop_id with (P := fun q => occ d q <= 1 /\ occ "`"%char q <= 5);
    [ | | auto].
  - intros a q. simpl. lia.
  - intros bef' q [Hq1 Hq4].
    destruct (match_at false (boundary_re d) bef' q) as [m|] eqn:E; [|reflexivity].
    apply match_at_sound in E. destruct E as (q' & -> & L).
    apply boundary_needs in L. rewrite occ_app in Hq1, Hq4. lia.
Qed.

Lemma boundary_repl_span tag w x g3 :
  x <> [] ->
  boundary_repl tag (RMatch w [(1, w); (4, x); (3, g3)])
  = g3 ++ T "<" ++ tag ++ T ">" ++ x ++ T "</" ++ tag ++ T ">".
Proof. intros H. destruct x; [congruence|]. reflexivity. Qed.

Ltac app_norm :=
  repeat (simpl; rewrite <- ?app_assoc); simpl; reflexivity.

(** The pass of the delimiter [d] on a span at the start of the text or
    after a character that is not a word character, the text around the
    span being free of delimiters. *)
Lemma boundary_pass_span_formatted d tag pre x tl :
  d = "*"%char \/ d = "~"%char -> inline x ->
  pre = [] \/ (plain pre /\ exists p s, pre = p ++ [s] /\ is_word s = false) ->
  breaks tl -> plain tl ->
  re_sub false (boundary_re d) (boundary_repl tag) (pre ++ d :: x ++ d :: tl)
  = pre ++ T "<" ++ tag ++ T ">" ++ x ++ T "</" ++ tag ++ T ">" ++ tl.
Proof.
  intros Hd Hx Hpre Hb Hp. unfold re_sub.
  assert (Hdd : d = "_"%char \/ d = "*"%char \/ d = "~"%char \/ d = "`"%char)
    by (destruct Hd; auto).
  assert (Htl : forall bef,
             sub_loop false (boundary_re d) (boundary_repl tag) bef tl 0 = tl).
  { intros bef. apply sub_loop_few.
    - rewrite (plain_occ tl d Hp Hdd). lia.
    - rewrite (plain_occ tl "`"%char Hp) by auto. lia. }
  assert (Hne : x <> []) by apply Hx.
  destruct Hpre as [-> | (Hpl & p & s & -> & Hs)].
  - simpl app.
    replace (d :: x ++ d :: tl) with ((d :: x ++ [d]) ++ tl)
      by (simpl; rewrite <- app_assoc; reflexivity).
    rewrite (sub_loop_match false (boundary_re d) (boundary_repl tag)
               [] (d :: x ++ [d]) tl
               (RMatch (d :: x ++ [d]) [(1, d :: x ++ [d]); (4, x); (3, [])]));
      [ | simpl; rewrite <- app_assoc; apply boundary_match_at_start; assumption
        | reflexivity | discriminate ].
    rewrite Htl, boundary_repl_span by exact Hne.
    app_norm.
  - rewrite <- app_assoc. rewrite sub_loop_prefix.
    + replace ([s] ++ d :: x ++ d :: tl) with ((s :: d :: x ++ [d]) ++ tl)
        by (simpl; rewrite <- app_assoc; reflexivity).
      assert (Hs' : s <> "`"%char).
      { unfold plain in Hpl. apply Forall_app in Hpl. destruct Hpl as [_ F].
        inversion F as [|? ? (_ & _ & _ & H) _]. exact H. }
      rewrite (sub_loop_match false (boundary_re d) (boundary_repl tag)
                 (rev p ++ []) (s :: d :: x ++ [d]) tl
                 (RMatch (s :: d :: x ++ [d])
                    [(1, s :: d :: x ++ [d]); (4, x); (3, [s])]));
        [ | simpl; rewrite <- app_assoc; apply boundary_match_after; assumption
          | reflexivity | discriminate ].
      rewrite Htl, boundary_repl_span by exact Hne.
      app_norm.
    + intros p1 a p2 E. subst p.
      unfold plain in Hpl. rewrite <- app_assoc in Hpl. apply Forall_app in Hpl.
      destruct Hpl as [_ F]. simpl in F.
      inversion F as [|? ? (Ha1 & Ha2 & Ha3 & Ha4) F2]; subst.
      assert (Had : a <> d) by (destruct Hd; subst; assumption).
      destruct p2 as [|b p2]; simpl.
      * apply boundary_no_match_plain; auto.
        inversion F2 as [|? ? (Hb1 & Hb2 & Hb3 & Hb4) _]; subst.
        destruct Hd; subst; assumption.
      * apply boundary_no_match_plain; auto.
        inversion F2 as [|? ? (Hb1 & Hb2 & Hb3 & Hb4) _]; subst.
        destruct Hd; subst; assumption.
Qed.

Lemma occ_span_text (e d : ascii) pre x tl :
  plain pre -> inline x -> plain tl ->
  e = "_"%char \/ e = "*"%char \/ e = "~"%char \/ e = "`"%char ->
  occ e (pre ++ d :: x ++ d :: tl) = occ e [d] + occ e [d].
Proof.
  intros Hpre Hx Htl He.
  change (d :: x ++ d :: tl) with ([d] ++ x ++ [d] ++ tl).
  rewrite !occ_app, (plain_occ pre e Hpre He), (inline_occ x e Hx),
    (plain_occ tl e Htl He).
  - lia.
  - destruct He as [->|[->|[->| ->]]]; auto 6.
Qed.

Lemma occ_span_result (e : ascii) tag pre x tl :
  plain pre -> inline x -> plain tl ->
  e = "_"%char \/ e = "*"%char \/ e = "~"%char \/ e = "`"%char ->
  tag = T "strong" \/ tag = T "del" ->
  occ e (pre ++ T "<" ++ tag ++ T ">" ++ x ++ T "</" ++ tag ++ T ">" ++ tl) = 0.
Proof.
  intros Hpre Hx Htl He Ht.
  rewrite !occ_app, (plain_occ pre e Hpre He), (inline_occ x e Hx),
    (plain_occ tl e Htl He).
  - destruct Ht as [-> | ->]; destruct He as [->|[->|[->| ->]]]; reflexivity.
  - destruct He as [->|[->|[->| ->]]]; auto 6.
Qed.

(** Detection on a span of bold or strikethrough in text without
    delimiters. *)
Lemma detect_delimited_span (d : ascii) (pre x tl : text)
  (Hd : d = "*"%char \/ d = "~"%char) (Hx : inline x)
  (Hpre : pre = [] \/ (plain pre /\ exists p s, pre = p ++ [s] /\ is_word s = false))
  (Hb : breaks tl) (Hp : plain tl) :
  parse_markdown (pre ++ d :: x ++ d :: tl) true
  = pre ++ T "<" ++ tag_of d ++ T ">" ++ x ++ T "</" ++ tag_of d ++ T ">" ++ tl.
Proof.
  assert (Hpl : plain pre).
  { destruct Hpre as [-> | [H _]]; [constructor|exact H]. }
  unfold parse_markdown.
  rewrite italic_pass_few;
    [ | rewrite occ_span_text by auto; destruct Hd; subst; simpl; lia
      | rewrite occ_span_text by auto; destruct Hd; subst; simpl; lia ].
  destruct Hd as [-> | ->].
  - unfold bold_pass, bold_re.
    rewrite boundary_pass_span_formatted by auto.
    unfold strike_pass, strike_re.
    rewrite boundary_pass_few; [ | rewrite occ_span_result by auto; lia
                                 | rewrite occ_span_result by auto; lia ].
    rewrite mono_pass_few by (rewrite occ_span_result by auto; lia).
    reflexivity.
  - unfold bold_pass, bold_re.
    rewrite boundary_pass_few;
      [ | rewrite occ_span_text by auto; simpl; lia
        | rewrite occ_span_text by auto; simpl; lia ].
    unfold strike_pass, strike_re.
    rewrite boundary_pass_span_formatted by auto.
    rewrite mono_pass_few by (rewrite occ_span_result by auto; lia).
    reflexivity.
Qed.

(** The boundary rule, formatting side: a span of [*] (of [~]) with a
    non-empty interior free of delimiters and newlines, at the start of the
    text or after a character that is not a word character, and at the end
    of the text or before such a character, is rendered between [strong]
    (between [del]) tags, the text around it being free of delimiters. *)
Theorem delimited_span_is_formatted (d : ascii) (pre x tl : text)
  (Hd : d = "*"%char \/ d = "~"%char) (Hx : inline x)
  (Hpre : pre = [] \/ (plain pre /\ exists p s, pre = p ++ [s] /\ is_word s = false))
  (Hb : breaks tl) (Hp : plain tl) :
  parse_markdown (pre ++ d :: x ++ d :: tl) true
  = pre ++ T "<" ++ tag_of d ++ T ">" ++ x ++ T "</" ++ tag_of d ++ T ">" ++ tl.
Proof.
  exact (detect_delimited_span d pre x tl Hd Hx Hpre Hb Hp).
Qed.

Lemma delimited_span_is_formatted_witness :
  parse_markdown (T "say " ++ "*"%char :: T "hi" ++ "*"%char :: T " there") true
  = T "say " ++ T "<" ++ tag_of "*" ++ T ">" ++ T "hi" ++ T "</" ++ tag_of "*"
    ++ T ">" ++ T " there".
Proof.
  apply (delimited_span_is_formatted "*" (T "say ") (T "hi") (T " there")).
  - left; reflexivity.
  - split; [discriminate|]. repeat constructor; discriminate.
  - right. split.
    + unfold plain. repeat constructor; discriminate.
    + exists (T "say"), " "%char. split; reflexivity.
  - reflexivity.
  - unfold plain. repeat constructor; discriminate.
Defined.

(** ** Italic spans and underscores inside words *)

Lemma sub_loop_id_ctx dotall r repl (P : text -> text -> Prop) :
  (forall bef a q, P bef (a :: q) -> P (a :: bef) q) ->
  (forall bef q, P bef q -> match_at dotall r bef q = None) ->
  forall q bef, P bef q -> sub_loop dotall r repl bef q 0 = q.
Proof.
  intros Hstep Hno. induction q as [|a q IH]; intros bef HP.
  - rewrite sub_loop_end by (apply Hno; exact HP). reflexivity.
  - rewrite sub_loop_pass by (apply Hno; exact HP). f_equal.
    apply IH. apply Hstep. exact HP.
Qed.

Lemma italic_no_match_guarded bef q :
  guarded (word_at bef) q -> occ "`"%char q <= 5 ->
  match_at false italic_re bef q = None.
Proof.
  intros Hg Hb.
  destruct (match_at false italic_re bef q) as [m|] eqn:E; [|reflexivity].
  exfalso. apply match_at_sound_in in E. destruct E as (rst' & E & L).
  revert E L. generalize (group0 m). intros w E L.
  unfold italic_re, Plus, BT3 in L. simpl in L.
  destruct L as [L|L].
  - destruct L as (w1 & w2 & -> & -> & w3 & w4 & -> & _ & ->).
    subst q. rewrite !occ_app in Hb. simpl in Hb. lia.
  - destruct L as (w1 & w2 & -> & [-> Hw] & w3 & w4 & -> & -> & _).
    subst q. simpl in Hg. destruct Hg as [Hg _].
    unfold at_boundary in Hw. simpl in Hw.
    rewrite (Hg eq_refl) in Hw. discriminate.
Qed.

(** The italic pass leaves alone a text in which every underscore comes
    after a word character, as in [snake_case]. *)
Lemma italic_pass_guarded s :
  guarded false s -> occ "`"%char s <= 5 -> italic_pass s = s.
Proof.
  intros Hg Hb. unfold italic_pass, re_sub.
  apply sub_loop_id_ctx
    with (P := fun bef q => guarded (word_at bef) q /\ occ "`"%char q <= 5).
  - intros bef a q [[_ H] H4]. split; [exact H|]. simpl in H4. lia.
  - intros bef q [H H4]. apply italic_no_match_guarded; assumption.
  - split; assumption.
Qed.

(** Underscores inside words are no markup: a text in which every
    underscore comes after a word character, with at most one [*], at most
    one [~] and fewer than six backticks, is unchanged by detection. *)
Theorem underscores_in_words_are_literal (s : text)
  (Hg : guarded false s)
  (H2 : occ "*"%char s <= 1) (H3 : occ "~"%char s <= 1)
  (H4 : occ "`"%char s <= 5) :
  parse_markdown s true = s /\ has_markup s = false.
Proof.
  assert (E : parse_markdown s true = s).
  { unfold parse_markdown. rewrite (italic_pass_guarded s Hg H4).
    unfold bold_pass, bold_re. rewrite boundary_pass_few by assumption.
    unfold strike_pass, strike_re. rewrite boundary_pass_few by assumption.
    apply mono_pass_few, H4. }
  split; [exact E|]. unfold has_markup. rewrite E, text_eqb_refl. reflexivity.
Qed.

Lemma underscores_in_words_are_literal_witness :
  parse_markdown (T "set my_var_name to other_name_") true
  = T "set my_var_name to other_name_" /\
  has_markup (T "set my_var_name to other_name_") = false.
Proof.
  apply (underscores_in_words_are_literal (T "set my_var_name to other_name_")).
  - simpl. repeat split; try discriminate; reflexivity.
  - simpl. lia.
  - simpl. lia.
  - simpl. lia.
Defined.

Lemma italic_pass_span_formatted pre x tl :
  inline x ->
  pre = [] \/ (plain pre /\ exists p s, pre = p ++ [s] /\ is_word s = false) ->
  plain tl ->
  italic_pass (pre ++ "_"%char :: x ++ "_"%char :: tl)
  = pre ++ T "<em>" ++ x ++ T "</em>" ++ tl.
Proof.
  intros Hx Hpre Hp. unfold italic_pass, re_sub.
  assert (Hpl : plain pre).
  { destruct Hpre as [-> | [H _]]; [constructor|exact H]. }
  assert (Hw : word_at (rev pre ++ []) = false).
  { destruct Hpre as [-> | (_ & p & s & -> & Hs)]; [reflexivity|].
    rewrite rev_app_distr. simpl. exact Hs. }
  rewrite sub_loop_prefix.
  - replace ("_"%char :: x ++ "_"%char :: tl)
      with (("_"%char :: x ++ ["_"%char]) ++ tl)
      by (simpl; rewrite <- app_assoc; reflexivity).
    rewrite (sub_loop_match false italic_re italic_repl (rev pre ++ [])
               ("_"%char :: x ++ ["_"%char]) tl
               (RMatch ("_"%char :: x ++ ["_"%char]) [(2, x)]));
      [ | simpl; rewrite <- app_assoc; apply italic_match_em; assumption
        | reflexivity | discriminate ].
    rewrite (sub_loop_id false italic_re italic_repl
               (fun q => occ "_"%char q <= 1 /\ occ "`"%char q <= 5)).
    + destruct Hx as [Hne _]. destruct x as [|x0 x]; [congruence|].
      unfold italic_repl. cbn [gtruthy group get_cap Nat.eqb gtext].
      app_norm.
    + intros a q. simpl. lia.
    + intros bef q [Hq1 Hq4].
      destruct (match_at false italic_re bef q) as [m|] eqn:E; [|reflexivity].
      apply match_at_sound in E. destruct E as (q' & -> & L).
      apply italic_needs in L. rewrite occ_app in Hq1, Hq4. lia.
    + rewrite !(plain_occ tl) by auto. lia.
  - intros p1 a p2 E. destruct (plain_split _ _ _ _ Hpl E) as [(H1 & _ & _ & H4) _].
    apply italic_no_match_plain; assumption.
Qed.

Lemma occ_em_result (e : ascii) pre x tl :
  plain pre -> inline x -> plain tl ->
  e = "*"%char \/ e = "~"%char \/ e = "`"%char ->
  occ e (pre ++ T "<em>" ++ x ++ T "</em>" ++ tl) = 0.
Proof.
  intros Hpre Hx Htl He.
  assert (He' : e = "_"%char \/ e = "*"%char \/ e = "~"%char \/ e = "`"%char)
    by (destruct He as [->|[->| ->]]; auto).
  rewrite !occ_app, (plain_occ pre e Hpre He'), (inline_occ x e Hx),
    (plain_occ tl e Htl He').
  - destruct He as [->|[->| ->]]; reflexivity.
  - destruct He as [->|[->| ->]]; auto 6.
Qed.

(** Detection on an italic span in text without delimiters. *)
Lemma detect_underscore_span (pre x tl : text)
  (Hx : inline x)
  (Hpre : pre = [] \/ (plain pre /\ exists p s, pre = p ++ [s] /\ is_word s = false))
  (Hp : plain tl) :
  parse_markdown (pre ++ "_"%char :: x ++ "_"%char :: tl) true
  = pre ++ T "<em>" ++ x ++ T "</em>" ++ tl.
Proof.
  assert (Hpl : plain pre).
  { destruct Hpre as [-> | [H _]]; [constructor|exact H]. }
  unfold parse_markdown. rewrite italic_pass_span_formatted by assumption.
  unfold bold_pass, bold_re.
  rewrite boundary_pass_few by (rewrite occ_em_result by auto; lia).
  unfold strike_pass, strike_re.
  rewrite boundary_pass_few by (rewrite occ_em_result by auto; lia).
  apply mono_pass_few. rewrite occ_em_result by auto. lia.
Qed.

(** An italic span: [_x_] with a non-empty interior free of delimiters and
    newlines, at the start of the text or after a character that is not a
    word character, is rendered between [em] tags, whatever character
    follows the closing underscore, the text around the span being free of
    delimiters. *)
Theorem underscore_span_is_italic (pre x tl : text)
  (Hx : inline x)
  (Hpre : pre = [] \/ (plain pre /\ exists p s, pre = p ++ [s] /\ is_word s = false))
  (Hp : plain tl) :
  parse_markdown (pre ++ "_"%char :: x ++ "_"%char :: tl) true
  = pre ++ T "<em>" ++ x ++ T "</em>" ++ tl.
Proof.
  exact (detect_underscore_span pre x tl Hx Hpre Hp).
Qed.

Lemma underscore_span_is_italic_witness :
  parse_markdown (T "so " ++ "_"%char :: T "very" ++ "_"%char :: T "good") true
  = T "so " ++ T "<em>" ++ T "very" ++ T "</em>" ++ T "good".
Proof.
  apply (underscore_span_is_italic (T "so ") (T "very") (T "good")).
  - split; [discriminate|]. repeat constructor; discriminate.
  - right. split.
    + unfold plain. repeat constructor; discriminate.
    + exists (T "so"), " "%char. split; reflexivity.
  - unfold plain. repeat constructor; discriminate.
Defined.

(* ------------------------------------------------------------------ *)
(** ** The assembler: deleted messages, notices and lines before the
       first header *)

Lemma attachment_marker_empty dir next :
  attachment_marker dir [] next = (None, [], false).
Proof. reflexivity. Qed.

(** A header whose body is one of the two deletion phrases yields a
    redacted message without content, format or attachment, and leaves the
    next line to the loop, whatever that line is. *)
Theorem deleted_message_is_redacted
  (exists_file : text -> bool) (filepath chat_id : text)
  (group_users : dict member) (m : rmatch) (next : option text) (id : nat)
  (u : member) (ts : timestamp)
  (Hdel : gtext m 7 = T "This message was deleted" \/
          gtext m 7 = T "You deleted this message")
  (Hu : dict_get group_users (gtext m 6) = Some u)
  (Hts : datetime (int_of (T "20" ++ gtext m 3)) (int_of (gtext m 2))
           (int_of (gtext m 1)) (int_of (gtext m 4)) (int_of (gtext m 5)) = Ok ts) :
  header_message exists_file filepath chat_id group_users m next id
  = Ok (Message id (user_id u) (gtext m 6) (avatar u) (color u) ts Redacted
          None None None None, false).
Proof.
  unfold header_message.
  assert (Hb : body_of m = (Redacted, [])).
  { unfold body_of, is_deleted.
    destruct Hdel as [-> | ->]; reflexivity. }
  rewrite Hb. cbn [fst snd]. rewrite attachment_marker_empty.
  cbn [copy_attachment bind strip lstrip rstrip rev formatting].
  rewrite Hu, Hts. reflexivity.
Qed.

Lemma update_last_same f msgs :
  (forall m, f m = m) -> update_last f msgs = msgs.
Proof.
  intros Hf.
  destruct (update_last_cases f msgs) as [[-> ->]|(l & x & -> & ->)];
    [reflexivity|]. rewrite Hf. reflexivity.
Qed.

(** A system notice changes nothing: the loop goes on with the same
    messages, whether the notice was to be skipped or not. *)
Theorem system_notice_is_ignored
  (exists_file : text -> bool) (filepath chat_id : text)
  (group_users : dict member) (line : text) (rest : list text)
  (skip : bool) (msgs : list message)
  (Hc : classify line = SystemNotice) :
  assemble exists_file filepath chat_id group_users (line :: rest) skip msgs
  = assemble exists_file filepath chat_id group_users rest false msgs.
Proof.
  unfold classify in Hc.
  destruct (matches pattern line) eqn:Hp; [discriminate|].
  destruct (matches skip_pattern line) eqn:Hs; [|discriminate].
  simpl. destruct skip; [reflexivity|].
  unfold matches in Hp. destruct (re_match pattern line); [discriminate|].
  destruct msgs as [|m0 msgs']; [reflexivity|].
  rewrite update_last_same; [reflexivity|].
  intros msg. unfold continue_message. rewrite Hs.
  rewrite andb_false_r. reflexivity.
Qed.

(** The lines before the first header line are dropped: a transcript gives
    the messages of what follows them, and a transcript without any header
    line gives no message. *)
Theorem lines_before_first_header_are_dropped
  (exists_file : text -> bool) (filepath chat_id : text)
  (group_users : dict member) (pre lines : list text)
  (Hpre : forall l, In l pre -> classify l <> MessageHeader) :
  backup_messages_lines exists_file filepath chat_id group_users (pre ++ lines)
  = backup_messages_lines exists_file filepath chat_id group_users lines /\
  backup_messages_lines exists_file filepath chat_id group_users pre = Ok [].
Proof.
  unfold backup_messages_lines.
  assert (Hno : forall l, In l pre -> re_match pattern l = None).
  { intros l Hl. specialize (Hpre l Hl). unfold classify, matches in Hpre.
    destruct (re_match pattern l); [congruence|reflexivity]. }
  clear Hpre. split.
  - induction pre as [|l pre IH]; [reflexivity|].
    simpl. rewrite (Hno l) by (left; reflexivity).
    apply IH. intros l' Hl'. apply Hno. right. exact Hl'.
  - induction pre as [|l pre IH]; [reflexivity|].
    simpl. rewrite (Hno l) by (left; reflexivity).
    apply IH. intros l' Hl'. apply Hno. right. exact Hl'.
Qed.

Lemma deleted_message_is_redacted_witness :
  let m := RMatch (T "01/01/23, 09:00 - Ann: This message was deleted")
             [(7, T "This message was deleted"); (6, T "Ann"); (5, T "00");
              (4, T "09"); (3, T "23"); (2, T "01"); (1, T "01")] in
  let u := Member (T "912") (T "ann.png") None in
  header_message (fun _ => true) (T "exports/chat/c.txt") (T "c1") [(T "Ann", u)]
    m (Some (T "IMG-001.jpg (file attached)")) 0
  = Ok (Message 0 (user_id u) (gtext m 6) (avatar u) (color u)
          (Timestamp 2023 1 1 9 0) Redacted None None None None, false).
Proof.
  intros m u.
  apply (deleted_message_is_redacted (fun _ => true) (T "exports/chat/c.txt")
           (T "c1") [(T "Ann", u)] m (Some (T "IMG-001.jpg (file attached)")) 0
           u (Timestamp 2023 1 1 9 0)).
  - left. reflexivity.
  - reflexivity.
  - vm_compute. reflexivity.
Defined.

Lemma system_notice_is_ignored_witness :
  assemble (fun _ => true) (T "exports/chat/c.txt") (T "c1") []
    [T "01/01/23, 09:00 - Messages are end-to-end encrypted";
     T "01/01/23, 09:01 - Ann: hi"] false []
  = assemble (fun _ => true) (T "exports/chat/c.txt") (T "c1") []
      [T "01/01/23, 09:01 - Ann: hi"] false [].
Proof.
  apply (system_notice_is_ignored (fun _ => true) (T "exports/chat/c.txt")
           (T "c1") [] (T "01/01/23, 09:00 - Messages are end-to-end encrypted")
           [T "01/01/23, 09:01 - Ann: hi"] false []).
  vm_compute. reflexivity.
Defined.

Lemma lines_before_first_header_are_dropped_witness :
  let pre := [T "exported chat"; T "01/01/23, 09:00 - Ann joined"] in
  let lines := [T "01/01/23, 09:01 - Ann: hi"] in
  let gu := [(T "Ann", Member (T "912") (T "ann.png") None)] in
  backup_messages_lines (fun _ => true) (T "exports/chat/c.txt") (T "c1") gu
    (pre ++ lines)
  = backup_messages_lines (fun _ => true) (T "exports/chat/c.txt") (T "c1") gu lines /\
  backup_messages_lines (fun _ => true) (T "exports/chat/c.txt") (T "c1") gu pre
  = Ok [].
Proof.
  intros pre lines gu.
  apply (lines_before_first_header_are_dropped (fun _ => true)
           (T "exports/chat/c.txt") (T "c1") gu pre lines).
  intros l [<-|[<-|[]]]; vm_compute; discriminate.
Defined.

(* ------------------------------------------------------------------ *)
(** ** The assembler: errors of a header line *)

(** A header line of an unknown sender, whose attachment if any has been
    copied, ends the assembler with [KeyError]; a header line of a known
    sender with a date that does not exist ends it with [ValueError].  In
    both cases the messages assembled so far are lost. *)
Theorem header_errors
  (exists_file : text -> bool) (filepath chat_id : text)
  (group_users : dict member) (line : text) (rest : list text)
  (msgs : list message) (m : rmatch) (att : option text)
  (Hm : re_match pattern line = Some m)
  (Hc : copy_attachment exists_file chat_id
          (fst (fst (attachment_marker (dirname filepath) (snd (body_of m))
                       (hd_error rest)))) = Ok att) :
  (dict_get group_users (gtext m 6) = None ->
   assemble exists_file filepath chat_id group_users (line :: rest) false msgs
   = Err (KeyError (gtext m 6))) /\
  (dict_get group_users (gtext m 6) <> None ->
   datetime (int_of (T "20" ++ gtext m 3)) (int_of (gtext m 2))
     (int_of (gtext m 1)) (int_of (gtext m 4)) (int_of (gtext m 5))
   = Err ValueError ->
   assemble exists_file filepath chat_id group_users (line :: rest) false msgs
   = Err ValueError).
Proof.
  split.
  - intros Hu. simpl. rewrite Hm. unfold header_message.
    destruct (attachment_marker (dirname filepath) (snd (body_of m))
                (hd_error rest)) as [[a c] sk].
    simpl in Hc. rewrite Hc. simpl.
    destruct (formatting (strip c)). rewrite Hu. reflexivity.
  - intros Hu Hd. cbn [assemble]. rewrite Hm. unfold header_message.
    destruct (attachment_marker (dirname filepath) (snd (body_of m))
                (hd_error rest)) as [[a c] sk].
    cbn [fst snd] in Hc. rewrite Hc. cbn [bind].
    destruct (formatting (strip c)).
    destruct (dict_get group_users (gtext m 6)); [|congruence].
    rewrite Hd. reflexivity.
Qed.

(** A date is accepted exactly when the month is from 1 to 12, the day
    from 1 to the length of that month, the hour at most 23 and the minute
    at most 59, for a year of this century. *)
Lemma datetime_accepts yy mo d h mi :
  yy < 100 ->
  (exists ts, datetime (2000 + yy) mo d h mi = Ok ts) <->
  (1 <= mo <= 12 /\ 1 <= d <= days_in_month (2000 + yy) mo /\ h <= 23 /\ mi <= 59).
Proof.
  intros Hy. unfold datetime.
  assert (H1 : (1 <=? 2000 + yy) = true) by (apply Nat.leb_le; lia).
  assert (H2 : (2000 + yy <=? 9999) = true).
  { apply Nat.leb_le. change 9999 with (9 * 1111). lia. }
  rewrite H1, H2. cbn [andb].
  set (b := (1 <=? mo) && (mo <=? 12) && (1 <=? d) &&
            (d <=? days_in_month (2000 + yy) mo) && (h <=? 23) && (mi <=? 59)).
  assert (Hb : b = true <->
               (1 <= mo <= 12 /\ 1 <= d <= days_in_month (2000 + yy) mo /\
                h <= 23 /\ mi <= 59)).
  { unfold b. rewrite !andb_true_iff, !Nat.leb_le. tauto. }
  split.
  - intros [ts H]. apply Hb. destruct b; [reflexivity|discriminate].
  - intros H. apply Hb in H. rewrite H. eauto.
Qed.

Lemma header_errors_witness :
  let gu := [(T "Ann", Member (T "912") (T "ann.png") None)] in
  let m := RMatch (T "31/02/23, 09:00 - Bob: hi")
             [(7, T "hi"); (6, T "Bob"); (5, T "00"); (4, T "09"); (3, T "23");
              (2, T "02"); (1, T "31")] in
  (dict_get gu (gtext m 6) = None ->
   assemble (fun _ => true) (T "exports/chat/c.txt") (T "c1") gu
     (T "31/02/23, 09:00 - Bob: hi" :: []) false []
   = Err (KeyError (gtext m 6))) /\
  (dict_get gu (gtext m 6) <> None ->
   datetime (int_of (T "20" ++ gtext m 3)) (int_of (gtext m 2))
     (int_of (gtext m 1)) (int_of (gtext m 4)) (int_of (gtext m 5))
   = Err ValueError ->
   assemble (fun _ => true) (T "exports/chat/c.txt") (T "c1") gu
     (T "31/02/23, 09:00 - Bob: hi" :: []) false []
   = Err ValueError).
Proof.
  intros gu m.
  apply (header_errors (fun _ => true) (T "exports/chat/c.txt") (T "c1") gu
           (T "31/02/23, 09:00 - Bob: hi") [] [] m None);
    vm_compute; reflexivity.
Defined.

(* ------------------------------------------------------------------ *)
(** ** The assembler: attachment references *)

Lemma after_last_clean sep s : existsb sep (after_last sep s) = false.
Proof.
  induction s as [|c s IH]; [reflexivity|].
  simpl. destruct (existsb sep s) eqn:E; [exact IH|].
  destruct (sep c) eqn:Ec; [exact E|].
  simpl. rewrite Ec, E. reflexivity.
Qed.

(** Every attachment reference of a message returned is the chat id, a
    slash and a file name in which no slash and no backslash occurs,
    whatever path the transcript names. *)
Theorem attachment_reference_is_chat_and_file_name
  (exists_file : text -> bool) (filepath chat_id : text)
  (group_users : dict member) (lines : list text) (msgs : list message)
  (H : backup_messages_lines exists_file filepath chat_id group_users lines = Ok msgs) :
  Forall (fun msg => forall l a, m_attachments msg = Some l -> In a l ->
                                 chat_reference chat_id a) msgs.
Proof.
  unfold backup_messages_lines in H.
  eapply assemble_Forall; [ | | | exact H].
  - intros m next id msg sk Hh. apply header_message_ok in Hh.
    destruct Hh as (att & content & att' & u & ts & _ & Hc & _ & ->).
    simpl. intros l a Hl Ha. unfold copy_attachment in Hc.
    destruct att as [src|].
    + destruct (exists_file src); [|discriminate]. inversion Hc; subst.
      inversion Hl; subst. destruct Ha as [<-|[]].
      exists (basename src). split; [reflexivity|]. apply after_last_clean.
    + inversion Hc; subst. discriminate.
  - intros line msg HP. rewrite continue_message_attachments. exact HP.
  - constructor.
Qed.

Lemma attachment_reference_is_chat_and_file_name_witness :
  let lines := [T "01/01/23, 09:00 - Ann: ../../etc/passwd (file attached)"] in
  let gu := [(T "Ann", Member (T "912") (T "ann.png") None)] in
  Forall (fun msg => forall l a, m_attachments msg = Some l -> In a l ->
                                 chat_reference (T "c1") a)
    (value_or [] (backup_messages_lines (fun _ => true) (T "exports/chat/c.txt")
                    (T "c1") gu lines)).
Proof.
  intros lines gu.
  apply (attachment_reference_is_chat_and_file_name (fun _ => true)
           (T "exports/chat/c.txt") (T "c1") gu lines).
  vm_compute. reflexivity.
Defined.

(* ------------------------------------------------------------------ *)
(** ** The user registry: what the prompts accept *)

Section PromptFacts.

Variable exists_file : text -> bool.
Variable uuid : nat -> text.
Variable info_users : option (dict user_info).
Variable existing_users : dict member.

(** The avatar accepted is the name of a file that exists. *)
Lemma ask_avatar_ok ins : forall a out a' ins' out',
  ask_avatar exists_file ins a out = Ok (a', ins', out') ->
  a' <> [] /\ exists_file a' = true.
Proof.
  induction ins as [|l ls IH]; intros a out a' ins' out' H; simpl in H.
  - destruct a as [|c a]; [discriminate|].
    destruct (exists_file (c :: a)) eqn:E; [|discriminate].
    inversion H; subst. split; [discriminate|exact E].
  - destruct a as [|c a].
    + apply IH in H. exact H.
    + destruct (exists_file (c :: a)) eqn:E.
      * inversion H; subst. split; [discriminate|exact E].
      * apply IH in H. exact H.
Qed.

(** The colour accepted is a valid one, or none. *)
Lemma ask_color_ok ins : forall c out c' ins' out',
  ask_color ins c out = Ok (c', ins', out') ->
  c' = None \/ exists col, c' = Some col /\ validate_color col = true.
Proof.
  induction ins as [|l ls IH]; intros c out c' ins' out' H; simpl in H.
  - destruct (validate_color c) eqn:E; [|discriminate].
    inversion H; subst. right. eauto.
  - destruct (validate_color c) eqn:E.
    + inversion H; subst. right. eauto.
    + destruct (lower (strip l)) as [|x col] eqn:El.
      * inversion H; subst. left. reflexivity.
      * apply IH in H. exact H.
Qed.

(** What the loop that asks for the phone number leaves behind. *)
Lemma ask_id_ok fuel : forall name st r st',
  ask_id existing_users fuel name st = Ok (r, st') ->
  new_users st' = new_users st /\ existing_ids st' = existing_ids st /\
  copied st' = copied st /\ uuids st' = uuids st /\
  match r with
  | None =>
      exists u, dict_get existing_users name = Some u /\
                group_users_of st' = dict_set (group_users_of st) name u
  | Some id =>
      group_users_of st' = group_users_of st /\ id <> [] /\
      existsb (text_eqb id) (existing_ids st) = false
  end.
Proof.
  induction fuel as [|fuel IH]; intros name st r st' H; [discriminate|].
  simpl in H.
  destruct (dict_get existing_users name) as [u|] eqn:Eu.
  - destruct (ask_skip (inputs st)) as [[b ins]|e]; [|discriminate].
    simpl in H. destruct b; simpl in H.
    + inversion H; subst. simpl. repeat split; eauto.
    + unfold read in H. simpl in H. destruct ins as [|l ls]; [discriminate|].
      simpl in H.
      destruct (existsb (text_eqb (strip l)) (existing_ids st)) eqn:E.
      * apply IH in H. simpl in H. rewrite Eu in H. exact H.
      * destruct (strip l) eqn:El.
        -- apply IH in H. simpl in H. rewrite Eu in H. exact H.
        -- inversion H; subst. simpl. repeat split; auto. discriminate.
  - simpl in H. unfold read in H. destruct (inputs st) as [|l ls]; [discriminate|].
    simpl in H.
    destruct (existsb (text_eqb (strip l)) (existing_ids st)) eqn:E.
    + apply IH in H. simpl in H. rewrite Eu in H. exact H.
    + destruct (strip l) eqn:El.
      * apply IH in H. simpl in H. rewrite Eu in H. exact H.
      * inversion H; subst. simpl. repeat split; auto. discriminate.
Qed.

End PromptFacts.

(** One turn of the loop over the names, for a name that [info.json] does
    not describe. *)
Lemma backup_user_prompted
  (exists_file : text -> bool) (uuid : nat -> text)
  (info_users : option (dict user_info)) (existing_users : dict member)
  (name : text) (st st' : ustate)
  (Hinfo : match info_users with
           | Some us => dict_get us name
           | None => None
           end = None)
  (H : backup_user exists_file uuid info_users existing_users name st = Ok st') :
  (exists u, dict_get existing_users name = Some u /\
             group_users_of st' = dict_set (group_users_of st) name u /\
             new_users st' = new_users st /\
             existing_ids st' = existing_ids st /\ copied st' = copied st) \/
  (exists id src target color,
     group_users_of st' = dict_set (group_users_of st) name (Member id target color) /\
     new_users st' = dict_set (new_users st) id (NewUser name target color) /\
     id <> [] /\ existsb (text_eqb id) (existing_ids st) = false /\
     existing_ids st' = set_add id (existing_ids st) /\
     exists_file src = true /\
     copied st' = (src, path_join (path_join OUTPUT_PATH (T "avatars")) target)
                  :: copied st /\
     (color = None \/ exists c, color = Some c /\ validate_color c = true)).
Proof.
  unfold backup_user in H. rewrite Hinfo in H.
  destruct (ask_id existing_users (S (length (inputs st))) name st)
    as [[r st1]|e] eqn:Eid; [|discriminate].
  apply ask_id_ok in Eid.
  destruct Eid as (N1 & I1 & C1 & U1 & Hr).
  cbn [bind fst snd] in H. destruct r as [id|].
  - right. destruct Hr as (G1 & Hne & Hfresh).
    destruct (ask_avatar exists_file (inputs (add_id id st1)) []
                (printed (add_id id st1))) as [[[av ins] out]|e] eqn:Eav;
      [|discriminate].
    apply ask_avatar_ok in Eav. destruct Eav as [_ Hav].
    cbn [bind] in H. unfold fresh_target in H. cbn [bind] in H.
    unfold copy_avatar in H. rewrite Hav in H. cbn [bind] in H.
    cbn [inputs printed with_io add_id uuids existing_ids copied new_users
           group_users_of] in H.
    destruct (ask_color ins [] out) as [[[col ins2] out2]|e] eqn:Ecol;
      [|discriminate].
    apply ask_color_ok in Ecol. cbn [bind] in H.
    inversion H; subst st'; clear H.
    exists id, av, (uuid (uuids st1) ++ splitext_ext av), col.
    cbn [set_group_user set_new_user say with_io inputs printed uuids
           existing_ids copied new_users group_users_of].
    rewrite G1, N1, I1, C1. repeat split; auto.
  - left. destruct Hr as (u & Hu & G1). inversion H; subst st'.
    exists u. auto.
Qed.

(** A user that [info.json] does not describe: the call either reuses the
    user of an earlier chat, registering nothing, or registers the user
    under an identifier that is not empty and was in no earlier
    registration, with an avatar copied from a file that exists and a
    colour that is a valid hexadecimal code or none; the identifier is
    added to the set of identifiers. *)
Theorem prompted_user_is_reused_or_new
  (exists_file : text -> bool) (uuid : nat -> text)
  (info_users : option (dict user_info)) (existing_users : dict member)
  (name : text) (st st' : ustate)
  (Hinfo : match info_users with
           | Some us => dict_get us name
           | None => None
           end = None)
  (H : backup_user exists_file uuid info_users existing_users name st = Ok st') :
  (exists u, dict_get existing_users name = Some u /\
             group_users_of st' = dict_set (group_users_of st) name u /\
             new_users st' = new_users st /\
             existing_ids st' = existing_ids st /\ copied st' = copied st) \/
  (exists id src target color,
     group_users_of st' = dict_set (group_users_of st) name (Member id target color) /\
     new_users st' = dict_set (new_users st) id (NewUser name target color) /\
     id <> [] /\ existsb (text_eqb id) (existing_ids st) = false /\
     existing_ids st' = set_add id (existing_ids st) /\
     exists_file src = true /\
     copied st' = (src, path_join (path_join OUTPUT_PATH (T "avatars")) target)
                  :: copied st /\
     (color = None \/ exists c, color = Some c /\ validate_color c = true)).
Proof.
  exact (backup_user_prompted exists_file uuid info_users existing_users
           name st st' Hinfo H).
Qed.

Lemma prompted_user_is_reused_or_new_witness :
  let all := fun _ : text => true in
  let uuid := fun _ : nat => T "u" in
  let name := T "Bob" in
  let st := UState [T "911"; T " 912 "; T "bob.png"; T "#FFF"] [] 0 [T "911"] [] [] [] in
  let st' := value_or st (backup_user all uuid None [] name st) in
  (exists u, dict_get [] name = Some u /\
             group_users_of st' = dict_set (group_users_of st) name u /\
             new_users st' = new_users st /\
             existing_ids st' = existing_ids st /\ copied st' = copied st) \/
  (exists id src target color,
     group_users_of st' = dict_set (group_users_of st) name (Member id target color) /\
     new_users st' = dict_set (new_users st) id (NewUser name target color) /\
     id <> [] /\ existsb (text_eqb id) (existing_ids st) = false /\
     existing_ids st' = set_add id (existing_ids st) /\
     all src = true /\
     copied st' = (src, path_join (path_join OUTPUT_PATH (T "avatars")) target)
                  :: copied st /\
     (color = None \/ exists c, color = Some c /\ validate_color c = true)).
Proof.
  intros all uuid name st st'.
  apply (prompted_user_is_reused_or_new all uuid None [] name st st').
  - reflexivity.
  - vm_compute. reflexivity.
Defined.

Lemma dict_get_set_same {V : Type} (d : dict V) k v :
  dict_get (dict_set d k v) k = Some v.
Proof.
  induction d as [|[k' v'] d IH]; simpl.
  - rewrite text_eqb_refl. reflexivity.
  - destruct (text_eqb k' k) eqn:E; simpl; rewrite E; [reflexivity|exact IH].
Qed.

Lemma dict_get_set_other {V : Type} (d : dict V) k k' v :
  k <> k' -> dict_get (dict_set d k v) k' = dict_get d k'.
Proof.
  intros Hk. induction d as [|[k0 v0] d IH]; simpl.
  - apply text_eqb_neq in Hk. rewrite Hk. reflexivity.
  - destruct (text_eqb k0 k) eqn:E; simpl.
    + apply text_eqb_eq in E. subst k0.
      apply text_eqb_neq in Hk. rewrite Hk. reflexivity.
    + destruct (text_eqb k0 k'); [reflexivity|exact IH].
Qed.

(** A user already known from an earlier chat, whom [info.json] describes
    or whom the operator chooses to skip, is not registered again: nothing
    is added to [new_users], no file is copied, and the user keeps the
    avatar of the earlier chat. *)
Theorem known_user_is_not_registered_again
  (exists_file : text -> bool) (uuid : nat -> text)
  (info_users : option (dict user_info)) (existing_users : dict member)
  (name : text) (st : ustate) (u : member)
  (Hu : dict_get existing_users name = Some u)
  (Hcase : (exists i, match info_users with
                      | Some us => dict_get us name
                      | None => None
                      end = Some i) \/
           (match info_users with
            | Some us => dict_get us name
            | None => None
            end = None /\
            exists l ls, inputs st = l :: ls /\ lower (strip l) = T "y")) :
  exists st',
    backup_user exists_file uuid info_users existing_users name st = Ok st' /\
    new_users st' = new_users st /\ copied st' = copied st /\
    exists m, dict_get (group_users_of st') name = Some m /\ avatar m = avatar u.
Proof.
  unfold backup_user.
  destruct Hcase as [[i Hi] | [Hn (l & ls & Hl & Hy)]].
  - rewrite Hi. unfold from_info. rewrite Hu. cbn [bind fst snd].
    eexists. split; [reflexivity|]. cbn. repeat split.
    eexists. split; [apply dict_get_set_same|reflexivity].
  - rewrite Hn. cbn [ask_id]. rewrite Hu, Hl. cbn [ask_skip]. rewrite Hy.
    cbn. eexists. split; [reflexivity|]. cbn. repeat split.
    eexists. split; [apply dict_get_set_same|reflexivity].
Qed.

Lemma known_user_is_not_registered_again_witness :
  let ann := Member (T "912") (T "ann.png") None in
  let st := UState [T " Y "] [] 0 [T "912"] [] [] [] in
  exists st',
    backup_user (fun _ => true) (fun _ => T "u") None [(T "Ann", ann)] (T "Ann") st
    = Ok st' /\
    new_users st' = new_users st /\ copied st' = copied st /\
    exists m, dict_get (group_users_of st') (T "Ann") = Some m /\
              avatar m = avatar ann.
Proof.
  intros ann st.
  apply (known_user_is_not_registered_again (fun _ => true) (fun _ => T "u")
           None [(T "Ann", ann)] (T "Ann") st ann).
  - reflexivity.
  - right. split; [reflexivity|]. exists (T " Y "), []. split; reflexivity.
Defined.

(* ------------------------------------------------------------------ *)
(** ** The colours that [validate_color] accepts *)

Lemma color_no_match_later a bef rst :
  match_at false color_re (a :: bef) rst = None.
Proof. reflexivity. Qed.

Lemma color_search_later rst : forall a bef,
  search_from false color_re (a :: bef) rst = None.
Proof.
  induction rst as [|b rst IH]; intros a bef; cbn [search_from];
    rewrite color_no_match_later; [reflexivity|apply IH].
Qed.

Lemma color_match_sound c m :
  match_at false color_re [] c = Some m ->
  exists h tl, c = "#"%char :: h ++ tl /\
               (length h = 3 \/ length h = 6) /\ forallb is_hex h = true /\
               (tl = [] \/ tl = [NL]).
Proof.
  intros H. apply match_at_sound_in in H. destruct H as (rst' & E & L).
  revert E L. generalize (group0 m). intros w E L.
  unfold color_re, hex3 in L. simpl in L.
  destruct L as (w1 & w2 & -> & [-> _] & w3 & w4 & -> & -> & L).
  destruct L as (h1 & w5 & -> & L1 & w6 & w7 & -> & L2 & [-> Heol]).
  destruct L1 as (x1 & y1 & -> & (a1 & -> & Ha1) & x2 & y2 & -> &
                  (a2 & -> & Ha2) & (a3 & -> & Ha3)).
  assert (Htl : rst' = [] \/ rst' = [NL]).
  { unfold at_eol in Heol. simpl in Heol. destruct rst' as [|b [|b' r]].
    - left; reflexivity.
    - right. apply Ascii.eqb_eq in Heol. subst b. reflexivity.
    - discriminate. }
  destruct L2 as [L2 | ->].
  - destruct L2 as (x3 & y3 & -> & (a4 & -> & Ha4) & x4 & y4 & -> &
                    (a5 & -> & Ha5) & (a6 & -> & Ha6)).
    exists [a1; a2; a3; a4; a5; a6], rst'. simpl in *.
    rewrite Ha1, Ha2, Ha3, Ha4, Ha5, Ha6. repeat split; auto.
  - exists [a1; a2; a3], rst'. simpl in *.
    rewrite Ha1, Ha2, Ha3. repeat split; auto.
Qed.

Lemma color_match_complete h tl :
  (length h = 3 \/ length h = 6) -> forallb is_hex h = true ->
  tl = [] \/ tl = [NL] ->
  validate_color ("#"%char :: h ++ tl) = true.
Proof.
  intros Hl Hh Htl. unfold validate_color, re_search.
  destruct Hl as [Hl|Hl].
  - destruct h as [|a1 [|a2 [|a3 [|a4 h]]]]; try discriminate.
    simpl in Hh. rewrite !andb_true_iff in Hh.
    destruct Hh as (H1 & H2 & H3 & _).
    destruct Htl as [-> | ->]; cbn [search_from app];
      unfold match_at, color_re, hex3; simpl; rewrite H1, H2, H3; reflexivity.
  - destruct h as [|a1 [|a2 [|a3 [|a4 [|a5 [|a6 [|a7 h]]]]]]]; try discriminate.
    simpl in Hh. rewrite !andb_true_iff in Hh.
    destruct Hh as (H1 & H2 & H3 & H4 & H5 & H6 & _).
    destruct Htl as [-> | ->]; cbn [search_from app];
      unfold match_at, color_re, hex3; simpl;
      rewrite H1, H2, H3, H4, H5, H6; reflexivity.
Qed.

Lemma hex_color_inv c :
  hex_color c = true ->
  exists h, c = "#"%char :: h /\ (length h = 3 \/ length h = 6) /\
            forallb is_hex h = true.
Proof.
  destruct c as [|a h]; [discriminate|]. simpl.
  rewrite !andb_true_iff, orb_true_iff, !Nat.eqb_eq, Ascii.eqb_eq.
  intros [[-> Hl] Hh]. eauto.
Qed.

(** [validate_color] accepts exactly a sharp sign followed by three or six
    hexadecimal digits, and such a colour followed by one newline (which
    the pattern's dollar allows; the callers strip their input). *)
Theorem validate_color_accepts (c : text) :
  validate_color c = true <->
  hex_color c = true \/ exists c0, c = c0 ++ [NL] /\ hex_color c0 = true.
Proof.
  split.
  - unfold validate_color, re_search. intros H.
    destruct (match_at false color_re [] c) as [m|] eqn:E.
    + apply color_match_sound in E.
      destruct E as (h & tl & -> & Hl & Hh & Htl).
      assert (Hc : hex_color ("#"%char :: h) = true).
      { simpl. rewrite Hh, andb_true_r.
        destruct Hl as [-> | ->]; reflexivity. }
      destruct Htl as [-> | ->].
      * left. rewrite app_nil_r. exact Hc.
      * right. exists ("#"%char :: h). split; [reflexivity|exact Hc].
    + destruct c as [|a rst]; cbn [search_from] in H; rewrite E in H.
      * discriminate.
      * rewrite color_search_later in H. discriminate.
  - intros [H | (c0 & -> & H)]; apply hex_color_inv in H;
      destruct H as (h & -> & Hl & Hh).
    + rewrite <- (app_nil_r h). apply color_match_complete; auto.
    + apply (color_match_complete h [NL]); auto.
Qed.

(* ------------------------------------------------------------------ *)
(** ** The two header patterns agree on the sender *)

Section Regroup.

Variables i j : nat.
Variable dotall : bool.

Let krel (k k' : mstate -> option mstate) : Prop :=
  forall s s', same_cursor i j s s' -> same_outcome i j (k s) (k' s').

Lemma star_greedy_regroup c rst : forall bef cp cp' k k',
  get_cap i cp = get_cap j cp' -> krel k k' ->
  same_outcome i j (star_greedy dotall c bef rst cp k)
    (star_greedy dotall c bef rst cp' k').
Proof.
  induction rst as [|a rst IH]; intros bef cp cp' k k' Hc Hk; simpl.
  - apply Hk. repeat split; assumption.
  - destruct (cset_mem dotall c a).
    + specialize (IH (a :: bef) cp cp' k k' Hc Hk).
      destruct (star_greedy dotall c (a :: bef) rst cp k),
        (star_greedy dotall c (a :: bef) rst cp' k'); simpl in IH;
        try contradiction; [exact IH|].
      apply Hk. repeat split; assumption.
    + apply Hk. repeat split; assumption.
Qed.

Lemma star_lazy_regroup c rst : forall bef cp cp' k k',
  get_cap i cp = get_cap j cp' -> krel k k' ->
  same_outcome i j (star_lazy dotall c bef rst cp k)
    (star_lazy dotall c bef rst cp' k').
Proof.
  induction rst as [|a rst IH]; intros bef cp cp' k k' Hc Hk; simpl.
  - assert (H := Hk (MState bef [] cp) (MState bef [] cp')
                   (conj eq_refl (conj eq_refl Hc))).
    destruct (k (MState bef [] cp)), (k' (MState bef [] cp')); simpl in H;
      try contradiction; simpl; auto.
  - assert (H := Hk (MState bef (a :: rst) cp) (MState bef (a :: rst) cp')
                   (conj eq_refl (conj eq_refl Hc))).
    destruct (k (MState bef (a :: rst) cp)), (k' (MState bef (a :: rst) cp'));
      simpl in H; try contradiction; [exact H|].
    destruct (cset_mem dotall c a); [|exact I].
    apply IH; assumption.
Qed.

(** Renumbering one group and dissolving the others changes neither
    whether an expression matches, nor where the match ends, nor what the
    renumbered group holds. *)
Lemma run_regroup r r' :
  regroup i j r r' ->
  forall s s' k k', same_cursor i j s s' -> krel k k' ->
  same_outcome i j (run dotall r s k) (run dotall r' s' k').
Proof.
  induction 1; intros s s' k k' Hs Hk; pose proof Hs as (Hb & Hr & Hc).
  - simpl. apply Hk, Hs.
  - simpl. rewrite <- Hr. destruct (strip_prefix w (rest s)); [|exact I].
    apply Hk. repeat split; simpl; congruence.
  - simpl. rewrite <- Hr. destruct (rest s) as [|a rst]; [exact I|].
    destruct (cset_mem dotall c a); [|exact I].
    apply Hk. unfold advance. repeat split; simpl; congruence.
  - simpl. apply IHregroup1; [exact Hs|].
    intros s1 s1' H1. apply IHregroup2; assumption.
  - simpl. specialize (IHregroup1 s s' k k' Hs Hk).
    destruct (run dotall r1 s k), (run dotall r1' s' k'); simpl in IHregroup1;
      try contradiction; [exact IHregroup1|].
    apply IHregroup2; assumption.
  - simpl. rewrite <- Hb, <- Hr. destruct g.
    + apply star_greedy_regroup; assumption.
    + apply star_lazy_regroup; assumption.
  - simpl. unfold at_boundary. rewrite <- Hb, <- Hr.
    destruct (xorb (word_at (before s)) (word_at (rest s))); [|exact I].
    apply Hk, Hs.
  - simpl. unfold at_bol. rewrite <- Hb. destruct (before s); [|exact I].
    apply Hk, Hs.
  - simpl. unfold at_eol. rewrite <- Hr.
    destruct (rest s) as [|a [|b t]]; try exact I.
    + apply Hk, Hs.
    + destruct (Ascii.eqb a NL); [|exact I]. apply Hk, Hs.
  - simpl.
    assert (H1 : same_outcome i j (run dotall r s Some) (run dotall r' s' Some)).
    { apply IHregroup; [exact Hs|]. intros s1 s1' H1. exact H1. }
    destruct (run dotall r s Some) as [s1|], (run dotall r' s' Some) as [s1'|];
      simpl in H1; try contradiction; [|exact I].
    apply Hk. destruct H1 as (_ & _ & H1). repeat split; simpl; assumption.
  - simpl. apply IHregroup; [exact Hs|].
    intros s1 s1' (Hb1 & Hr1 & Hc1). apply Hk.
    unfold set_cap, consumed. repeat split; simpl; try assumption.
    rewrite !Nat.eqb_refl, Hr, Hr1. reflexivity.
  - simpl. apply IHregroup; [exact Hs|].
    intros s1 s1' (Hb1 & Hr1 & Hc1). apply Hk.
    unfold set_cap. repeat split; simpl; try assumption.
    destruct (Nat.eqb n i) eqn:E; [apply Nat.eqb_eq in E; contradiction|].
    exact Hc1.
Qed.

End Regroup.

Lemma pattern_regroup :
  exists r', user_regex = Seq Bol r' /\ regroup 6 1 pattern r'.
Proof.
  eexists. split; [reflexivity|].
  unfold pattern, d2, Plus. cbn [seqs].
  repeat (first [ apply rg_keep | apply rg_drop; [discriminate|]
                | apply rg_seq | apply rg_str | apply rg_one | apply rg_star ]).
Qed.

(** A line that the header pattern of [backup_messages] matches is matched
    by the pattern of [backup_users], and the two patterns capture the same
    sender. *)
Lemma pattern_user_regex line m :
  re_match pattern line = Some m ->
  exists m', re_match user_regex line = Some m' /\ gtext m' 1 = gtext m 6.
Proof.
  unfold re_match, match_at. intros H.
  destruct pattern_regroup as (r' & -> & Hr).
  destruct (run false pattern (MState [] line []) Some) as [s1|] eqn:E;
    [|discriminate].
  inversion H; subst m; clear H.
  assert (Hs : same_outcome 6 1 (run false pattern (MState [] line []) Some)
                 (run false r' (MState [] line []) Some)).
  { apply (run_regroup 6 1 false pattern r' Hr).
    - repeat split.
    - intros s s' Hss. exact Hss. }
  rewrite E in Hs. rewrite run_Seq, run_Bol.
  destruct (run false r' (MState [] line []) Some) as [s1'|]; [|contradiction].
  simpl in Hs. destruct Hs as (_ & _ & Hc).
  eexists. split; [reflexivity|].
  unfold gtext, group. cbn [groups]. rewrite Hc. reflexivity.
Qed.

(* ------------------------------------------------------------------ *)
(** ** Every sender of a transcript is registered *)

Lemma collect_names_acc lines : forall acc n,
  In n acc -> In n (collect_names lines acc).
Proof.
  induction lines as [|line lines IH]; intros acc n Hn; simpl; [exact Hn|].
  destruct (re_match user_regex line) as [m|]; [|apply IH; exact Hn].
  apply IH. destruct (existsb (text_eqb (gtext m 1)) acc); [exact Hn|].
  apply in_or_app. left. exact Hn.
Qed.

Lemma collect_names_In lines : forall acc line m,
  In line lines -> re_match user_regex line = Some m ->
  In (gtext m 1) (collect_names lines acc).
Proof.
  induction lines as [|l lines IH]; intros acc line m Hl Hm; [contradiction|].
  simpl. destruct Hl as [-> | Hl].
  - rewrite Hm. apply collect_names_acc.
    destruct (existsb (text_eqb (gtext m 1)) acc) eqn:E.
    + apply existsb_exists in E. destruct E as (x & Hx & Ex).
      apply text_eqb_eq in Ex. subst x. exact Hx.
    + apply in_or_app. right. left. reflexivity.
  - destruct (re_match user_regex l); eapply IH; eauto.
Qed.

(** The names collected are pairwise different, as the elements of a set
    are. *)
Lemma collect_names_NoDup lines : forall acc,
  NoDup acc -> NoDup (collect_names lines acc).
Proof.
  induction lines as [|l lines IH]; intros acc Hacc; simpl; [exact Hacc|].
  destruct (re_match user_regex l) as [m|]; [|apply IH; exact Hacc].
  apply IH. destruct (existsb (text_eqb (gtext m 1)) acc) eqn:E; [exact Hacc|].
  apply NoDup_app; [exact Hacc|repeat constructor; intros []|].
  intros x Hx [<- | []].
  assert (existsb (text_eqb (gtext m 1)) acc = true); [|congruence].
  apply existsb_exists. exists (gtext m 1). split; [exact Hx|apply text_eqb_refl].
Qed.

Lemma dict_set_keeps {V : Type} (d : dict V) k v k' :
  dict_get d k' <> None -> dict_get (dict_set d k v) k' <> None.
Proof.
  intros H. destruct (list_eq_dec ascii_dec k k') as [-> | Hk].
  - rewrite dict_get_set_same. discriminate.
  - rewrite dict_get_set_other by exact Hk. exact H.
Qed.

Section RegisteredFacts.

Variable exists_file : text -> bool.
Variable uuid : nat -> text.
Variable set_order : list text -> list text.
Variable info_users : option (dict user_info).
Variable existing_users : dict member.

Lemma from_info_group name i st st' :
  from_info exists_file uuid existing_users name i st = Ok st' ->
  exists mbr, group_users_of st' = dict_set (group_users_of st) name mbr.
Proof.
  unfold from_info. destruct (dict_get existing_users name) as [u|].
  - cbn [bind fst snd]. intros H. inversion H; subst. eexists. reflexivity.
  - destruct (i_avatar i) as [a|].
    + unfold fresh_target, copy_avatar. cbn [say inputs printed uuids
        existing_ids copied new_users group_users_of].
      destruct (exists_file (path_join INPUT_PATH a)); [|discriminate].
      cbn [bind fst snd]. intros H. inversion H; subst. eexists. reflexivity.
    + unfold copy_avatar.
      destruct (exists_file (T "default.svg")); [|discriminate].
      cbn [bind fst snd]. intros H. inversion H; subst. eexists. reflexivity.
Qed.

Lemma backup_user_group name st st' :
  backup_user exists_file uuid info_users existing_users name st = Ok st' ->
  exists mbr, group_users_of st' = dict_set (group_users_of st) name mbr.
Proof.
  intros H.
  destruct (match info_users with
            | Some us => dict_get us name
            | None => None
            end) as [i|] eqn:Ei.
  - unfold backup_user in H. rewrite Ei in H. eapply from_info_group; eauto.
  - apply backup_user_prompted in H; [|exact Ei].
    destruct H as [(u & _ & G & _) | (id & src & target & color & G & _)];
      eexists; exact G.
Qed.

Lemma backup_names_keys names : forall st st',
  backup_names exists_file uuid info_users existing_users names st = Ok st' ->
  forall n, In n names \/ dict_get (group_users_of st) n <> None ->
            dict_get (group_users_of st') n <> None.
Proof.
  induction names as [|name names IH]; intros st st' H n Hn.
  - simpl in H. inversion H; subst. destruct Hn as [[]|Hn]. exact Hn.
  - simpl in H.
    destruct (backup_user exists_file uuid info_users existing_users name st)
      as [st1|e] eqn:E; [|discriminate].
    cbn [bind] in H. apply backup_user_group in E. destruct E as [mbr G].
    apply (IH st1 st' H).
    destruct Hn as [[<- | Hn] | Hn].
    + right. rewrite G, dict_get_set_same. discriminate.
    + left. exact Hn.
    + right. rewrite G. apply dict_set_keeps. exact Hn.
Qed.

End RegisteredFacts.

Lemma datetime_error y mo d h mi e :
  datetime y mo d h mi = Err e -> e = ValueError.
Proof.
  unfold datetime.
  destruct ((1 <=? y) && (y <=? 9999) && (1 <=? mo) && (mo <=? 12) &&
            (1 <=? d) && (d <=? days_in_month y mo) && (h <=? 23) && (mi <=? 59));
    intros H; inversion H; reflexivity.
Qed.

Lemma header_message_key_error exists_file filepath chat_id group_users m next id k :
  header_message exists_file filepath chat_id group_users m next id
  = Err (KeyError k) ->
  dict_get group_users (gtext m 6) = None.
Proof.
  unfold header_message.
  destruct (attachment_marker (dirname filepath) (snd (body_of m)) next)
    as [[att c] sk].
  unfold copy_attachment. destruct att as [a|].
  - destruct (exists_file a); [|discriminate]. cbn [bind].
    destruct (formatting (strip c)).
    destruct (dict_get group_users (gtext m 6)); [|reflexivity].
    destruct (datetime _ _ _ _ _) as [ts|e] eqn:Ed; cbn [bind]; [discriminate|].
    intros He. inversion He; subst e. apply datetime_error in Ed. discriminate.
  - cbn [bind]. destruct (formatting (strip c)).
    destruct (dict_get group_users (gtext m 6)); [|reflexivity].
    destruct (datetime _ _ _ _ _) as [ts|e] eqn:Ed; cbn [bind]; [discriminate|].
    intros He. inversion He; subst e. apply datetime_error in Ed. discriminate.
Qed.

Lemma assemble_no_key_error exists_file filepath chat_id group_users lines :
  (forall line m, In line lines -> re_match pattern line = Some m ->
                  dict_get group_users (gtext m 6) <> None) ->
  forall skip msgs k,
    assemble exists_file filepath chat_id group_users lines skip msgs
    <> Err (KeyError k).
Proof.
  induction lines as [|line lines IH]; intros Hk skip msgs k; simpl.
  - discriminate.
  - assert (Hk' : forall l m, In l lines -> re_match pattern l = Some m ->
                              dict_get group_users (gtext m 6) <> None).
    { intros l m Hl. apply Hk. right. exact Hl. }
    destruct skip; [apply IH; exact Hk'|].
    destruct (re_match pattern line) as [m|] eqn:Em.
    + destruct (header_message exists_file filepath chat_id group_users m
                  (hd_error lines) (length msgs)) as [[msg sk]|e] eqn:Eh.
      * cbn [bind]. apply IH; exact Hk'.
      * cbn [bind]. intros He. inversion He; subst e.
        apply header_message_key_error in Eh.
        apply (Hk line m); auto. left. reflexivity.
    + destruct msgs; apply IH; exact Hk'.
Qed.

(** The registry and the assembler fit together: when [backup_users]
    returns for the lines of a transcript, its [group_users] has an entry
    for the sender of every header line, so that [backup_messages] on the
    same lines never ends with [KeyError], whatever files exist. *)
Theorem senders_are_registered
  (exists_file : text -> bool) (uuid : nat -> text)
  (set_order : list text -> list text)
  (info_users : option (dict user_info)) (existing_users : dict member)
  (lines ins ids : list text) (st : ustate)
  (Hord : forall l n, In n l -> In n (set_order l))
  (H : backup_users exists_file uuid set_order info_users existing_users
         lines ins ids = Ok st) :
  (forall line m, In line lines -> re_match pattern line = Some m ->
                  dict_get (group_users_of st) (gtext m 6) <> None) /\
  (forall exists_file' filepath chat_id k,
     backup_messages_lines exists_file' filepath chat_id (group_users_of st) lines
     <> Err (KeyError k)).
Proof.
  assert (Hall : forall line m, In line lines -> re_match pattern line = Some m ->
                   dict_get (group_users_of st) (gtext m 6) <> None).
  { intros line m Hl Hm. unfold backup_users in H.
    apply (backup_names_keys exists_file uuid info_users existing_users _ _ _ H).
    left. apply Hord.
    apply pattern_user_regex in Hm. destruct Hm as (m' & Hm' & <-).
    eapply collect_names_In; eauto. }
  split; [exact Hall|].
  intros exists_file' filepath chat_id k. unfold backup_messages_lines.
  apply assemble_no_key_error. exact Hall.
Qed.

Lemma senders_are_registered_witness :
  let lines := [T "01/01/23, 09:00 - Ann: hi"; T "01/01/23, 09:01 - Bob: ho";
                T "01/01/23, 09:02 - Ann: bye"] in
  let st0 := UState [] [] 0 [] [] [] [] in
  let st := value_or st0
              (backup_users (fun _ => true) (fun _ => T "u") (fun l => rev l) None []
                 lines [T "912"; T "ann.png"; T ""; T "911"; T "bob.png"; T "#fff"]
                 []) in
  (forall line m, In line lines -> re_match pattern line = Some m ->
                  dict_get (group_users_of st) (gtext m 6) <> None) /\
  (forall exists_file' filepath chat_id k,
     backup_messages_lines exists_file' filepath chat_id (group_users_of st) lines
     <> Err (KeyError k)).
Proof.
  intros lines st0 st.
  apply (senders_are_registered (fun _ => true) (fun _ => T "u") (fun l => rev l)
           None [] lines
           [T "912"; T "ann.png"; T ""; T "911"; T "bob.png"; T "#fff"] [] st).
  - intros l n Hn. apply in_rev in Hn. exact Hn.
  - vm_compute. reflexivity.
Defined.

(* ------------------------------------------------------------------ *)
(** ** The assembler: format and formatted content *)

Lemma formatting_consistent c :
  (formatting c = (None, None)) \/
  (has_markup c = true /\
   formatting c = (Some WHATSAPP_MARKDOWN, Some (render c))).
Proof.
  unfold formatting, has_markup, render. destruct c as [|a c]; [left; reflexivity|].
  destruct (negb (text_eqb (a :: c) (parse_markdown (a :: c) true))); auto.
Qed.

(** Every message returned has either no format and no formatted content,
    or the format [whatsapp_markdown] and, as formatted content, the
    rendering of a text in which markup was detected. *)
Theorem format_and_formatted_content_go_together
  (exists_file : text -> bool) (filepath chat_id : text)
  (group_users : dict member) (lines : list text) (msgs : list message)
  (H : backup_messages_lines exists_file filepath chat_id group_users lines = Ok msgs) :
  Forall format_consistent msgs.
Proof.
  unfold backup_messages_lines in H.
  eapply assemble_Forall; [ | | | exact H].
  - intros m next id msg sk Hh. apply header_message_ok in Hh.
    destruct Hh as (att & content & att' & u & ts & _ & _ & _ & ->).
    unfold format_consistent. cbn [m_format m_formatted_content].
    destruct (formatting_consistent (strip content)) as [-> | [Hm ->]]; eauto.
  - intros line msg HP.
    assert (Hw : forall c, format_consistent (with_content c msg)).
    { intros c. unfold format_consistent, with_content.
      cbn [m_format m_formatted_content].
      destruct (negb (text_eqb c (parse_markdown c true))) eqn:E; [|exact HP].
      right. split; [reflexivity|]. exists c. split; [exact E|reflexivity]. }
    unfold continue_message.
    destruct (truthy (m_content msg) && negb (matches skip_pattern line)).
    + destruct (m_content msg); [apply Hw|exact HP].
    + destruct (negb (matches skip_pattern line)); [apply Hw|exact HP].
  - constructor.
Qed.

Lemma format_and_formatted_content_go_together_witness :
  let lines := [T "01/01/23, 09:00 - Ann: *hello*"; T "world";
                T "01/01/23, 09:02 - Ann: thanks"] in
  let gu := [(T "Ann", Member (T "912") (T "ann.png") None)] in
  Forall format_consistent
    (value_or [] (backup_messages_lines (fun _ => true) (T "exports/chat/c.txt")
                    (T "c1") gu lines)).
Proof.
  intros lines gu.
  apply (format_and_formatted_content_go_together (fun _ => true)
           (T "exports/chat/c.txt") (T "c1") gu lines).
  vm_compute. reflexivity.
Defined.

(* ------------------------------------------------------------------ *)
(** ** The registry: what a call leaves in [new_users] and [existing_ids] *)

Lemma set_add_In x s : In x (set_add x s).
Proof.
  unfold set_add. destruct (existsb (text_eqb x) s) eqn:E.
  - apply existsb_exists in E. destruct E as (y & Hy & Ey).
    apply text_eqb_eq in Ey. subst y. exact Hy.
  - apply in_or_app. right. left. reflexivity.
Qed.

Lemma set_add_keeps x y s : In y s -> In y (set_add x s).
Proof.
  unfold set_add. destruct (existsb (text_eqb x) s); [auto|].
  intros H. apply in_or_app. left. exact H.
Qed.

Lemma dict_get_set_inv {V : Type} (d : dict V) k v k' v' :
  dict_get (dict_set d k v) k' = Some v' ->
  (k' = k /\ v' = v) \/ (k' <> k /\ dict_get d k' = Some v').
Proof.
  destruct (list_eq_dec ascii_dec k k') as [<- | Hk].
  - rewrite dict_get_set_same. intros H. inversion H. left. split; reflexivity.
  - rewrite dict_get_set_other by exact Hk. intros H. right. split; [congruence|exact H].
Qed.

Section RegistryFacts.

Variable exists_file : text -> bool.
Variable uuid : nat -> text.
Variable set_order : list text -> list text.
Variable info_users : option (dict user_info).
Variable existing_users : dict member.

Lemma from_info_step name i st st' :
  from_info exists_file uuid existing_users name i st = Ok st' ->
  exists mbr,
    group_users_of st' = dict_set (group_users_of st) name mbr /\
    existing_ids st' = set_add (user_id mbr) (existing_ids st) /\
    (new_users st' = new_users st \/
     new_users st' = dict_set (new_users st) (user_id mbr)
                       (NewUser name (avatar mbr) (color mbr))).
Proof.
  unfold from_info. destruct (dict_get existing_users name) as [u|].
  - cbn [bind fst snd]. intros H. inversion H; subst.
    eexists. split; [reflexivity|]. split; [reflexivity|]. left. reflexivity.
  - destruct (i_avatar i) as [a|].
    + unfold fresh_target, copy_avatar. cbn [say inputs printed uuids
        existing_ids copied new_users group_users_of].
      destruct (exists_file (path_join INPUT_PATH a)); [|discriminate].
      cbn [bind fst snd]. intros H. inversion H; subst.
      eexists. split; [reflexivity|]. split; [reflexivity|]. right. reflexivity.
    + unfold copy_avatar.
      destruct (exists_file (T "default.svg")); [|discriminate].
      cbn [bind fst snd]. intros H. inversion H; subst.
      eexists. split; [reflexivity|]. split; [reflexivity|]. right. reflexivity.
Qed.

Lemma backup_user_step name st st' :
  backup_user exists_file uuid info_users existing_users name st = Ok st' ->
  exists mbr,
    group_users_of st' = dict_set (group_users_of st) name mbr /\
    (forall x, In x (existing_ids st) -> In x (existing_ids st')) /\
    (new_users st' = new_users st \/
     (new_users st' = dict_set (new_users st) (user_id mbr)
                        (NewUser name (avatar mbr) (color mbr)) /\
      In (user_id mbr) (existing_ids st'))).
Proof.
  intros H.
  destruct (match info_users with
            | Some us => dict_get us name
            | None => None
            end) as [i|] eqn:Ei.
  - unfold backup_user in H. rewrite Ei in H. apply from_info_step in H.
    destruct H as (mbr & G & I & N). exists mbr. split; [exact G|]. split.
    + intros x Hx. rewrite I. apply set_add_keeps. exact Hx.
    + destruct N as [N|N]; [left; exact N|right]. split; [exact N|].
      rewrite I. apply set_add_In.
  - apply backup_user_prompted in H; [|exact Ei].
    destruct H as [(u & _ & G & N & I & _) |
                   (id & src & target & color & G & N & _ & _ & I & _)].
    + exists u. split; [exact G|]. split; [|left; exact N].
      intros x Hx. rewrite I. exact Hx.
    + exists (Member id target color). split; [exact G|]. split.
      * intros x Hx. rewrite I. apply set_add_keeps. exact Hx.
      * right. split; [exact N|]. rewrite I. apply set_add_In.
Qed.

Lemma backup_names_coherent names : forall st st',
  NoDup names ->
  (forall n, In n names -> dict_get (group_users_of st) n = None) ->
  coherent st ->
  backup_names exists_file uuid info_users existing_users names st = Ok st' ->
  coherent st'.
Proof.
  induction names as [|name names IH]; intros st st' Hnd Hnew Hco H.
  - simpl in H. inversion H; subst. exact Hco.
  - simpl in H.
    destruct (backup_user exists_file uuid info_users existing_users name st)
      as [st1|e] eqn:E; [|discriminate].
    cbn [bind] in H. apply backup_user_step in E.
    destruct E as (mbr & G & _ & N).
    inversion Hnd as [|? ? Hnotin Hnd']; subst.
    assert (Hold : forall id u, dict_get (new_users st) id = Some u ->
                   dict_get (group_users_of st1) (n_name u)
                   = Some (Member id (n_avatar u) (n_color u))).
    { intros id u Hu. rewrite G. rewrite dict_get_set_other; [apply Hco; exact Hu|].
      intros Heq. specialize (Hco id u Hu). rewrite <- Heq in Hco.
      rewrite (Hnew name) in Hco; [discriminate|left; reflexivity]. }
    apply (IH st1 st' Hnd'); [| |exact H].
    + intros n Hn. rewrite G. rewrite dict_get_set_other.
      * apply Hnew. right. exact Hn.
      * intros ->. contradiction.
    + intros id u Hu. destruct N as [N | [N _]]; rewrite N in Hu.
      * apply Hold. exact Hu.
      * apply dict_get_set_inv in Hu. destruct Hu as [[-> ->] | [_ Hu]].
        -- cbn [n_name n_avatar n_color]. rewrite G, dict_get_set_same.
           destruct mbr; reflexivity.
        -- apply Hold. exact Hu.
Qed.

Lemma backup_names_ids names : forall st st',
  backup_names exists_file uuid info_users existing_users names st = Ok st' ->
  (forall x, In x (existing_ids st) -> In x (existing_ids st')) /\
  ((forall id, dict_get (new_users st) id <> None -> In id (existing_ids st)) ->
   forall id, dict_get (new_users st') id <> None -> In id (existing_ids st')).
Proof.
  induction names as [|name names IH]; intros st st' H.
  - simpl in H. inversion H; subst. split; auto.
  - simpl in H.
    destruct (backup_user exists_file uuid info_users existing_users name st)
      as [st1|e] eqn:E; [|discriminate].
    cbn [bind] in H. apply backup_user_step in E.
    destruct E as (mbr & _ & I & N).
    destruct (IH st1 st' H) as [M K]. split.
    + intros x Hx. apply M, I, Hx.
    + intros Hin. apply K. intros id Hid.
      destruct N as [N | [N Hmbr]]; rewrite N in Hid.
      * apply I, Hin, Hid.
      * destruct (list_eq_dec ascii_dec (user_id mbr) id) as [<- | Hne];
          [exact Hmbr|].
        rewrite dict_get_set_other in Hid by exact Hne. apply I, Hin, Hid.
Qed.

Lemma backup_names_fresh (ids : list text) names : forall st st',
  (forall name, match info_users with
                | Some us => dict_get us name
                | None => None
                end = None) ->
  backup_names exists_file uuid info_users existing_users names st = Ok st' ->
  (forall x, In x ids -> In x (existing_ids st)) ->
  (forall id, dict_get (new_users st) id <> None -> ~ In id ids) ->
  forall id, dict_get (new_users st') id <> None -> ~ In id ids.
Proof.
  induction names as [|name names IH]; intros st st' Hinfo H Hsub Hfr.
  - simpl in H. inversion H; subst. exact Hfr.
  - simpl in H.
    destruct (backup_user exists_file uuid info_users existing_users name st)
      as [st1|e] eqn:E; [|discriminate].
    cbn [bind] in H. apply backup_user_prompted in E; [|apply Hinfo].
    apply (IH st1 st' Hinfo H).
    + destruct E as [(u & _ & _ & _ & I & _) |
                     (id & src & target & color & _ & _ & _ & _ & I & _)];
        intros x Hx; rewrite I; [|apply set_add_keeps]; apply Hsub, Hx.
    + destruct E as [(u & _ & _ & N & _) |
                     (id & src & target & color & _ & N & _ & Hnew & _)];
        rewrite N; [exact Hfr|].
      intros id' Hid'.
      destruct (list_eq_dec ascii_dec id id') as [<- | Hne].
      * intros Hin. apply Hsub in Hin.
        assert (existsb (text_eqb id) (existing_ids st) = true); [|congruence].
        apply existsb_exists. exists id. split; [exact Hin|apply text_eqb_refl].
      * rewrite dict_get_set_other in Hid' by exact Hne. apply Hfr, Hid'.
Qed.

End RegistryFacts.

(** When [backup_users] returns, each entry of [new_users] agrees with
    [group_users]: the user filed under an id in [new_users] is, under the
    entry's name, in [group_users] with that id, the same avatar and the
    same colour.  The names of the set are taken to be iterated once
    each. *)
Theorem new_users_are_group_users
  (exists_file : text -> bool) (uuid : nat -> text)
  (set_order : list text -> list text)
  (info_users : option (dict user_info)) (existing_users : dict member)
  (lines ins ids : list text) (st : ustate)
  (Hord : forall l, NoDup l -> NoDup (set_order l))
  (H : backup_users exists_file uuid set_order info_users existing_users
         lines ins ids = Ok st) :
  forall id u, dict_get (new_users st) id = Some u ->
    dict_get (group_users_of st) (n_name u)
    = Some (Member id (n_avatar u) (n_color u)).
Proof.
  unfold backup_users in H.
  apply (backup_names_coherent exists_file uuid info_users existing_users _ _ _)
    in H; [exact H| | |].
  - apply Hord. apply collect_names_NoDup. constructor.
  - intros n _. reflexivity.
  - intros id u Hu. discriminate.
Qed.

Lemma new_users_are_group_users_witness :
  let lines := [T "01/01/23, 09:00 - Ann: hi"; T "01/01/23, 09:01 - Bob: ho";
                T "01/01/23, 09:02 - Ann: bye"] in
  let info := Some [(T "Bob", UserInfo (T "911") None (Some (T "#abc")))] in
  let st0 := UState [] [] 0 [] [] [] [] in
  let st := value_or st0
              (backup_users (fun _ => true) (fun _ => T "u") (fun l => rev l) info []
                 lines [T "912"; T "ann.png"; T ""] []) in
  dict_get (new_users st) (T "912") = Some (NewUser (T "Ann") (T "u.png") None) /\
  dict_get (group_users_of st) (T "Ann") = Some (Member (T "912") (T "u.png") None).
Proof.
  intros lines info st0 st.
  assert (Hn : dict_get (new_users st) (T "912")
               = Some (NewUser (T "Ann") (T "u.png") None))
    by (vm_compute; reflexivity).
  assert (H : backup_users (fun _ => true) (fun _ => T "u") (fun l => rev l) info []
                 lines [T "912"; T "ann.png"; T ""] [] = Ok st)
    by (vm_compute; reflexivity).
  split; [exact Hn|].
  exact (new_users_are_group_users (fun _ => true) (fun _ => T "u") (fun l => rev l)
           info [] lines [T "912"; T "ann.png"; T ""] [] st
           (fun l Hl => NoDup_rev Hl) H
           (T "912") (NewUser (T "Ann") (T "u.png") None) Hn).
Defined.

(** When [backup_users] returns, the set [existing_ids] still has every id
    it had at the call, and it has the id of every entry of [new_users],
    whether the user came from [info.json] or from the prompts. *)
Theorem ids_of_new_users_are_recorded
  (exists_file : text -> bool) (uuid : nat -> text)
  (set_order : list text -> list text)
  (info_users : option (dict user_info)) (existing_users : dict member)
  (lines ins ids : list text) (st : ustate)
  (H : backup_users exists_file uuid set_order info_users existing_users
         lines ins ids = Ok st) :
  (forall id, In id ids -> In id (existing_ids st)) /\
  (forall id, dict_get (new_users st) id <> None -> In id (existing_ids st)).
Proof.
  unfold backup_users in H.
  apply backup_names_ids in H. destruct H as [M K]. split; [exact M|].
  apply K. intros id Hid. exfalso. apply Hid. reflexivity.
Qed.

Lemma ids_of_new_users_are_recorded_witness :
  let lines := [T "01/01/23, 09:00 - Ann: hi"; T "01/01/23, 09:01 - Bob: ho"] in
  let info := Some [(T "Bob", UserInfo (T "911") None (Some (T "#abc")))] in
  let st0 := UState [] [] 0 [] [] [] [] in
  let st := value_or st0
              (backup_users (fun _ => true) (fun _ => T "u") (fun l => rev l) info []
                 lines [T "912"; T "ann.png"; T ""] [T "900"]) in
  (forall id, In id [T "900"] -> In id (existing_ids st)) /\
  (forall id, dict_get (new_users st) id <> None -> In id (existing_ids st)).
Proof.
  intros lines info st0 st.
  apply (ids_of_new_users_are_recorded (fun _ => true) (fun _ => T "u")
           (fun l => rev l) info [] lines [T "912"; T "ann.png"; T ""] [T "900"] st).
  vm_compute. reflexivity.
Defined.

(** When [info.json] describes none of the names, so that every id is
    typed in, no entry of [new_users] is filed under an id that the set
    [existing_ids] had at the call: a call of [backup_users] then never
    gives a new user the id of a user of an earlier chat. *)
Theorem typed_ids_are_not_taken
  (exists_file : text -> bool) (uuid : nat -> text)
  (set_order : list text -> list text)
  (info_users : option (dict user_info)) (existing_users : dict member)
  (lines ins ids : list text) (st : ustate)
  (Hinfo : forall name, match info_users with
                        | Some us => dict_get us name
                        | None => None
                        end = None)
  (H : backup_users exists_file uuid set_order info_users existing_users
         lines ins ids = Ok st) :
  forall id, dict_get (new_users st) id <> None -> ~ In id ids.
Proof.
  unfold backup_users in H.
  apply (backup_names_fresh exists_file uuid info_users existing_users ids _ _ _
           Hinfo H).
  - intros x Hx. exact Hx.
  - intros id Hid. exfalso. apply Hid. reflexivity.
Qed.

Lemma typed_ids_are_not_taken_witness :
  let lines := [T "01/01/23, 09:00 - Ann: hi"; T "01/01/23, 09:01 - Bob: ho"] in
  let st0 := UState [] [] 0 [] [] [] [] in
  let st := value_or st0
              (backup_users (fun _ => true) (fun _ => T "u") (fun l => rev l) None []
                 lines [T "900"; T "911"; T "bob.png"; T "";
                        T "900"; T "912"; T "ann.png"; T "#fff"] [T "900"]) in
  dict_get (new_users st) (T "911") <> None /\ ~ In (T "911") [T "900"].
Proof.
  intros lines st0 st.
  assert (Hn : dict_get (new_users st) (T "911") <> None)
    by (vm_compute; discriminate).
  assert (H : backup_users (fun _ => true) (fun _ => T "u") (fun l => rev l) None []
                 lines [T "900"; T "911"; T "bob.png"; T "";
                        T "900"; T "912"; T "ann.png"; T "#fff"] [T "900"] = Ok st)
    by (vm_compute; reflexivity).
  split; [exact Hn|].
  exact (typed_ids_are_not_taken (fun _ => true) (fun _ => T "u") (fun l => rev l)
           None [] lines
           [T "900"; T "911"; T "bob.png"; T ""; T "900"; T "912"; T "ann.png"; T "#fff"]
           [T "900"] st (fun name => eq_refl) H (T "911") Hn).
Defined.

(* ------------------------------------------------------------------ *)
(** ** What a match records in its groups *)

(** Soundness of the matcher with the groups: a successful run has
    consumed a word of the expression and recorded the groups of that
    word. *)
Lemma run_caps dotall r : forall s k res,
  run dotall r s k = Some res ->
  exists w s1, caps_lang dotall r w (caps s) (caps s1) /\ moved s w s1 /\
               k s1 = Some res.
Proof.
  unfold moved.
  induction r as [|u|c|r1 IH1 r2 IH2|r1 IH1 r2 IH2|n r1 IH1|g c| | | |r1 IH1];
    intros s k res H; simpl in H.
  - exists [], s. simpl. auto.
  - destruct (strip_prefix u (rest s)) eqn:E; [|discriminate].
    apply strip_prefix_some in E.
    exists u, (MState (rev u ++ before s) t (caps s)). simpl.
    split; [split; reflexivity|]. split; [|exact H]. auto.
  - destruct (rest s) as [|a rst] eqn:E; [discriminate|].
    destruct (cset_mem dotall c a) eqn:M; [|discriminate].
    exists [a], (advance a rst s). simpl. split; [eauto|]. auto.
  - apply IH1 in H. destruct H as (w1 & s1 & L1 & (R1 & B1) & H).
    apply IH2 in H. destruct H as (w2 & s2 & L2 & (R2 & B2) & H).
    exists (w1 ++ w2), s2. simpl. split.
    + exists w1, w2, (caps s1). auto.
    + split; [|exact H]. split.
      * rewrite R1, R2. apply app_assoc.
      * rewrite B2, B1, rev_app_distr. apply app_assoc.
  - destruct (run dotall r1 s k) eqn:E.
    + inversion H; subst. apply IH1 in E.
      destruct E as (w & s1 & L & M & K). exists w, s1. simpl. auto.
    + apply IH2 in H.
      destruct H as (w & s1 & L & M & K). exists w, s1. simpl. auto.
  - apply IH1 in H. destruct H as (w & s1 & L & (R & B) & K).
    assert (C : consumed s s1 = w) by (apply consumed_moved; split; assumption).
    rewrite C in K. exists w, (set_cap n w s1). simpl.
    split; [eauto|]. auto.
  - destruct g.
    + apply star_greedy_sound in H. destruct H as (w & rst' & Hw & Hr & Hk).
      exists w, (MState (rev w ++ before s) rst' (caps s)). simpl.
      split; [split; [exact Hw|reflexivity]|]. split; [|exact Hk]. auto.
    + apply star_lazy_sound in H. destruct H as (w & rst' & Hw & Hr & Hk).
      exists w, (MState (rev w ++ before s) rst' (caps s)). simpl.
      split; [split; [exact Hw|reflexivity]|]. split; [|exact Hk]. auto.
  - destruct (at_boundary s); [|discriminate]. exists [], s. simpl; auto.
  - destruct (at_bol s); [|discriminate]. exists [], s. simpl; auto.
  - destruct (at_eol s); [|discriminate]. exists [], s. simpl; auto.
  - destruct (run dotall r1 s Some) as [s1|] eqn:E; [|discriminate].
    apply IH1 in E. destruct E as (w1 & s2 & L & _ & K).
    inversion K; subst s2.
    exists [], (MState (before s) (rest s) (caps s1)). simpl.
    split; [|split; [|exact H]]; simpl; eauto.
Qed.

Lemma match_at_caps dotall r bef rst m :
  match_at dotall r bef rst = Some m ->
  exists rst', rst = group0 m ++ rst' /\
               caps_lang dotall r (group0 m) [] (groups m).
Proof.
  unfold match_at. intros H.
  destruct (run dotall r (MState bef rst []) Some) as [s1|] eqn:E; [|discriminate].
  inversion H; subst; clear H. simpl.
  apply run_caps in E. destruct E as (w & s2 & L & M & K).
  inversion K; subst s2.
  rewrite (consumed_moved _ _ _ M). destruct M as [R _]. simpl in *.
  exists (rest s1). auto.
Qed.

(** The groups of the three expressions of the passes. *)
Lemma italic_caps w cp :
  caps_lang false italic_re w [] cp ->
  (exists g, w = BT3 ++ g ++ BT3 /\ cp = [(1, g)]) \/
  (exists a g, w = "_"%char :: (a :: g) ++ ["_"%char] /\ cp = [(2, a :: g)]).
Proof.
  unfold italic_re, Plus. simpl. intros H. lang_inv.
  - left. eexists. split; reflexivity.
  - right. eexists _, _. split; reflexivity.
Qed.

(** The groups of the expressions of the passes. *)
Lemma boundary_caps d w cp :
  caps_lang false (boundary_re d) w [] cp ->
  (exists g, w = BT3 ++ g ++ BT3 /\ cp = [(1, w); (2, g)]) \/
  (exists g3 a g, w = g3 ++ d :: (a :: g) ++ [d] /\ a <> d /\
                  Forall (fun b => b <> d) g /\
                  cp = [(1, w); (4, a :: g); (3, g3)]).
Proof.
  unfold boundary_re, Plus. simpl. intros H. lang_inv.
  1: left; eexists; split; reflexivity.
  all: right;
    match goal with
    | |- exists _ _ _, _ /\ _ /\ _ /\ [(1, _); (4, [?a] ++ ?g); (3, ?g3)] = _ =>
        exists g3, a, g
    end;
    (split; [reflexivity|]);
    (split; [apply Ascii.eqb_neq, negb_true_iff; assumption|]);
    (split; [|reflexivity]);
    (eapply Forall_impl; [|eassumption]);
    intros b Hb; apply negb_true_iff, Ascii.eqb_neq in Hb; exact Hb.
Qed.

Lemma mono_caps dotall w cp :
  caps_lang dotall mono_re w [] cp ->
  exists g, w = BT3 ++ g ++ BT3 /\ cp = [(1, g)].
Proof.
  unfold mono_re, Plus. simpl. intros H. lang_inv.
  eexists. split; reflexivity.
Qed.

(** What the replacements do to the number of delimiter characters. *)
Lemma italic_repl_occ (c : ascii) w cp :
  caps_lang false italic_re w [] cp ->
  c = "*"%char \/ c = "~"%char \/ c = "`"%char ->
  occ c (italic_repl (RMatch w cp)) = occ c w.
Proof.
  intros H Hc. apply italic_caps in H.
  destruct H as [(g & -> & ->) | (a & g & -> & ->)].
  - reflexivity.
  - unfold italic_repl, gtruthy, gtext. cbn [group get_cap groups Nat.eqb].
    rewrite !occ_app. destruct Hc as [-> | [-> | ->]]; simpl; rewrite !occ_app;
      simpl; lia.
Qed.

Lemma boundary_repl_occ (d c : ascii) tag w cp :
  caps_lang false (boundary_re d) w [] cp ->
  c = "_"%char \/ c = "*"%char \/ c = "~"%char \/ c = "`"%char -> c <> d ->
  tag = T "strong" \/ tag = T "del" ->
  occ c (boundary_repl tag (RMatch w cp)) = occ c w.
Proof.
  intros H Hc Hd Ht. apply boundary_caps in H.
  destruct H as [(g & -> & ->) | (g3 & a & g & -> & _ & _ & ->)].
  - reflexivity.
  - unfold boundary_repl, gtruthy, gtext. cbn [group get_cap groups Nat.eqb].
    assert (E : Ascii.eqb d c = false) by (apply Ascii.eqb_neq; congruence).
    rewrite !occ_app. cbn [occ]. rewrite !occ_app. cbn [occ]. rewrite E.
    assert (Ht0 : occ c tag = 0).
    { destruct Ht as [-> | ->]; destruct Hc as [-> | [-> | [-> | ->]]];
        reflexivity. }
    assert (H1 : occ c (T "<") = 0 /\ occ c (T ">") = 0 /\ occ c (T "</") = 0).
    { destruct Hc as [-> | [-> | [-> | ->]]]; repeat split; reflexivity. }
    destruct H1 as (H1 & H2 & H3). rewrite Ht0, H1, H2, H3. lia.
Qed.

Lemma mono_repl_occ (c : ascii) w cp :
  caps_lang true mono_re w [] cp ->
  c = "_"%char \/ c = "*"%char \/ c = "~"%char ->
  occ c (mono_repl (RMatch w cp)) = occ c w.
Proof.
  intros H Hc. apply mono_caps in H. destruct H as (g & -> & ->).
  unfold mono_repl, gtext. cbn [group get_cap groups Nat.eqb].
  rewrite !occ_app. destruct Hc as [-> | [-> | ->]]; simpl; lia.
Qed.

(** Substitution with replacements that keep a count, or the text. *)
Lemma sub_loop_occ dotall r repl (c : ascii) (P : text -> Prop) :
  (forall a q, P (a :: q) -> P q) ->
  (forall bef q m, P q -> match_at dotall r bef q = Some m ->
                   occ c (repl m) = occ c (group0 m)) ->
  forall rst bef skip, P rst ->
    occ c (sub_loop dotall r repl bef rst skip) = occ c (skipn skip rst).
Proof.
  intros Htl Hm. induction rst as [|a rst IH]; intros bef skip HP.
  - destruct skip; simpl; [|reflexivity].
    destruct (match_at dotall r bef []) as [m|] eqn:E; [|reflexivity].
    rewrite app_nil_r, (Hm _ _ _ HP E).
    apply match_at_sound in E. destruct E as (q & E & _).
    symmetry in E. apply app_eq_nil in E. destruct E as [-> _]. reflexivity.
  - assert (HP' : P rst) by (eapply Htl; eauto).
    destruct skip as [|n]; simpl; [|apply IH, HP'].
    destruct (match_at dotall r bef (a :: rst)) as [m|] eqn:E.
    + rewrite occ_app, (Hm _ _ _ HP E).
      apply match_at_sound in E. destruct E as (q & E & _).
      destruct (group0 m) as [|b g] eqn:G; simpl.
      * rewrite (IH _ 0 HP'). reflexivity.
      * simpl in E. inversion E; subst. rewrite (IH _ (length g) HP').
        rewrite skipn_app, skipn_all, Nat.sub_diag. simpl.
        rewrite occ_app. lia.
    + simpl. rewrite (IH _ 0 HP'). reflexivity.
Qed.

Lemma rmatch_eta (m : rmatch) : m = RMatch (group0 m) (groups m).
Proof. destruct m; reflexivity. Qed.

(** Each pass keeps the number of the delimiters of the other passes, and
    leaves a text alone in which its own delimiter has no partner. *)
Lemma italic_pass_occ (c : ascii) u :
  c = "*"%char \/ c = "~"%char \/ c = "`"%char ->
  occ c (italic_pass u) = occ c u.
Proof.
  intros Hc. unfold italic_pass, re_sub.
  rewrite (sub_loop_occ false italic_re italic_repl c (fun _ => True)); auto.
  intros bef q m _ E. apply match_at_caps in E. destruct E as (_ & _ & L).
  rewrite (rmatch_eta m) at 1. apply italic_repl_occ; assumption.
Qed.

Lemma boundary_pass_occ (d c : ascii) tag u :
  c = "_"%char \/ c = "*"%char \/ c = "~"%char \/ c = "`"%char -> c <> d ->
  tag = T "strong" \/ tag = T "del" ->
  occ c (re_sub false (boundary_re d) (boundary_repl tag) u) = occ c u.
Proof.
  intros Hc Hd Ht. unfold re_sub.
  rewrite (sub_loop_occ false (boundary_re d) (boundary_repl tag) c
             (fun _ => True)); auto.
  intros bef q m _ E. apply match_at_caps in E. destruct E as (_ & _ & L).
  rewrite (rmatch_eta m) at 1. apply (boundary_repl_occ d); assumption.
Qed.

Lemma mono_pass_occ (c : ascii) u :
  c = "_"%char \/ c = "*"%char \/ c = "~"%char ->
  occ c (mono_pass u) = occ c u.
Proof.
  intros Hc. unfold mono_pass, re_sub.
  rewrite (sub_loop_occ true mono_re mono_repl c (fun _ => True)); auto.
  intros bef q m _ E. apply match_at_caps in E. destruct E as (_ & _ & L).
  rewrite (rmatch_eta m) at 1. apply mono_repl_occ; assumption.
Qed.

Lemma html_escape_occ (c : ascii) s :
  c = "_"%char \/ c = "*"%char \/ c = "~"%char \/ c = "`"%char ->
  occ c (html_escape s) = occ c s.
Proof.
  intros Hc. apply occ_flat_map. intros a. unfold escape_char.
  destruct (Ascii.eqb a "&"%char) eqn:E1;
    [apply Ascii.eqb_eq in E1; subst;
     destruct Hc as [-> | [-> | [-> | ->]]]; reflexivity|].
  destruct (Ascii.eqb a "<"%char) eqn:E2;
    [apply Ascii.eqb_eq in E2; subst;
     destruct Hc as [-> | [-> | [-> | ->]]]; reflexivity|].
  destruct (Ascii.eqb a ">"%char) eqn:E3;
    [apply Ascii.eqb_eq in E3; subst;
     destruct Hc as [-> | [-> | [-> | ->]]]; reflexivity|].
  reflexivity.
Qed.

Lemma nl2br_occ (c : ascii) s :
  c = "_"%char \/ c = "*"%char \/ c = "~"%char \/ c = "`"%char ->
  occ c (nl2br s) = occ c s.
Proof.
  intros Hc. apply occ_flat_map. intros a. unfold nl_char.
  destruct (Ascii.eqb a NL) eqn:E1; [|reflexivity].
  apply Ascii.eqb_eq in E1; subst.
  destruct Hc as [-> | [-> | [-> | ->]]]; reflexivity.
Qed.


(** Each pass takes its own delimiter away in pairs, the backtick in
    sixes. *)
Lemma italic_repl_pairs w cp :
  caps_lang false italic_re w [] cp ->
  exists k, occ "_"%char w = occ "_"%char (italic_repl (RMatch w cp)) + 2 * k.
Proof.
  intros H. apply italic_caps in H.
  destruct H as [(g & -> & ->) | (a & g & -> & ->)].
  - exists 0. unfold italic_repl. simpl. lia.
  - exists 1. unfold italic_repl, gtruthy, gtext.
    cbn [group get_cap groups Nat.eqb].
    change ("_"%char :: (a :: g) ++ ["_"%char])
      with (["_"%char] ++ (a :: g) ++ ["_"%char]).
    rewrite !occ_app. simpl. lia.
Qed.

Lemma boundary_repl_pairs (d : ascii) tag w cp :
  caps_lang false (boundary_re d) w [] cp ->
  d = "*"%char \/ d = "~"%char -> tag = T "strong" \/ tag = T "del" ->
  exists k, occ d w = occ d (boundary_repl tag (RMatch w cp)) + 2 * k.
Proof.
  intros H Hd Ht. apply boundary_caps in H.
  destruct H as [(g & -> & ->) | (g3 & a & g & -> & _ & _ & ->)].
  - exists 0. unfold boundary_repl. simpl. lia.
  - exists 1. unfold boundary_repl, gtruthy, gtext.
    cbn [group get_cap groups Nat.eqb].
    change (d :: (a :: g) ++ [d]) with ([d] ++ (a :: g) ++ [d]).
    assert (Ht0 : occ d tag = 0).
    { destruct Ht as [-> | ->]; destruct Hd as [-> | ->]; reflexivity. }
    assert (H1 : occ d (T "<") = 0 /\ occ d (T ">") = 0 /\ occ d (T "</") = 0).
    { destruct Hd as [-> | ->]; repeat split; reflexivity. }
    destruct H1 as (H1 & H2 & H3).
    rewrite !occ_app, Ht0, H1, H2, H3. cbn [occ]. rewrite Ascii.eqb_refl. lia.
Qed.

Lemma mono_repl_six w cp :
  caps_lang true mono_re w [] cp ->
  exists k, occ "`"%char w = occ "`"%char (mono_repl (RMatch w cp)) + 6 * k.
Proof.
  intros H. apply mono_caps in H. destruct H as (g & -> & ->).
  exists 1. unfold mono_repl, gtext. cbn [group get_cap groups Nat.eqb].
  rewrite !occ_app. simpl. lia.
Qed.

Lemma sub_loop_occ_mult dotall r repl (c : ascii) (n : nat) :
  (forall bef q m, match_at dotall r bef q = Some m ->
                   exists k, occ c (group0 m) = occ c (repl m) + n * k) ->
  forall rst bef skip,
    exists k, occ c (skipn skip rst)
              = occ c (sub_loop dotall r repl bef rst skip) + n * k.
Proof.
  intros Hm. induction rst as [|a rst IH]; intros bef skip.
  - destruct skip; simpl; [|exists 0; lia].
    destruct (match_at dotall r bef []) as [m|] eqn:E; [|exists 0; simpl; lia].
    destruct (Hm _ _ _ E) as [k Hk].
    apply match_at_sound in E. destruct E as (q & E & _).
    symmetry in E. apply app_eq_nil in E. destruct E as [E _].
    rewrite E in Hk. exists k. rewrite app_nil_r. exact Hk.
  - destruct skip as [|j]; simpl; [|apply IH].
    destruct (match_at dotall r bef (a :: rst)) as [m|] eqn:E.
    + destruct (Hm _ _ _ E) as [k Hk].
      apply match_at_sound in E. destruct E as (q & E & _).
      destruct (group0 m) as [|b g] eqn:G; simpl.
      * destruct (IH (a :: bef) 0) as [k' Hk']. simpl in Hk'. simpl in Hk.
        exists (k + k'). rewrite occ_app. simpl.
        rewrite Nat.mul_add_distr_l. lia.
      * simpl in E. inversion E; subst.
        destruct (IH (b :: bef) (length g)) as [k' Hk'].
        rewrite skipn_app, skipn_all, Nat.sub_diag in Hk'. simpl in Hk'.
        exists (k + k'). rewrite !occ_app. simpl in Hk.
        rewrite Nat.mul_add_distr_l. lia.
    + destruct (IH (a :: bef) 0) as [k' Hk']. simpl in Hk'.
      exists k'. simpl. lia.
Qed.

Lemma italic_pass_pairs u :
  exists k, occ "_"%char u = occ "_"%char (italic_pass u) + 2 * k.
Proof.
  unfold italic_pass, re_sub.
  apply (sub_loop_occ_mult false italic_re italic_repl "_"%char 2) with (skip := 0).
  intros bef q m E. apply match_at_caps in E. destruct E as (_ & _ & L).
  destruct m as [w0 cp0]. simpl in L |- *. apply italic_repl_pairs, L.
Qed.

Lemma boundary_pass_pairs (d : ascii) tag u :
  d = "*"%char \/ d = "~"%char -> tag = T "strong" \/ tag = T "del" ->
  exists k, occ d u
            = occ d (re_sub false (boundary_re d) (boundary_repl tag) u) + 2 * k.
Proof.
  intros Hd Ht. unfold re_sub.
  apply (sub_loop_occ_mult false (boundary_re d) (boundary_repl tag) d 2)
    with (skip := 0).
  intros bef q m E. apply match_at_caps in E. destruct E as (_ & _ & L).
  destruct m as [w0 cp0]. simpl in L |- *. apply boundary_repl_pairs; assumption.
Qed.

Lemma mono_pass_six u :
  exists k, occ "`"%char u = occ "`"%char (mono_pass u) + 6 * k.
Proof.
  unfold mono_pass, re_sub.
  apply (sub_loop_occ_mult true mono_re mono_repl "`"%char 6) with (skip := 0).
  intros bef q m E. apply match_at_caps in E. destruct E as (_ & _ & L).
  destruct m as [w0 cp0]. simpl in L |- *. apply mono_repl_six, L.
Qed.

(** All passes together: the formatter takes the delimiters [_], [*] and
    [~] away in pairs only, and backticks in sixes only, in both modes. *)
Lemma parse_markdown_pairs (d : ascii) s test :
  is_delimiter d ->
  exists k, occ d s = occ d (parse_markdown s test) + 2 * k.
Proof.
  intros Hd. unfold parse_markdown.
  set (u := if test then s else html_escape s).
  assert (Hu : occ d u = occ d s).
  { unfold u. destruct test; [reflexivity|]. apply html_escape_occ.
    unfold is_delimiter in Hd. tauto. }
  assert (E : exists k, occ d s
              = occ d (mono_pass (strike_pass (bold_pass (italic_pass u)))) + 2 * k).
  { rewrite <- Hu. clear Hu. unfold strike_pass, bold_pass, strike_re, bold_re.
    destruct Hd as [-> | [-> | ->]].
    - destruct (italic_pass_pairs u) as [k Hk]. exists k.
      rewrite mono_pass_occ by tauto.
      rewrite !boundary_pass_occ by (auto; discriminate). exact Hk.
    - destruct (boundary_pass_pairs "*"%char (T "strong") (italic_pass u))
        as [k Hk]; auto.
      exists k. rewrite mono_pass_occ by tauto.
      rewrite boundary_pass_occ by (auto; discriminate).
      rewrite <- Hk. symmetry. apply italic_pass_occ. tauto.
    - destruct (boundary_pass_pairs "~"%char (T "del")
                  (re_sub false (boundary_re "*") (boundary_repl (T "strong"))
                     (italic_pass u))) as [k Hk]; auto.
      exists k. rewrite mono_pass_occ by tauto. rewrite <- Hk.
      rewrite boundary_pass_occ by (auto; discriminate).
      symmetry. apply italic_pass_occ. tauto. }
  destruct test; [exact E|].
  rewrite nl2br_occ by (unfold is_delimiter in Hd; tauto). exact E.
Qed.

Lemma parse_markdown_sixes s test :
  exists k, occ "`"%char s = occ "`"%char (parse_markdown s test) + 6 * k.
Proof.
  unfold parse_markdown.
  set (u := if test then s else html_escape s).
  assert (Hu : occ "`"%char u = occ "`"%char s).
  { unfold u. destruct test; [reflexivity|]. apply html_escape_occ. tauto. }
  assert (E : exists k, occ "`"%char s
              = occ "`"%char (mono_pass (strike_pass (bold_pass (italic_pass u))))
                + 6 * k).
  { rewrite <- Hu. clear Hu.
    assert (H3 : occ "`"%char (strike_pass (bold_pass (italic_pass u)))
                 = occ "`"%char u).
    { unfold strike_pass, bold_pass, strike_re, bold_re.
      rewrite !boundary_pass_occ by (auto; discriminate).
      apply italic_pass_occ. tauto. }
    destruct (mono_pass_six (strike_pass (bold_pass (italic_pass u)))) as [k Hk].
    exists k. rewrite <- Hk. symmetry. exact H3. }
  destruct test; [exact E|].
  rewrite nl2br_occ by tauto. exact E.
Qed.

(* ------------------------------------------------------------------ *)
(** ** The markup formatter: a lone delimiter *)

(** Claim C7, amended: the formatter gives the backslash no meaning: for
    every non-empty [x] without delimiter characters and newlines, the text
    made of a backslash and [_x_] is detected as a backslash and the italic
    span of [x].  A delimiter without a partner is left as literal text, in
    every text and in both modes: the passes take each of [_], [*] and [~]
    away in pairs only and the backtick in sixes only, so that a delimiter
    that occurs once in the text occurs once in the result, one of an odd
    number is left over, and fewer than six backticks all stay.  A text in
    which no delimiter has a partner is unchanged by detection, and
    rendering only escapes it and marks its line breaks. *)
Theorem C7_backslash_is_literal_and_lone_delimiters_stay
  (x s : text) (d : ascii) (test : bool)
  (Hx : inline x) (Hd : is_delimiter d) :
  parse_markdown ("\"%char :: "_"%char :: x ++ ["_"%char]) true
  = "\"%char :: T "<em>" ++ x ++ T "</em>" /\
  (exists k, occ d s = occ d (parse_markdown s test) + 2 * k) /\
  (occ d s = 1 -> occ d (parse_markdown s test) = 1) /\
  (Nat.Odd (occ d s) -> 1 <= occ d (parse_markdown s test)) /\
  (exists k, occ "`"%char s = occ "`"%char (parse_markdown s test) + 6 * k) /\
  (occ "`"%char s <= 5 ->
   occ "`"%char (parse_markdown s test) = occ "`"%char s) /\
  (sparse s ->
   parse_markdown s true = s /\ parse_markdown s false = nl2br (html_escape s)).
Proof.
  destruct (parse_markdown_pairs d s test Hd) as [k Hk].
  destruct (parse_markdown_sixes s test) as [j Hj].
  split; [apply detect_escaped, Hx|].
  split; [exists k; exact Hk|].
  split; [intros H1; lia|].
  split; [intros [n Hn]; lia|].
  split; [exists j; exact Hj|].
  split; [intros H5; lia|].
  intros Hs. split; [apply detect_sparse, Hs | apply render_sparse, Hs].
Qed.

Lemma C7_backslash_is_literal_and_lone_delimiters_stay_witness :
  parse_markdown ("\"%char :: "_"%char :: T "so" ++ ["_"%char]) true
  = "\"%char :: T "<em>" ++ T "so" ++ T "</em>" /\
  (exists k, occ "*"%char (T "*a* and *b")
             = occ "*"%char (parse_markdown (T "*a* and *b") false) + 2 * k) /\
  (occ "*"%char (T "*a* and *b") = 1 ->
   occ "*"%char (parse_markdown (T "*a* and *b") false) = 1) /\
  (Nat.Odd (occ "*"%char (T "*a* and *b")) ->
   1 <= occ "*"%char (parse_markdown (T "*a* and *b") false)) /\
  (exists k, occ "`"%char (T "*a* and *b")
             = occ "`"%char (parse_markdown (T "*a* and *b") false) + 6 * k) /\
  (occ "`"%char (T "*a* and *b") <= 5 ->
   occ "`"%char (parse_markdown (T "*a* and *b") false)
   = occ "`"%char (T "*a* and *b")) /\
  (sparse (T "*a* and *b") ->
   parse_markdown (T "*a* and *b") true = T "*a* and *b" /\
   parse_markdown (T "*a* and *b") false = nl2br (html_escape (T "*a* and *b"))).
Proof.
  apply (C7_backslash_is_literal_and_lone_delimiters_stay
           (T "so") (T "*a* and *b") "*"%char false).
  - split; [discriminate|]. repeat constructor; discriminate.
  - right. left. reflexivity.
Defined.

(** A pass leaves a text alone in which its delimiter has no partner. *)
Lemma italic_repl_lone w cp :
  caps_lang false italic_re w [] cp -> occ "_"%char w <= 1 ->
  italic_repl (RMatch w cp) = w.
Proof.
  intros H H1. apply italic_caps in H.
  destruct H as [(g & -> & ->) | (a & g & -> & ->)].
  - reflexivity.
  - exfalso. simpl in H1. rewrite occ_app in H1. simpl in H1. lia.
Qed.

Lemma boundary_repl_lone (d : ascii) tag w cp :
  caps_lang false (boundary_re d) w [] cp -> occ d w <= 1 ->
  boundary_repl tag (RMatch w cp) = w.
Proof.
  intros H H1. apply boundary_caps in H.
  destruct H as [(g & -> & ->) | (g3 & a & g & -> & _ & _ & ->)].
  - reflexivity.
  - exfalso. rewrite occ_app in H1. cbn [occ] in H1. rewrite occ_app in H1.
    cbn [occ] in H1. rewrite Ascii.eqb_refl in H1. lia.
Qed.

Lemma sub_loop_same dotall r repl (P : text -> Prop) :
  (forall a q, P (a :: q) -> P q) ->
  (forall bef q m, P q -> match_at dotall r bef q = Some m ->
                   repl m = group0 m) ->
  forall rst bef skip, P rst ->
    sub_loop dotall r repl bef rst skip = skipn skip rst.
Proof.
  intros Htl Hm. induction rst as [|a rst IH]; intros bef skip HP.
  - destruct skip; simpl; [|reflexivity].
    destruct (match_at dotall r bef []) as [m|] eqn:E; [|reflexivity].
    rewrite app_nil_r, (Hm _ _ _ HP E).
    apply match_at_sound in E. destruct E as (q & E & _).
    symmetry in E. apply app_eq_nil in E. destruct E as [-> _]. reflexivity.
  - assert (HP' : P rst) by (eapply Htl; eauto).
    destruct skip as [|n]; simpl; [|apply IH, HP'].
    destruct (match_at dotall r bef (a :: rst)) as [m|] eqn:E.
    + rewrite (Hm _ _ _ HP E).
      apply match_at_sound in E. destruct E as (q & E & _).
      destruct (group0 m) as [|b g] eqn:G; simpl.
      * rewrite (IH _ 0 HP'). reflexivity.
      * simpl in E. inversion E; subst. rewrite (IH _ (length g) HP').
        rewrite skipn_app, skipn_all, Nat.sub_diag. reflexivity.
    + rewrite (IH _ 0 HP'). reflexivity.
Qed.

Lemma match_prefix_occ dotall r bef q m (c : ascii) :
  match_at dotall r bef q = Some m -> occ c (group0 m) <= occ c q.
Proof.
  intros E. apply match_at_sound in E. destruct E as (q' & -> & _).
  rewrite occ_app. lia.
Qed.

Lemma italic_pass_lone u : occ "_"%char u <= 1 -> italic_pass u = u.
Proof.
  intros H. unfold italic_pass, re_sub.
  rewrite (sub_loop_same false italic_re italic_repl
             (fun q => occ "_"%char q <= 1)); auto.
  - intros a q. simpl. lia.
  - intros bef q m Hq E. pose proof (match_prefix_occ _ _ _ _ _ "_"%char E).
    apply match_at_caps in E. destruct E as (_ & _ & L).
    rewrite (rmatch_eta m) at 1. apply italic_repl_lone; [assumption|lia].
Qed.

Lemma boundary_pass_lone (d : ascii) tag u :
  occ d u <= 1 -> re_sub false (boundary_re d) (boundary_repl tag) u = u.
Proof.
  intros H. unfold re_sub.
  rewrite (sub_loop_same false (boundary_re d) (boundary_repl tag)
             (fun q => occ d q <= 1)); auto.
  - intros a q. simpl. lia.
  - intros bef q m Hq E. pose proof (match_prefix_occ _ _ _ _ _ d E).
    apply match_at_caps in E. destruct E as (_ & _ & L).
    rewrite (rmatch_eta m) at 1. apply (boundary_repl_lone d); [assumption|lia].
Qed.

(* ------------------------------------------------------------------ *)
(** ** Where the passes can match *)

Lemma closes_line_app w r :
  Forall (fun a => cset_mem false CDot a = true) w ->
  closes_line (w ++ "_"%char :: r) = true.
Proof.
  induction w as [|a w IH]; intros H; simpl; [reflexivity|].
  inversion H as [|? ? Ha Hw]; subst. simpl in Ha.
  destruct (Ascii.eqb a "_"%char); [reflexivity|].
  apply negb_true_iff in Ha. rewrite Ha. apply IH, Hw.
Qed.

Lemma closes_line_inv q :
  closes_line q = true ->
  exists w r, q = w ++ "_"%char :: r /\
              Forall (fun a => cset_mem false CDot a = true) w.
Proof.
  induction q as [|b q IH]; simpl; [discriminate|].
  destruct (Ascii.eqb b "_"%char) eqn:E1.
  - intros _. apply Ascii.eqb_eq in E1. subst. exists [], q. split; [reflexivity|constructor].
  - destruct (Ascii.eqb b NL) eqn:E2; [discriminate|].
    intros H. destruct (IH H) as (w & r & -> & Hw).
    exists (b :: w), r. split; [reflexivity|]. constructor; [|exact Hw].
    simpl. rewrite E2. reflexivity.
Qed.

(** A match of the italic expression shows a place where it can match. *)
Lemma italic_match_site bef q m :
  occ "`"%char q <= 5 -> match_at false italic_re bef q = Some m ->
  has_italic_site (word_at bef) q = true.
Proof.
  intros H4 E. apply match_at_sound_in in E. destruct E as (r & -> & L).
  destruct m as [w cp]. cbn [group0] in *.
  unfold italic_re, Plus, BT3 in L. simpl in L. lang_inv.
  - exfalso. rewrite !occ_app in H4. simpl in H4. lia.
  - match goal with
    | H : at_boundary _ = true |- _ => unfold at_boundary in H; simpl in H
    end.
    simpl.
    match goal with
    | H : xorb (word_at bef) _ = true |- _ =>
        destruct (word_at bef); [discriminate|]
    end.
    simpl.
    match goal with
    | H : negb (Ascii.eqb ?c NL) = true |- _ => rewrite H
    end.
    simpl. rewrite <- !app_assoc. simpl.
    rewrite closes_line_app by assumption. reflexivity.
Qed.

(** Without a place to match, the italic pass changes nothing. *)
Lemma italic_pass_no_site u :
  occ "`"%char u <= 5 -> has_italic_site false u = false -> italic_pass u = u.
Proof.
  intros H4 Hs. unfold italic_pass, re_sub.
  apply sub_loop_id_ctx
    with (P := fun bef q => has_italic_site (word_at bef) q = false /\
                            occ "`"%char q <= 5).
  - intros bef a q [H1 H2]. simpl in H1, H2. apply orb_false_iff in H1.
    split; [apply H1|lia].
  - intros bef q [H1 H2].
    destruct (match_at false italic_re bef q) as [m|] eqn:E; [|reflexivity].
    apply italic_match_site in E; [congruence|exact H2].
  - split; assumption.
Qed.

(** A lazy repetition succeeds when its continuation does so somewhere
    ahead. *)
Lemma star_lazy_some dotall c w : forall bef rst cp k,
  Forall (fun a => cset_mem dotall c a = true) w ->
  k (MState (rev w ++ bef) rst cp) <> None ->
  star_lazy dotall c bef (w ++ rst) cp k <> None.
Proof.
  induction w as [|a w IH]; intros bef rst cp k Hw Hk.
  - simpl in *. destruct rst; simpl;
      destruct (k _); try discriminate; congruence.
  - inversion Hw as [|? ? Ha Hw']; subst. simpl.
    destruct (k (MState bef (a :: w ++ rst) cp)); [discriminate|].
    rewrite Ha. apply IH; [exact Hw'|].
    simpl in Hk. rewrite <- app_assoc in Hk. exact Hk.
Qed.

Lemma star_greedy_some dotall c w : forall bef rst cp k,
  Forall (fun a => cset_mem dotall c a = true) w ->
  k (MState (rev w ++ bef) rst cp) <> None ->
  star_greedy dotall c bef (w ++ rst) cp k <> None.
Proof.
  induction w as [|a w IH]; intros bef rst cp k Hw Hk.
  - simpl in *. destruct rst as [|b rst]; simpl; [exact Hk|].
    destruct (cset_mem dotall c b); [|exact Hk].
    destruct (star_greedy dotall c (b :: bef) rst cp k); [discriminate|exact Hk].
  - inversion Hw as [|? ? Ha Hw']; subst. simpl. rewrite Ha.
    assert (N : star_greedy dotall c (a :: bef) (w ++ rst) cp k <> None).
    { apply IH; [exact Hw'|]. simpl in Hk. rewrite <- app_assoc in Hk. exact Hk. }
    destruct (star_greedy dotall c (a :: bef) (w ++ rst) cp k);
      [discriminate|congruence].
Qed.

Lemma run_Alt_some dotall r1 r2 s k :
  run dotall r2 s k <> None -> run dotall (Alt r1 r2) s k <> None.
Proof.
  intros H. simpl. destruct (run dotall r1 s k); [discriminate|exact H].
Qed.

Lemma run_Alt_some_left dotall r1 r2 s k :
  run dotall r1 s k <> None -> run dotall (Alt r1 r2) s k <> None.
Proof.
  intros H. simpl. destruct (run dotall r1 s k); [discriminate|congruence].
Qed.

Lemma match_at_some dotall r bef rst :
  run dotall r (MState bef rst []) Some <> None ->
  match_at dotall r bef rst <> None.
Proof.
  unfold match_at. destruct (run dotall r (MState bef rst []) Some);
    [discriminate|congruence].
Qed.

(** The italic expression matches where [has_italic_site] finds a place. *)
Lemma italic_site_match_here bef v :
  word_at bef = false -> italic_follows v = true ->
  match_at false italic_re bef ("_"%char :: v) <> None.
Proof.
  intros Hw Hf. destruct v as [|c q]; [discriminate|]. simpl in Hf.
  apply andb_true_iff in Hf. destruct Hf as [Hc Hq].
  apply closes_line_inv in Hq. destruct Hq as (w & r & -> & Hwn).
  apply match_at_some. unfold italic_re. apply run_Alt_some.
  unfold seqs. rewrite run_Seq, run_WordB
    by (unfold at_boundary; simpl; rewrite Hw; reflexivity).
  rewrite run_Seq. erewrite run_Str by reflexivity.
  rewrite run_Seq, run_Group. unfold Plus. rewrite run_Seq.
  cbn [before rest caps]. rewrite run_One by exact Hc.
  cbn [run before rest caps]. apply star_lazy_some; [exact Hwn|].
  unfold set_cap. cbn [rest before caps]. change (T "_") with ["_"%char].
  cbn [strip_prefix]. rewrite Ascii.eqb_refl. discriminate.
Qed.

Lemma italic_site_match q : forall bef,
  has_italic_site (word_at bef) q = true ->
  exists p q', q = p ++ q' /\ match_at false italic_re (rev p ++ bef) q' <> None.
Proof.
  induction q as [|a q IH]; intros bef H; simpl in H; [discriminate|].
  apply orb_true_iff in H. destruct H as [H | H].
  - apply andb_true_iff in H. destruct H as [H Hf].
    apply andb_true_iff in H. destruct H as [Ha Hw].
    apply Ascii.eqb_eq in Ha. subst a. apply negb_true_iff in Hw.
    exists [], ("_"%char :: q). split; [reflexivity|].
    apply italic_site_match_here; assumption.
  - destruct (IH (a :: bef) H) as (p & q' & -> & Hm).
    exists (a :: p), q'. split; [reflexivity|].
    simpl. rewrite <- app_assoc. exact Hm.
Qed.

(** A substitution that keeps the number of a character made no match,
    when every match takes some away. *)
Lemma sub_loop_kept dotall r repl (c : ascii) (P : text -> Prop) :
  (forall a q, P (a :: q) -> P q) ->
  (forall rst bef skip,
     occ c (sub_loop dotall r repl bef rst skip) <= occ c (skipn skip rst)) ->
  (forall bef q m, P q -> match_at dotall r bef q = Some m ->
                   occ c (repl m) < occ c (group0 m)) ->
  forall rst bef, P rst ->
    occ c (sub_loop dotall r repl bef rst 0) = occ c rst ->
    forall p q, rst = p ++ q -> match_at dotall r (rev p ++ bef) q = None.
Proof.
  intros Htl Hle Hlt. induction rst as [|a rst IH]; intros bef HP Heq p q E.
  - symmetry in E. apply app_eq_nil in E. destruct E as [-> ->]. simpl.
    destruct (match_at dotall r bef []) as [m|] eqn:Em; [|reflexivity].
    exfalso. pose proof (Hlt _ _ _ HP Em) as L.
    apply match_at_sound in Em. destruct Em as (q & Eq & _).
    symmetry in Eq. apply app_eq_nil in Eq. destruct Eq as [Eq _].
    rewrite Eq in L. simpl in L. lia.
  - assert (HP' : P rst) by (eapply Htl; eauto).
    assert (N : match_at dotall r bef (a :: rst) = None).
    { destruct (match_at dotall r bef (a :: rst)) as [m|] eqn:Em; [|reflexivity].
      exfalso. pose proof (Hlt _ _ _ HP Em) as L.
      rewrite sub_loop_zero, Em, occ_app in Heq.
      apply match_at_sound in Em. destruct Em as (q0 & Eq & _).
      destruct (group0 m) as [|b g] eqn:G; [simpl in L; lia|].
      simpl in Eq. inversion Eq; subst. simpl length in Heq.
      pose proof (Hle (g ++ q0) (b :: bef) (length g)) as L2.
      rewrite skipn_app, skipn_all, Nat.sub_diag in L2. simpl in L2.
      change (b :: g ++ q0) with ((b :: g) ++ q0) in Heq.
      rewrite occ_app in Heq. lia. }
    destruct p as [|b p].
    + simpl in E. subst q. exact N.
    + simpl in E. inversion E; subst.
      rewrite sub_loop_pass in Heq by exact N. simpl in Heq.
      simpl. rewrite <- app_assoc. apply (IH (b :: bef) HP'); [lia|reflexivity].
Qed.

(** Where the italic expression has a place to match, the pass takes two
    underscores away. *)
Lemma italic_pass_drop u :
  occ "`"%char u <= 5 -> has_italic_site false u = true ->
  occ "_"%char (italic_pass u) + 2 <= occ "_"%char u.
Proof.
  intros H4 Hs. destruct (italic_pass_pairs u) as [k Hk].
  destruct k as [|k]; [exfalso|lia].
  apply (italic_site_match u []) in Hs. destruct Hs as (p & q' & E & Hm).
  apply Hm. rewrite app_nil_r.
  rewrite <- (app_nil_r (rev p)).
  apply (sub_loop_kept false italic_re italic_repl "_"%char
           (fun q => occ "`"%char q <= 5)) with (rst := u); auto.
  - intros a q. simpl. lia.
  - intros rst bef skip.
    destruct (sub_loop_occ_mult false italic_re italic_repl "_"%char 2) with
      (rst := rst) (bef := bef) (skip := skip) as [j Hj]; [|lia].
    intros bef' q m E'. apply match_at_caps in E'. destruct E' as (_ & _ & L).
    destruct m as [w0 cp0]. simpl in L |- *. apply italic_repl_pairs, L.
  - intros bef q m Hq E'. pose proof (match_at_caps _ _ _ _ _ E') as (r' & Er & L).
    destruct m as [w0 cp0]. cbn [group0 groups] in *.
    apply italic_caps in L. destruct L as [(g & -> & ->) | (a & g & -> & ->)].
    + exfalso. subst q. rewrite !occ_app in Hq. simpl in Hq. lia.
    + unfold italic_repl, gtruthy, gtext. cbn [group get_cap groups Nat.eqb].
      change ("_"%char :: (a :: g) ++ ["_"%char])
        with (["_"%char] ++ (a :: g) ++ ["_"%char]).
      rewrite !occ_app. simpl. lia.
  - unfold italic_pass, re_sub in Hk. lia.
Qed.

Lemma closes_span_app (d : ascii) w r first :
  Forall (fun a => cset_mem false (CNot d) a = true) w ->
  (first = true -> w <> []) -> word_at r = false ->
  closes_span d first (w ++ d :: r) = true.
Proof.
  revert first. induction w as [|a w IH]; intros first H Hne Hr; simpl.
  - rewrite Ascii.eqb_refl, Hr. destruct first; [|reflexivity].
    exfalso. apply Hne; reflexivity.
  - inversion H as [|? ? Ha Hw]; subst. simpl in Ha.
    apply negb_true_iff in Ha. rewrite Ha.
    apply IH; [exact Hw|discriminate|exact Hr].
Qed.

Lemma closes_span_inv (d : ascii) q : forall first,
  closes_span d first q = true ->
  exists w r, q = w ++ d :: r /\
              Forall (fun a => cset_mem false (CNot d) a = true) w /\
              (first = true -> w <> []) /\ word_at r = false.
Proof.
  induction q as [|b q IH]; intros first; simpl; [discriminate|].
  destruct (Ascii.eqb b d) eqn:E1.
  - intros H. apply andb_true_iff in H. destruct H as [Hf Hr].
    apply Ascii.eqb_eq in E1. subst. exists [], q.
    split; [reflexivity|]. split; [constructor|].
    split; [|apply negb_true_iff, Hr].
    intros ->. discriminate.
  - intros H. destruct (IH false H) as (w & r & -> & Hw & _ & Hr).
    exists (b :: w), r. split; [reflexivity|].
    split; [constructor; [simpl; rewrite E1; reflexivity|exact Hw]|].
    split; [discriminate|exact Hr].
Qed.

Lemma span_site_shape (d : ascii) pn g3 c w r :
  (g3 = [] /\ pn = true) \/ (exists s, g3 = [s] /\ negb (is_word s) = true) ->
  negb (Ascii.eqb c d) = true ->
  Forall (fun a => negb (Ascii.eqb a d) = true) w ->
  word_at r = false ->
  has_span_site d pn ((g3 ++ [d] ++ ([c] ++ w) ++ [d] ++ []) ++ r) = true.
Proof.
  intros Hg Hc Hw Hr.
  assert (Hcl : closes_span d true ((c :: w) ++ d :: r) = true).
  { apply closes_span_app; [constructor; assumption|discriminate|exact Hr]. }
  destruct Hg as [[-> ->] | (s & -> & Hs)]; simpl.
  - rewrite Ascii.eqb_refl. simpl.
    apply negb_true_iff in Hc. rewrite Hc.
    simpl in Hcl. rewrite Hc in Hcl. rewrite <- !app_assoc. simpl.
    rewrite Hcl. reflexivity.
  - apply orb_true_iff. right. rewrite Hs, Ascii.eqb_refl. simpl.
    apply negb_true_iff in Hc. rewrite Hc.
    simpl in Hcl. rewrite Hc in Hcl. rewrite <- !app_assoc. simpl.
    rewrite Hcl. reflexivity.
Qed.

(** A match of the expression of [d] shows a place where it can match. *)
Lemma span_match_site (d : ascii) bef q m :
  occ "`"%char q <= 5 -> match_at false (boundary_re d) bef q = Some m ->
  has_span_site d (negb (word_at bef)) q = true.
Proof.
  intros H4 E. apply match_at_sound_in in E. destruct E as (r & -> & L).
  destruct m as [w cp]. cbn [group0] in *.
  unfold boundary_re, Plus, BT3 in L. simpl in L. lang_inv.
  - exfalso. rewrite !occ_app in H4. simpl in H4. lia.
  - apply span_site_shape; auto; [right; eauto|].
    simpl. apply negb_true_iff. assumption.
  - apply span_site_shape; auto.
    simpl. apply negb_true_iff. assumption.
  - apply span_site_shape; auto; [right; eauto|].
    match goal with
    | H : at_eol _ = true |- _ => unfold at_eol in H; simpl in H
    end.
    simpl. destruct x10 as [|a [|b x10]]; [reflexivity| |discriminate].
    simpl. match goal with
    | H : Ascii.eqb a NL = true |- _ => apply Ascii.eqb_eq in H; subst a
    end. reflexivity.
  - apply span_site_shape; auto.
    match goal with
    | H : at_eol _ = true |- _ => unfold at_eol in H; simpl in H
    end.
    simpl. destruct x10 as [|a [|b x10]]; [reflexivity| |discriminate].
    simpl. match goal with
    | H : Ascii.eqb a NL = true |- _ => apply Ascii.eqb_eq in H; subst a
    end. reflexivity.
Qed.

(** Without a place to match, the pass of [d] changes nothing. *)
Lemma span_pass_no_site (d : ascii) tag u :
  occ "`"%char u <= 5 -> has_span_site d true u = false ->
  re_sub false (boundary_re d) (boundary_repl tag) u = u.
Proof.
  intros H4 Hs. unfold re_sub.
  apply sub_loop_id_ctx
    with (P := fun bef q => has_span_site d (negb (word_at bef)) q = false /\
                            occ "`"%char q <= 5).
  - intros bef a q [H1 H2]. simpl in H1, H2. apply orb_false_iff in H1.
    split; [apply H1|lia].
  - intros bef q [H1 H2].
    destruct (match_at false (boundary_re d) bef q) as [m|] eqn:E; [|reflexivity].
    apply span_match_site in E; [congruence|exact H2].
  - split; assumption.
Qed.

(** The expression of [d] matches where [has_span_site] finds a place. *)
Lemma span_tail_some (d : ascii) v bef cp k :
  closes_span d true v = true -> (forall s, k s <> None) ->
  run false (seqs [Str [d]; Group 4 (Plus true (CNot d)); Str [d];
                   Look (Alt (One CNonWord) Eol)])
    (MState bef (d :: v) cp) k <> None.
Proof.
  intros Hv Hk. apply closes_span_inv in Hv.
  destruct Hv as (w & r & -> & Hw & Hne & Hr).
  destruct w as [|c w]; [exfalso; apply Hne; reflexivity|].
  inversion Hw as [|? ? Hc Hw']; subst.
  unfold seqs. rewrite run_Seq.
  erewrite run_Str by (cbn [rest strip_prefix]; rewrite Ascii.eqb_refl; reflexivity).
  rewrite run_Seq, run_Group. unfold Plus. rewrite run_Seq.
  cbn [before rest caps app]. rewrite run_One by exact Hc.
  cbn [run before rest caps]. apply star_greedy_some; [exact Hw'|].
  unfold set_cap. cbn [rest before caps strip_prefix]. rewrite Ascii.eqb_refl.
  destruct r as [|b r].
  - cbn. apply Hk.
  - simpl in Hr. cbn [cset_mem]. rewrite Hr. cbn. apply Hk.
Qed.

Lemma span_site_match_start (d : ascii) v :
  closes_span d true v = true ->
  match_at false (boundary_re d) [] (d :: v) <> None.
Proof.
  intros Hv. apply match_at_some. unfold boundary_re.
  rewrite run_Group. apply run_Alt_some.
  change (seqs [Group 3 (Alt (One CNonWord) Bol); Str [d];
                Group 4 (Plus true (CNot d)); Str [d];
                Look (Alt (One CNonWord) Eol)])
    with (Seq (Group 3 (Alt (One CNonWord) Bol))
              (seqs [Str [d]; Group 4 (Plus true (CNot d)); Str [d];
                     Look (Alt (One CNonWord) Eol)])).
  rewrite run_Seq, run_Group. apply run_Alt_some. rewrite run_Bol.
  unfold set_cap. cbn [before rest caps].
  apply span_tail_some; [exact Hv|]. intros s. discriminate.
Qed.

Lemma span_site_match_after (d s0 : ascii) bef v :
  is_word s0 = false -> closes_span d true v = true ->
  match_at false (boundary_re d) bef (s0 :: d :: v) <> None.
Proof.
  intros Hs Hv. apply match_at_some. unfold boundary_re.
  rewrite run_Group. apply run_Alt_some.
  change (seqs [Group 3 (Alt (One CNonWord) Bol); Str [d];
                Group 4 (Plus true (CNot d)); Str [d];
                Look (Alt (One CNonWord) Eol)])
    with (Seq (Group 3 (Alt (One CNonWord) Bol))
              (seqs [Str [d]; Group 4 (Plus true (CNot d)); Str [d];
                     Look (Alt (One CNonWord) Eol)])).
  rewrite run_Seq, run_Group. apply run_Alt_some_left.
  rewrite run_One by (simpl; rewrite Hs; reflexivity).
  unfold set_cap. cbn [before rest caps].
  apply span_tail_some; [exact Hv|]. intros s. discriminate.
Qed.

Lemma span_site_match (d : ascii) q : forall bef,
  has_span_site d (negb (word_at bef)) q = true ->
  exists p0 q0, rev bef ++ q = p0 ++ q0 /\
                match_at false (boundary_re d) (rev p0) q0 <> None.
Proof.
  induction q as [|a q IH]; intros bef H; simpl in H; [discriminate|].
  apply orb_true_iff in H. destruct H as [H | H].
  - apply andb_true_iff in H. destruct H as [H Hf].
    apply andb_true_iff in H. destruct H as [Ha Hw].
    apply Ascii.eqb_eq in Ha. subst a. apply negb_true_iff in Hw.
    destruct bef as [|s0 bef].
    + exists [], (d :: q). split; [reflexivity|].
      apply span_site_match_start, Hf.
    + exists (rev bef), (s0 :: d :: q). split.
      * simpl. rewrite <- app_assoc. reflexivity.
      * rewrite rev_involutive. apply span_site_match_after; assumption.
  - destruct (IH (a :: bef) H) as (p0 & q0 & E & Hm).
    exists p0, q0. split; [|exact Hm].
    rewrite <- E. simpl. rewrite <- app_assoc. reflexivity.
Qed.

(** Where the expression of [d] has a place to match, the pass takes two
    of [d] away. *)
Lemma span_pass_drop (d : ascii) tag u :
  d = "*"%char \/ d = "~"%char -> tag = T "strong" \/ tag = T "del" ->
  occ "`"%char u <= 5 -> has_span_site d true u = true ->
  occ d (re_sub false (boundary_re d) (boundary_repl tag) u) + 2 <= occ d u.
Proof.
  intros Hd Ht H4 Hs. destruct (boundary_pass_pairs d tag u Hd Ht) as [k Hk].
  destruct k as [|k]; [exfalso|lia].
  apply (span_site_match d u []) in Hs. destruct Hs as (p & q' & E & Hm).
  apply Hm. rewrite <- (app_nil_r (rev p)).
  apply (sub_loop_kept false (boundary_re d) (boundary_repl tag) d
           (fun q => occ "`"%char q <= 5)) with (rst := u); auto.
  - intros a q. simpl. lia.
  - intros rst bef skip.
    destruct (sub_loop_occ_mult false (boundary_re d) (boundary_repl tag) d 2) with
      (rst := rst) (bef := bef) (skip := skip) as [j Hj]; [|lia].
    intros bef' q m E'. apply match_at_caps in E'. destruct E' as (_ & _ & L).
    destruct m as [w0 cp0]. simpl in L |- *. apply boundary_repl_pairs; assumption.
  - intros bef q m Hq E'. pose proof (match_at_caps _ _ _ _ _ E') as (r' & Er & L).
    destruct m as [w0 cp0]. cbn [group0 groups] in *.
    apply boundary_caps in L.
    destruct L as [(g & -> & ->) | (g3 & a & g & -> & _ & _ & ->)].
    + exfalso. subst q. rewrite !occ_app in Hq. simpl in Hq. lia.
    + unfold boundary_repl, gtruthy, gtext. cbn [group get_cap groups Nat.eqb].
      change (d :: (a :: g) ++ [d]) with ([d] ++ (a :: g) ++ [d]).
      assert (Ht0 : occ d tag = 0).
      { destruct Ht as [-> | ->]; destruct Hd as [-> | ->]; reflexivity. }
      assert (H1 : occ d (T "<") = 0 /\ occ d (T ">") = 0 /\ occ d (T "</") = 0).
      { destruct Hd as [-> | ->]; repeat split; reflexivity. }
      destruct H1 as (H1 & H2 & H3).
      rewrite !occ_app, Ht0, H1, H2, H3. cbn [occ]. rewrite Ascii.eqb_refl. lia.
  - unfold re_sub in Hk. lia.
Qed.

(* ------------------------------------------------------------------ *)
(** ** What a pass leaves for the passes before it *)

Lemma tagged_refl (d : ascii) u : tagged d u u.
Proof. induction u; constructor; assumption. Qed.

Lemma tagged_app (d : ascii) u v u' v' :
  tagged d u v -> tagged d u' v' -> tagged d (u ++ u') (v ++ v').
Proof.
  intros H H'. induction H as [|a u v H IH|w u v Hw H IH]; simpl.
  - exact H'.
  - constructor. exact IH.
  - rewrite <- app_assoc. constructor; assumption.
Qed.

Lemma sub_loop_tagged (d : ascii) dotall r repl :
  (forall bef q m, match_at dotall r bef q = Some m ->
                   tagged d (group0 m) (repl m)) ->
  forall rst bef skip,
    tagged d (skipn skip rst) (sub_loop dotall r repl bef rst skip).
Proof.
  intros Hm. induction rst as [|a rst IH]; intros bef skip.
  - destruct skip; simpl; [|constructor].
    destruct (match_at dotall r bef []) as [m|] eqn:E; [|constructor].
    pose proof (Hm _ _ _ E) as Ht.
    apply match_at_sound in E. destruct E as (q & E & _).
    symmetry in E. apply app_eq_nil in E. destruct E as [E _].
    rewrite E in Ht. rewrite app_nil_r. exact Ht.
  - destruct skip as [|j]; simpl; [|apply IH].
    destruct (match_at dotall r bef (a :: rst)) as [m|] eqn:E.
    + pose proof (Hm _ _ _ E) as Ht.
      apply match_at_sound in E. destruct E as (q & E & _).
      destruct (group0 m) as [|b g] eqn:G; simpl.
      * change (a :: rst) with ([] ++ a :: rst). apply tagged_app; [exact Ht|].
        constructor. apply (IH (a :: bef) 0).
      * simpl in E. inversion E; subst.
        change (b :: g ++ q) with ((b :: g) ++ q). apply tagged_app; [exact Ht|].
        pose proof (IH (b :: bef) (length g)) as H.
        rewrite skipn_app, skipn_all, Nat.sub_diag in H. exact H.
    + constructor. apply (IH (a :: bef) 0).
Qed.

(** The bold and the strikethrough pass turn delimiters into tags and
    change nothing else. *)
Lemma span_pass_tagged (d : ascii) tag u :
  tag = T "strong" \/ tag = T "del" ->
  tagged d u (re_sub false (boundary_re d) (boundary_repl tag) u).
Proof.
  intros Ht. unfold re_sub.
  apply (sub_loop_tagged d false (boundary_re d) (boundary_repl tag)) with (skip := 0).
  intros bef q m E. apply match_at_caps in E. destruct E as (_ & _ & L).
  destruct m as [w cp]. cbn [group0 groups] in *.
  apply boundary_caps in L.
  destruct L as [(g & -> & ->) | (g3 & a & g & -> & _ & _ & ->)].
  - apply tagged_refl.
  - unfold boundary_repl, gtruthy, gtext. cbn [group get_cap groups Nat.eqb].
    apply tagged_app; [apply tagged_refl|].
    destruct Ht as [-> | ->].
    + change (T "<" ++ T "strong" ++ T ">" ++ (a :: g) ++ T "</" ++ T "strong" ++ T ">")
        with (T "<strong>" ++ (a :: g) ++ T "</strong>" ++ []).
      constructor; [unfold is_tag; auto|].
      apply tagged_app; [apply tagged_refl|].
      constructor; [unfold is_tag; auto|constructor].
    + change (T "<" ++ T "del" ++ T ">" ++ (a :: g) ++ T "</" ++ T "del" ++ T ">")
        with (T "<del>" ++ (a :: g) ++ T "</del>" ++ []).
      constructor; [unfold is_tag; auto|].
      apply tagged_app; [apply tagged_refl|].
      constructor; [unfold is_tag; auto 6|constructor].
Qed.

Ltac tag_cases Hw := destruct Hw as [-> | [-> | [-> | ->]]].

Lemma closes_line_tagged (d : ascii) u v :
  d = "*"%char \/ d = "~"%char -> tagged d u v -> closes_line v = closes_line u.
Proof.
  intros Hd H. induction H as [|a u v H IH|w u v Hw H IH].
  - reflexivity.
  - simpl. rewrite IH. reflexivity.
  - transitivity (closes_line v).
    + tag_cases Hw; reflexivity.
    + rewrite IH. destruct Hd as [-> | ->]; reflexivity.
Qed.

Lemma word_at_tagged (d : ascii) u v :
  d = "*"%char \/ d = "~"%char -> tagged d u v -> word_at v = word_at u.
Proof.
  intros Hd H. destruct H as [|a u v H|w u v Hw H].
  - reflexivity.
  - reflexivity.
  - transitivity false.
    + tag_cases Hw; reflexivity.
    + destruct Hd as [-> | ->]; reflexivity.
Qed.

Lemma italic_follows_tagged (d : ascii) u v :
  d = "*"%char \/ d = "~"%char -> tagged d u v ->
  italic_follows v = italic_follows u.
Proof.
  intros Hd H. destruct H as [|a u v H|w u v Hw H].
  - reflexivity.
  - simpl. rewrite (closes_line_tagged d u v Hd H). reflexivity.
  - transitivity (closes_line v).
    + tag_cases Hw; reflexivity.
    + rewrite (closes_line_tagged d u v Hd H).
      destruct Hd as [-> | ->]; reflexivity.
Qed.

(** The places where the italic expression can match are the same before
    and after the bold and the strikethrough pass. *)
Lemma has_italic_site_tagged (d : ascii) u v :
  d = "*"%char \/ d = "~"%char -> tagged d u v ->
  forall pw, has_italic_site pw v = has_italic_site pw u.
Proof.
  intros Hd H. induction H as [|a u v H IH|w u v Hw H IH]; intros pw.
  - reflexivity.
  - simpl. rewrite IH, (italic_follows_tagged d u v Hd H). reflexivity.
  - transitivity (has_italic_site false v).
    + tag_cases Hw; reflexivity.
    + rewrite IH. destruct Hd as [-> | ->]; reflexivity.
Qed.

Lemma closes_span_tagged u v :
  tagged "~"%char u v ->
  forall first, closes_span "*"%char first v = closes_span "*"%char first u.
Proof.
  intros H. induction H as [|a u v H IH|w u v Hw H IH]; intros first.
  - reflexivity.
  - simpl. rewrite IH, (word_at_tagged "~"%char u v) by auto. reflexivity.
  - transitivity (closes_span "*"%char false v).
    + tag_cases Hw; reflexivity.
    + rewrite IH. reflexivity.
Qed.

(** The places where the bold expression can match are the same before
    and after the strikethrough pass. *)
Lemma has_span_site_tagged u v :
  tagged "~"%char u v ->
  forall pn, has_span_site "*"%char pn v = has_span_site "*"%char pn u.
Proof.
  intros H. induction H as [|a u v H IH|w u v Hw H IH]; intros pn.
  - reflexivity.
  - simpl. rewrite IH, (closes_span_tagged u v H). reflexivity.
  - transitivity (has_span_site "*"%char true v).
    + tag_cases Hw; reflexivity.
    + rewrite IH. reflexivity.
Qed.

(* ------------------------------------------------------------------ *)
(** ** The markup formatter: detection after detection *)

(** Claim C2, amended: for every text in which each of [_], [*] and [~]
    occurs at most three times and the backtick fewer than six times,
    detection finds no markup in the detection-mode rendering, which
    detection leaves as it is. *)
Theorem C2_rendering_with_few_delimiters_is_fixed (s : text)
  (H1 : occ "_"%char s <= 3) (H2 : occ "*"%char s <= 3)
  (H3 : occ "~"%char s <= 3) (H4 : occ "`"%char s <= 5) :
  render_detect (render_detect s) = render_detect s /\
  has_markup (render_detect s) = false.
Proof.
  assert (E : render_detect (render_detect s) = render_detect s);
    [|split; [exact E|];
      unfold has_markup; fold (render_detect (render_detect s));
      rewrite E, text_eqb_refl; reflexivity].
  unfold render_detect, parse_markdown.
  set (u1 := italic_pass s).
  set (u2 := bold_pass u1).
  set (u3 := strike_pass u2).
  assert (B1 : occ "`"%char u1 = occ "`"%char s)
    by (apply italic_pass_occ; tauto).
  assert (B2 : occ "`"%char u2 = occ "`"%char s).
  { unfold u2, bold_pass, bold_re.
    rewrite boundary_pass_occ by (auto; discriminate). exact B1. }
  assert (B3 : occ "`"%char u3 = occ "`"%char s).
  { unfold u3, strike_pass, strike_re.
    rewrite boundary_pass_occ by (auto; discriminate). exact B2. }
  assert (T2 : tagged "*"%char u1 u2) by (apply span_pass_tagged; auto).
  assert (T3 : tagged "~"%char u2 u3) by (apply span_pass_tagged; auto).
  rewrite (mono_pass_few u3) by lia.
  assert (I : italic_pass u3 = u3).
  { destruct (has_italic_site false s) eqn:Hs.
    - apply italic_pass_lone.
      pose proof (italic_pass_drop s H4 Hs) as D. fold u1 in D.
      assert (occ "_"%char u3 = occ "_"%char u1); [|lia].
      unfold u3, u2, strike_pass, bold_pass, strike_re, bold_re.
      rewrite !boundary_pass_occ by (auto; discriminate). reflexivity.
    - apply italic_pass_no_site; [lia|].
      rewrite (has_italic_site_tagged "~"%char u2 u3) by auto.
      rewrite (has_italic_site_tagged "*"%char u1 u2) by auto.
      unfold u1. rewrite (italic_pass_no_site s H4 Hs). exact Hs. }
  rewrite I.
  assert (B : bold_pass u3 = u3).
  { unfold bold_pass, bold_re.
    destruct (has_span_site "*"%char true u1) eqn:Hs.
    - apply boundary_pass_lone.
      assert (D : occ "*"%char u2 + 2 <= occ "*"%char u1).
      { unfold u2, bold_pass, bold_re. apply span_pass_drop; auto. lia. }
      assert (occ "*"%char u1 = occ "*"%char s)
        by (apply italic_pass_occ; tauto).
      assert (occ "*"%char u3 = occ "*"%char u2); [|lia].
      unfold u3, strike_pass, strike_re.
      apply boundary_pass_occ; auto; discriminate.
    - apply span_pass_no_site; [lia|].
      rewrite (has_span_site_tagged u2 u3 T3).
      unfold u2, bold_pass, bold_re.
      rewrite (span_pass_no_site "*"%char (T "strong") u1) by (auto; lia).
      exact Hs. }
  rewrite B.
  assert (S : strike_pass u3 = u3).
  { unfold strike_pass, strike_re.
    destruct (has_span_site "~"%char true u2) eqn:Hs.
    - apply boundary_pass_lone.
      assert (D : occ "~"%char u3 + 2 <= occ "~"%char u2).
      { unfold u3, strike_pass, strike_re. apply span_pass_drop; auto. lia. }
      assert (occ "~"%char u2 = occ "~"%char s); [|lia].
      unfold u2, bold_pass, bold_re.
      rewrite boundary_pass_occ by (auto; discriminate).
      apply italic_pass_occ. tauto.
    - assert (E3 : u3 = u2).
      { unfold u3, strike_pass, strike_re. apply span_pass_no_site; [lia|exact Hs]. }
      rewrite E3. apply span_pass_no_site; [lia|exact Hs]. }
  rewrite S. apply mono_pass_few. lia.
Qed.

Lemma C2_rendering_with_few_delimiters_is_fixed_witness :
  render_detect (render_detect (T "say *hi* there, _you_ and ~all~ of you_"))
  = render_detect (T "say *hi* there, _you_ and ~all~ of you_") /\
  has_markup (render_detect (T "say *hi* there, _you_ and ~all~ of you_")) = false.
Proof.
  apply (C2_rendering_with_few_delimiters_is_fixed
           (T "say *hi* there, _you_ and ~all~ of you_")); simpl; lia.
Defined.
